(** * Auto-send scheduling: slot state classifier and tick processor

    A shallow embedding of [src/utils/channelAutomationState.ts]
    ([getChannelState], [calculateChannelStates]) together with the data
    model of [src/domain/channel.ts], and the properties of the
    scheduling engine stated over it. *)

From Stdlib Require Import ZArith Ascii String List Bool Lia QArith Qminmax.
From stdpp Require Import base option list strings sorting gmap.

Local Open Scope Z_scope.

(** ** Data model *)

(** A JavaScript [number] as the classifier meets it: an integer, or
    [NaN] (what a failed parse yields, and what [Number.isNaN] tests).
    Fractional values are not represented. *)
Inductive number : Type :=
  | NaN
  | Num (z : Z).

(** [type ChannelAutomationState = "current" | "next" | "previous" | "default"] *)
Inductive ChannelAutomationState : Type :=
  | current
  | next
  | previous
  | default.

#[global] Instance ChannelAutomationState_eq_dec : EqDecision ChannelAutomationState.
Proof. solve_decision. Defined.

(** [interface ChannelAutoSendSchedule] of [domain/channel.ts]. *)
Record ChannelAutoSendSchedule : Type := {
  scheduleId : string;
  enabled : bool;
  daysOfWeek : list Z;
  time : string;
  promptsPerRun : Z;
  lastRunAt : option string
}.

(** [interface Channel], restricted to the fields the classifier reads.
    [autoSendEnabled] and [autoSendSchedules] are optional in the source:
    [None] stands for [undefined]. *)
Record Channel : Type := {
  id : string;
  autoSendEnabled : option bool;
  autoSendSchedules : option (list ChannelAutoSendSchedule)
}.

(** [interface ChannelStateInfo]. *)
Record ChannelStateInfo : Type := {
  channelId : string;
  state : ChannelAutomationState;
  timeSlot : option string
}.

(** The three accumulators of [calculateChannelStates]
    ([{ channelId; timeSlot; minutes } | null]). *)
Record Pick : Type := {
  pickChannelId : string;
  pickTimeSlot : string;
  pickMinutes : Z
}.

(** ** JavaScript primitives used by the classifier *)

(** Truthiness of a string: only the empty string is falsy. *)
Definition truthy (s : string) : bool := negb (String.eqb s "").

(** Truthiness of an optional boolean ([undefined] is falsy). *)
Definition truthyFlag (b : option bool) : bool :=
  match b with
  | Some true => true
  | _ => false
  end.

(** [x || 11] on numbers: [0] and [NaN] are falsy. *)
Definition orElse (x : number) (d : Z) : Z :=
  match x with
  | NaN => d
  | Num 0 => d
  | Num z => z
  end.

(** [Array.prototype.sort()] with the default comparator, on strings:
    ascending order of code units (bytes here; the two agree on ASCII,
    which is all an "HH:MM" time holds). The order is total and
    antisymmetric, so the sorted array does not depend on the
    algorithm. *)
Definition sort (l : list string) : list string := merge_sort String.le l.

(** ** Well-formed "HH:MM" strings *)

Definition digitValue (c : ascii) : option Z :=
  let n := Z.of_N (N_of_ascii c) in
  if (48 <=? n) && (n <=? 57) then Some (n - 48) else None.

Definition parseHHMM (s : string) : option (Z * Z) :=
  match s with
  | String a (String b (String sep (String c (String d EmptyString)))) =>
      if Ascii.eqb sep ":"%char then
        match digitValue a, digitValue b, digitValue c, digitValue d with
        | Some a', Some b', Some c', Some d' => Some (10 * a' + b', 10 * c' + d')
        | _, _, _, _ => None
        end
      else None
  | _ => None
  end.

(** Two digits, a colon, two digits; hours 0-23 and minutes 0-59. *)
Definition wellFormedTime (s : string) : bool :=
  match parseHHMM s with
  | Some (h, m) => (h <=? 23) && (m <=? 59)
  | None => false
  end.

(** Minutes since midnight of a well-formed time. *)
Definition timeValue (s : string) : Z :=
  match parseHHMM s with
  | Some (h, m) => h * 60 + m
  | None => 0
  end.

(** Modelled from the spec: [hhmmToMinutes] is imported from
    [./scheduleFreeSlots], which is not among the sources. A well-formed
    "HH:MM" string yields its minute of the day; anything else yields
    [NaN] (malformed slot times are ignored by the classifier). This
    instance is used for concrete evaluations only: the classifier below
    takes the parser as a parameter. *)
Definition hhmmToMinutesModel (s : string) : number :=
  if wellFormedTime s then Num (timeValue s) else NaN.

(** ** The slot state classifier *)

(** The activity test in the first loop of [getChannelState]
    ([endMinutes], [endNormalized], [isActive]). *)
Definition isActive (slotMinutes validInterval nowMinutes : Z) : bool :=
  let endMinutes := slotMinutes + validInterval in
  if endMinutes <? 1440 then
    (slotMinutes <=? nowMinutes) && (nowMinutes <? endMinutes)
  else
    let endNormalized := Z.rem endMinutes 1440 in
    (nowMinutes >=? slotMinutes) || (nowMinutes <? endNormalized).

(** The "already ended today" test of the third loop of
    [calculateChannelStates] ([isPast]). *)
Definition isPast (slotMinutes validInterval nowMinutes : Z) : bool :=
  let endMinutes := slotMinutes + validInterval in
  if endMinutes <? 1440 then
    nowMinutes >=? endMinutes
  else
    let endNormalized := Z.rem endMinutes 1440 in
    (nowMinutes >=? endNormalized) && (nowMinutes <? slotMinutes).

(** [Math.max(1, Math.min(60, minIntervalMinutes || 11))]. *)
Definition validInterval (minIntervalMinutes : number) : Z :=
  Z.max 1 (Z.min 60 (orElse minIntervalMinutes 11)).


(** [schedules.filter(s => s.enabled && s.time).map(s => s.time).sort()]. *)
Definition enabledTimes (schedules : list ChannelAutoSendSchedule) : list string :=
  sort (time <$> filter (fun s => Is_true (enabled s && truthy (time s))) schedules).

Section Classifier.

(** The parser imported from [./scheduleFreeSlots]. *)
Variable hhmmToMinutes : string -> number.

(** First loop of [getChannelState]: the first time, in array order,
    whose window contains [nowMinutes]. *)
Fixpoint findActive (times : list string) (nowMinutes w : Z) : option string :=
  match times with
  | [] => None
  | t :: rest =>
      match hhmmToMinutes t with
      | NaN => findActive rest nowMinutes w
      | Num slotMinutes =>
          if isActive slotMinutes w nowMinutes then Some t
          else findActive rest nowMinutes w
      end
  end.

(** Second loop of [getChannelState]: the first time, in array order,
    that is strictly after [nowMinutes]. *)
Fixpoint findUpcoming (times : list string) (nowMinutes : Z) : option string :=
  match times with
  | [] => None
  | t :: rest =>
      match hhmmToMinutes t with
      | NaN => findUpcoming rest nowMinutes
      | Num slotMinutes =>
          if slotMinutes >? nowMinutes then Some t
          else findUpcoming rest nowMinutes
      end
  end.

Definition getChannelState (channel : Channel) (nowMinutes : Z)
    (minIntervalMinutes : number) : ChannelAutomationState * option string :=
  match autoSendSchedules channel with
  | None => (default, None)
  | Some schedules =>
      if negb (truthyFlag (autoSendEnabled channel)) || (length schedules =? 0)%nat
      then (default, None)
      else
        let times := enabledTimes schedules in
        match times with
        | [] => (default, None)
        | first :: _ =>
            let w := validInterval minIntervalMinutes in
            match findActive times nowMinutes w with
            | Some t => (current, Some t)
            | None =>
                match findUpcoming times nowMinutes with
                | Some t => (next, Some t)
                | None => (next, Some first)
                end
            end
        end
  end.

(** *** [calculateChannelStates] *)

(** Body of the first loop: the channel with an active slot whose
    time is largest (the first such channel on ties). *)
Definition currentStep (nowMinutes : Z) (minIntervalMinutes : number)
    (currentChannel : option Pick) (channel : Channel) : option Pick :=
  match getChannelState channel nowMinutes minIntervalMinutes with
  | (current, Some timeSlot) =>
      if truthy timeSlot then
        match hhmmToMinutes timeSlot with
        | NaN => currentChannel
        | Num minutes =>
            let candidate :=
              {| pickChannelId := id channel; pickTimeSlot := timeSlot;
                 pickMinutes := minutes |} in
            match currentChannel with
            | None => Some candidate
            | Some c =>
                if minutes >? pickMinutes c then Some candidate
                else currentChannel
            end
        end
      else currentChannel
  | _ => currentChannel
  end.

(** [currentChannel && channel.id === currentChannel.channelId]. *)
Definition isPicked (p : option Pick) (channel : Channel) : bool :=
  match p with
  | Some c => String.eqb (id channel) (pickChannelId c)
  | None => false
  end.

(** Body of the second loop: the soonest upcoming slot among the
    channels classified [next], the current channel left out. *)
Definition nextStep (nowMinutes : Z) (minIntervalMinutes : number)
    (currentChannel nextChannel : option Pick) (channel : Channel) : option Pick :=
  if isPicked currentChannel channel then nextChannel
  else
    match getChannelState channel nowMinutes minIntervalMinutes with
    | (next, Some timeSlot) =>
        if truthy timeSlot then
          match hhmmToMinutes timeSlot with
          | NaN => nextChannel
          | Num minutes =>
              let normalizedMinutes :=
                if minutes <=? nowMinutes then minutes + 1440 else minutes in
              let candidate :=
                {| pickChannelId := id channel; pickTimeSlot := timeSlot;
                   pickMinutes := normalizedMinutes |} in
              match nextChannel with
              | None => Some candidate
              | Some n =>
                  if normalizedMinutes <? pickMinutes n then Some candidate
                  else nextChannel
              end
          end
        else nextChannel
    | _ => nextChannel
    end.

(** Inner loop of the third loop: the slots of one channel that have
    already ended today. *)
Definition previousSlotStep (nowMinutes w : Z) (channelId : string)
    (previousChannel : option Pick) (t : string) : option Pick :=
  match hhmmToMinutes t with
  | NaN => previousChannel
  | Num slotMinutes =>
      if isPast slotMinutes w nowMinutes then
        let candidate :=
          {| pickChannelId := channelId; pickTimeSlot := t;
             pickMinutes := slotMinutes |} in
        match previousChannel with
        | None => Some candidate
        | Some p =>
            if slotMinutes >? pickMinutes p then Some candidate
            else previousChannel
        end
      else previousChannel
  end.

(** [!channel.autoSendEnabled || !channel.autoSendSchedules] fails: the
    schedules of a channel the third and fourth loops look at. (An
    empty array is truthy.) *)
Definition eligibleSchedules (channel : Channel) : option (list ChannelAutoSendSchedule) :=
  if truthyFlag (autoSendEnabled channel) then autoSendSchedules channel
  else None.

(** Body of the third loop. *)
Definition previousStep (nowMinutes w : Z) (currentChannel previousChannel : option Pick)
    (channel : Channel) : option Pick :=
  if isPicked currentChannel channel then previousChannel
  else
    match eligibleSchedules channel with
    | None => previousChannel
    | Some schedules =>
        foldl (previousSlotStep nowMinutes w (id channel)) previousChannel
          (enabledTimes schedules)
    end.

(** Body of the fourth loop (run when no slot ended today): the latest
    slot of each channel, taken as having ended yesterday. *)
Definition yesterdayStep (currentChannel previousChannel : option Pick)
    (channel : Channel) : option Pick :=
  if isPicked currentChannel channel then previousChannel
  else
    match eligibleSchedules channel with
    | None => previousChannel
    | Some schedules =>
        match last (enabledTimes schedules) with
        | None => previousChannel
        | Some lastTime =>
            match hhmmToMinutes lastTime with
            | NaN => previousChannel
            | Num lastMinutes =>
                let candidate :=
                  {| pickChannelId := id channel; pickTimeSlot := lastTime;
                     pickMinutes := lastMinutes |} in
                match previousChannel with
                | None => Some candidate
                | Some p =>
                    if lastMinutes >? pickMinutes p then Some candidate
                    else previousChannel
                end
            end
        end
    end.

Definition pickCurrent (channels : list Channel) (nowMinutes : Z)
    (minIntervalMinutes : number) : option Pick :=
  foldl (currentStep nowMinutes minIntervalMinutes) None channels.

Definition pickNext (channels : list Channel) (nowMinutes : Z)
    (minIntervalMinutes : number) (currentChannel : option Pick) : option Pick :=
  foldl (nextStep nowMinutes minIntervalMinutes currentChannel) None channels.

Definition pickPrevious (channels : list Channel) (nowMinutes : Z)
    (minIntervalMinutes : number) (currentChannel : option Pick) : option Pick :=
  let w := validInterval minIntervalMinutes in
  match foldl (previousStep nowMinutes w currentChannel) None channels with
  | Some p => Some p
  | None => foldl (yesterdayStep currentChannel) None channels
  end.

(** Body of the last loop: the [if / else if] chain that writes one
    entry per channel. *)
Definition finalInfo (currentChannel nextChannel previousChannel : option Pick)
    (channel : Channel) : ChannelStateInfo :=
  if isPicked currentChannel channel then
    {| channelId := id channel; state := current;
       timeSlot := pickTimeSlot <$> currentChannel |}
  else if isPicked nextChannel channel then
    {| channelId := id channel; state := next;
       timeSlot := pickTimeSlot <$> nextChannel |}
  else if isPicked previousChannel channel then
    {| channelId := id channel; state := previous;
       timeSlot := pickTimeSlot <$> previousChannel |}
  else
    {| channelId := id channel; state := default; timeSlot := None |}.

Definition applyStates (currentChannel nextChannel previousChannel : option Pick)
    (channels : list Channel) : gmap string ChannelStateInfo :=
  foldl
    (fun states channel =>
       <[id channel := finalInfo currentChannel nextChannel previousChannel channel]> states)
    ∅ channels.

(** [calculateChannelStates] with the clock reading made explicit:
    [nowMinutes] is [now.getHours() * 60 + now.getMinutes()]. *)
Definition calculateChannelStatesAt (nowMinutes : Z) (channels : list Channel)
    (minIntervalMinutes : number) : gmap string ChannelStateInfo :=
  let currentChannel := pickCurrent channels nowMinutes minIntervalMinutes in
  let nextChannel := pickNext channels nowMinutes minIntervalMinutes currentChannel in
  let previousChannel := pickPrevious channels nowMinutes minIntervalMinutes currentChannel in
  applyStates currentChannel nextChannel previousChannel channels.

(** [calculateChannelStates(channels, minIntervalMinutes = 11)], the
    local time of [new Date()] passed in as [hours] and [minutes]; an
    omitted second argument is [None]. *)
Definition calculateChannelStates (hours minutes : Z) (channels : list Channel)
    (minIntervalMinutes : option number) : gmap string ChannelStateInfo :=
  let nowMinutes := hours * 60 + minutes in
  calculateChannelStatesAt nowMinutes channels
    (match minIntervalMinutes with Some m => m | None => Num 11 end).

End Classifier.

(** ** Slots the classifier considers *)

(** The master switch of the channel is on. *)
Definition automationOn (ch : Channel) : Prop :=
  truthyFlag (autoSendEnabled ch) = true.

(** [t] is the time of an enabled slot of [ch]. *)
Definition enabledSlot (ch : Channel) (t : string) : Prop :=
  exists schedules s,
    autoSendSchedules ch = Some schedules /\ s ∈ schedules /\
    enabled s = true /\ time s = t.

(** Every enabled slot carries a well-formed time (the data model's
    invariant; malformed times are rejected at the boundary). *)
Definition wellFormedSchedules (l : list ChannelAutoSendSchedule) : bool :=
  forallb (fun s => implb (enabled s) (wellFormedTime (time s))) l.

Definition wellFormedChannel (ch : Channel) : bool :=
  match autoSendSchedules ch with
  | Some l => wellFormedSchedules l
  | None => true
  end.

Definition wellFormedFleet (channels : list Channel) : bool :=
  forallb wellFormedChannel channels.

(** ** Sample data *)

(** An enabled slot at time [t], eligible every day of the week. *)
Definition slotAt (t : string) : ChannelAutoSendSchedule :=
  {| scheduleId := t; enabled := true; daysOfWeek := [0; 1; 2; 3; 4; 5; 6];
     time := t; promptsPerRun := 1; lastRunAt := None |}.

(** A channel with automation on and one enabled slot per given time. *)
Definition channelWith (i : string) (times : list string) : Channel :=
  {| id := i; autoSendEnabled := Some true;
     autoSendSchedules := Some (slotAt <$> times) |}.

(** ** Reading the result map *)

(** The entries of a result map that carry state [st]. *)
Definition reported (st : ChannelAutomationState)
    (states : gmap string ChannelStateInfo) : list (string * ChannelStateInfo) :=
  filter (fun kv => state kv.2 = st) (map_to_list states).

(** The update shared by the accumulators of [calculateChannelStates]:
    a candidate replaces the pick held so far when there is none yet or
    when [better] says so. *)
Definition keepBest (better : Z -> Z -> bool) (acc cand : option Pick) : option Pick :=
  match cand with
  | None => acc
  | Some c =>
      match acc with
      | None => Some c
      | Some a => if better (pickMinutes c) (pickMinutes a) then Some c else acc
      end
  end.

(** Minutes from [now] until a slot at minute [t] fires next. *)
Definition minutesUntil (t now : Z) : Z :=
  if t >? now then t - now else t + 1440 - now.

(** ** The candidates each loop of the reduction weighs *)

Section Candidates.

Variable hhmmToMinutes : string -> number.

(** What one channel offers to the first loop. *)
Definition currentCandidate (nowMinutes : Z) (minIntervalMinutes : number)
    (channel : Channel) : option Pick :=
  match getChannelState hhmmToMinutes channel nowMinutes minIntervalMinutes with
  | (current, Some timeSlot) =>
      if truthy timeSlot then
        match hhmmToMinutes timeSlot with
        | NaN => None
        | Num minutes =>
            Some {| pickChannelId := id channel; pickTimeSlot := timeSlot;
                    pickMinutes := minutes |}
        end
      else None
  | _ => None
  end.

(** What one channel offers to the second loop. *)
Definition nextCandidate (nowMinutes : Z) (minIntervalMinutes : number)
    (currentChannel : option Pick) (channel : Channel) : option Pick :=
  if isPicked currentChannel channel then None
  else
    match getChannelState hhmmToMinutes channel nowMinutes minIntervalMinutes with
    | (next, Some timeSlot) =>
        if truthy timeSlot then
          match hhmmToMinutes timeSlot with
          | NaN => None
          | Num minutes =>
              Some {| pickChannelId := id channel; pickTimeSlot := timeSlot;
                      pickMinutes :=
                        if minutes <=? nowMinutes then minutes + 1440 else minutes |}
          end
        else None
    | _ => None
    end.

(** What one slot offers to the third loop. *)
Definition endedCandidate (nowMinutes w : Z) (channelId t : string) : option Pick :=
  match hhmmToMinutes t with
  | NaN => None
  | Num slotMinutes =>
      if isPast slotMinutes w nowMinutes then
        Some {| pickChannelId := channelId; pickTimeSlot := t;
                pickMinutes := slotMinutes |}
      else None
  end.

Definition endedCandidates (nowMinutes w : Z) (currentChannel : option Pick)
    (channel : Channel) : list (option Pick) :=
  if isPicked currentChannel channel then []
  else
    match eligibleSchedules channel with
    | None => []
    | Some schedules =>
        endedCandidate nowMinutes w (id channel) <$> enabledTimes schedules
    end.

(** What one channel offers to the fourth loop. *)
Definition yesterdayCandidate (currentChannel : option Pick)
    (channel : Channel) : option Pick :=
  if isPicked currentChannel channel then None
  else
    match eligibleSchedules channel with
    | None => None
    | Some schedules =>
        match last (enabledTimes schedules) with
        | None => None
        | Some lastTime =>
            match hhmmToMinutes lastTime with
            | NaN => None
            | Num lastMinutes =>
                Some {| pickChannelId := id channel; pickTimeSlot := lastTime;
                        pickMinutes := lastMinutes |}
            end
        end
    end.

End Candidates.

(** ** Vocabulary of the fleet-wide properties *)

(** A channel the third and fourth loops consider: not the current
    pick, and with automation on. *)
Definition eligible (currentChannel : option Pick) (ch : Channel) : Prop :=
  isPicked currentChannel ch = false /\ automationOn ch.

(** [t] is an enabled slot of [ch] whose window (of [W] minutes) has
    already ended today at [now]. *)
Definition endedToday (ch : Channel) (t : string) (W now : Z) : Prop :=
  enabledSlot ch t /\ isPast (timeValue t) W now = true.

(** [t] is the latest enabled slot of [ch]. *)
Definition latestSlot (ch : Channel) (t : string) : Prop :=
  enabledSlot ch t /\ forall t', enabledSlot ch t' -> timeValue t' <= timeValue t.

(** [(ch, t)] is what the third and fourth loops of
    [calculateChannelStates] look for: [ch] is a channel of the fleet
    other than the current pick, with automation on, and [t] is the
    latest of the slots that ended today; or, no slot having ended
    today, [t] is the latest slot of [ch] and the latest of the latest
    slots. *)
Definition previousChoice (channels : list Channel) (currentChannel : option Pick)
    (W now : Z) (ch : Channel) (t : string) : Prop :=
  ch ∈ channels /\ eligible currentChannel ch /\
  ((endedToday ch t W now /\
    forall ch' t', ch' ∈ channels -> eligible currentChannel ch' ->
      endedToday ch' t' W now -> timeValue t' <= timeValue t)
   \/
   ((forall ch' t', ch' ∈ channels -> eligible currentChannel ch' ->
       ~ endedToday ch' t' W now) /\
    latestSlot ch t /\
    forall ch' t', ch' ∈ channels -> eligible currentChannel ch' ->
      latestSlot ch' t' -> timeValue t' <= timeValue t)).


(** A channel whose two slots overlap under the default window. *)
Definition overlapChannel : Channel := channelWith "ch" ["08:00"; "08:05"].

(** The channel of the two-slot scenario. *)
Definition scenarioChannel : Channel := channelWith "ch" ["08:00"; "20:00"].

(** A channel whose only slot wraps around midnight under window 20. *)
Definition lateChannel : Channel := channelWith "ch" ["23:50"].

(** Two channels with one slot each. *)
Definition relayFleet : list Channel :=
  [channelWith "a" ["08:00"]; channelWith "b" ["20:00"]].

(** Two channels with two slots each. *)
Definition pairFleet : list Channel :=
  [channelWith "a" ["08:00"; "20:00"]; channelWith "b" ["07:00"; "21:00"]].

(** One channel with one slot. *)
Definition soloFleet : list Channel := [channelWith "a" ["08:00"]].


(** ** The tick processor *)

Module Tick.

(** Modelled from the spec: the tick processor and its data live in
    [services/autoSendScheduler], which is not among the sources. The
    instant a tick is invoked with: calendar date (a day number),
    weekday (0-6, Sunday first) and minute of the day, in the channel's
    timezone. *)
Record Instant : Type := {
  date : Z;
  weekday : Z;
  minuteOfDay : Z
}.

(** Modelled from the spec: a slot as the tick processor reads and
    writes it (the scheduler's own view of a slot is not among the
    sources). *)
Record Slot : Type := {
  slotId : string;
  slotEnabled : bool;
  slotDaysOfWeek : list Z;
  slotTime : Z;
  slotPromptsPerRun : nat;
  lastFiredAt : option Instant
}.

Record AutomationChannel : Type := {
  channelKey : string;
  automationEnabled : bool;
  slots : list Slot
}.

(** The calls a tick makes to its collaborators, in order, each with
    its outcome: [generate(channelId, promptContext)] and
    [updateSlotLastFired(channelId, slotId, timestamp)], both of which
    answer success or failure. *)
Inductive Event : Type :=
  | Generate (channelId slotId : string) (now : Instant) (index : nat) (ok : bool)
  | UpdateSlotLastFired (channelId slotId : string) (timestamp : Instant) (ok : bool).

(** Modelled from the spec: step 2 of the scheduler's tick (not among
    the sources). The slot is enabled, eligible on today's weekday, and
    its time equals the tick's minute of the day. *)
Definition isDue (now : Instant) (s : Slot) : bool :=
  slotEnabled s && existsb (Z.eqb (weekday now)) (slotDaysOfWeek s)
  && (slotTime s =? minuteOfDay now).

(** Modelled from the spec: step 3 of the scheduler's tick (not among
    the sources), the idempotency gate. [lastFiredAt] already falls on
    the calendar date of [now]. *)
Definition firedToday (now : Instant) (s : Slot) : bool :=
  match lastFiredAt s with
  | Some t => date t =? date now
  | None => false
  end.

(** Modelled from the spec: step 5 of the scheduler's tick (not among
    the sources), [lastFiredAt = now]. *)
Definition markFired (now : Instant) (s : Slot) : Slot :=
  {| slotId := slotId s; slotEnabled := slotEnabled s;
     slotDaysOfWeek := slotDaysOfWeek s; slotTime := slotTime s;
     slotPromptsPerRun := slotPromptsPerRun s; lastFiredAt := Some now |}.

Section Processor.

(** The generation collaborator during one tick: whether the call with
    the given index succeeds. Its outcome is recorded and changes
    nothing else. *)
Variable generate : string -> string -> Instant -> nat -> bool.

(** The store collaborator during one tick: whether
    [updateSlotLastFired(channelId, slotId, timestamp)] succeeds. A
    failure stands for a store error as well as for a conditional
    update that the store rejects; either way this call writes
    nothing. *)
Variable updateSlotLastFired : string -> string -> Instant -> bool.

(** Modelled from the spec: the tick processor
    ([services/autoSendScheduler], not among the sources), steps 2 to 5
    for one slot: a due slot that passes the gate gets [promptsPerRun]
    generation calls, one after the other, and then, whatever their
    outcomes, the write of [lastFiredAt = now] is attempted; the slot
    carries the new [lastFiredAt] only when that write succeeds. *)
Definition fireSlot (now : Instant) (channelId : string) (s : Slot) : Slot * list Event :=
  if isDue now s && negb (firedToday now s) then
    let written := updateSlotLastFired channelId (slotId s) now in
    ((if written then markFired now s else s),
     ((fun k => Generate channelId (slotId s) now k (generate channelId (slotId s) now k))
        <$> seq 0 (slotPromptsPerRun s))
     ++ [UpdateSlotLastFired channelId (slotId s) now written])
  else (s, []).

(** Modelled from the spec: step 1 and the loop over the slots of one
    channel; a channel with automation off is left alone. *)
Definition processChannel (now : Instant) (ch : AutomationChannel)
    : AutomationChannel * list Event :=
  if automationEnabled ch then
    let results := fireSlot now (channelKey ch) <$> slots ch in
    ({| channelKey := channelKey ch; automationEnabled := automationEnabled ch;
        slots := fst <$> results |},
     concat (snd <$> results))
  else (ch, []).

(** Modelled from the spec: one tick over the store, returning the
    store as written back and the calls made. *)
Definition processAutoSendTick (now : Instant) (store : list AutomationChannel)
    : list AutomationChannel * list Event :=
  let results := processChannel now <$> store in
  (fst <$> results, concat (snd <$> results)).





End Processor.

Section Run.

(** The collaborators over successive ticks: the outcomes during the
    tick with the given number. *)
Variable generateAt : nat -> string -> string -> Instant -> nat -> bool.

Variable updateAt : nat -> string -> string -> Instant -> bool.

(** Successive ticks, numbered from [n], each on the store the previous
    one left. *)
Fixpoint run (n : nat) (nows : list Instant) (store : list AutomationChannel)
    : list AutomationChannel * list Event :=
  match nows with
  | [] => (store, [])
  | now :: rest =>
      let (store1, trace1) :=
        processAutoSendTick (generateAt n) (updateAt n) now store in
      let (store2, trace2) := run (S n) rest store1 in
      (store2, trace1 ++ trace2)
  end.


End Run.










Definition sampleSlot : Slot :=
  {| slotId := "s1"; slotEnabled := true; slotDaysOfWeek := [1; 3; 5];
     slotTime := 540; slotPromptsPerRun := 2; lastFiredAt := None |}.



Definition storeOf (s : Slot) : list AutomationChannel :=
  [{| channelKey := "c1"; automationEnabled := true; slots := [s] |}].

Definition sampleStore : list AutomationChannel := storeOf sampleSlot.




End Tick.


(** ** The channel routes and the auth middleware *)

Module Routes.

(** A value of a JSON request body where a string is expected: a string,
    or anything else. *)
Inductive JsonValue : Type :=
  | JString (s : string)
  | JOther.

#[global] Instance JsonValue_eq_dec : EqDecision JsonValue.
Proof. solve_decision. Defined.

(** The fields of a channel document ([doc.data()]) the routes read or
    write. [None] stands for a missing field. *)
Record ChannelData : Type := {
  name : option string;
  dataAutoSendEnabled : option bool;
  dataAutoSendSchedules : option (list ChannelAutoSendSchedule);
  orderIndex : option Z;
  updatedAt : option Z
}.

(** The channels of one user, in the order a collection snapshot lists
    them; and the store, by user id. *)
Definition Store : Type := gmap string (list (string * ChannelData)).

Definition userDocs (store : Store) (userId : string) : list (string * ChannelData) :=
  match store !! userId with
  | Some docs => docs
  | None => []
  end.

(** [collection.doc(channelId).get()]: the document's data when it
    exists. *)
Definition getDoc (docs : list (string * ChannelData)) (channelId : string)
    : option ChannelData :=
  snd <$> List.find (fun d => String.eqb d.1 channelId) docs.

(** [collection.doc(channelId).update(...)] on the snapshot. *)
Definition updateDoc (docs : list (string * ChannelData)) (channelId : string)
    (change : ChannelData -> ChannelData) : list (string * ChannelData) :=
  (fun d => if String.eqb d.1 channelId then (d.1, change d.2) else d) <$> docs.

(** What a store call does besides its result: whether Firestore is
    configured at all, and the message of the exception a read or a
    write throws, if it throws. *)
Record StoreFaults : Type := {
  firestoreAvailable : bool;
  readFault : option string;
  writeFault : option string
}.

(** An entry of the schedule table ([ChannelScheduleItem]); the
    [platform] label is not represented. The response of the update
    route carries no index. *)
Record ScheduleItem : Type := {
  itemId : string;
  itemIndex : option Z;
  itemName : string;
  itemTimes : list string;
  isAutomationEnabled : bool
}.

(** A response: the status and the JSON body, an error body being its
    [error] field and the values its message quotes. *)
Inductive Body : Type :=
  | ErrorBody (error : string) (detail : list JsonValue)
  | SuccessBody
  | ItemBody (item : ScheduleItem)
  | ItemsBody (items : list ScheduleItem).

Record Response : Type := {
  status : Z;
  body : Body
}.

Definition errorResponse (code : Z) (error : string) (detail : list JsonValue) : Response :=
  {| status := code; body := ErrorBody error detail |}.

(** *** [authRequired] *)

(** What [jwt.decode] finds in a token. *)
Record TokenPayload : Type := {
  user_id : option string;
  uid : option string;
  email : option string
}.

Inductive DecodeResult : Type :=
  | DecodeThrows
  | DecodeNull
  | Decoded (payload : TokenPayload).

(** [req.user]. *)
Record AuthUser : Type := {
  authUid : string;
  authEmail : option string
}.

(** [s.slice(n)]. *)
Fixpoint slice (n : nat) (s : string) : string :=
  match n, s with
  | O, _ => s
  | S n', String _ rest => slice n' rest
  | S _, EmptyString => EmptyString
  end.

(** [a || b] on optional strings: the first that is present and not
    empty. *)
Definition firstTruthy (a b : option string) : option string :=
  match a with
  | Some s => if truthy s then Some s else b
  | None => b
  end.

Section Middleware.

(** [jwt.decode], from the [jsonwebtoken] package. *)
Variable jwtDecode : string -> DecodeResult.

(** [authRequired]: either the response it sends, or the user it
    attaches to the request before calling [next()]. *)
Definition authRequired (authorization : option string) : Response + AuthUser :=
  match authorization with
  | None => inl (errorResponse 401 "Unauthorized" [])
  | Some authHeader =>
      if negb (String.prefix "Bearer " authHeader) then
        inl (errorResponse 401 "Unauthorized" [])
      else
        let token := slice (String.length "Bearer ") authHeader in
        match jwtDecode token with
        | DecodeThrows => inl (errorResponse 401 "Invalid token" [])
        | DecodeNull => inl (errorResponse 401 "Invalid token" [])
        | Decoded decoded =>
            match firstTruthy (user_id decoded) (uid decoded) with
            | Some u =>
                if truthy u then inr {| authUid := u; authEmail := email decoded |}
                else inl (errorResponse 401 "Invalid token payload" [])
            | None => inl (errorResponse 401 "Invalid token payload" [])
            end
        end
  end.

End Middleware.

(** *** PATCH /:id/schedule *)

Inductive TimesError : Type :=
  | InvalidTimeFormat (time : string)
  | InvalidTimeValue (time : string)
  | TooManyTimeSlots.

Definition MAX_SLOTS : nat := 10.

(** [{ ...schedule, time: time }]. *)
Definition withTime (s : ChannelAutoSendSchedule) (t : string) : ChannelAutoSendSchedule :=
  {| scheduleId := scheduleId s; enabled := enabled s; daysOfWeek := daysOfWeek s;
     time := t; promptsPerRun := promptsPerRun s; lastRunAt := lastRunAt s |}.

(** The schedule the route creates for a time no existing schedule
    takes. *)
Definition newSchedule (uuid t : string) : ChannelAutoSendSchedule :=
  {| scheduleId := uuid; enabled := true; daysOfWeek := [1; 2; 3; 4; 5];
     time := t; promptsPerRun := 1; lastRunAt := None |}.

Section ScheduleUpdate.

(** [!time.trim()]: the string is empty once its surrounding white space
    is removed. *)
Variable trimIsEmpty : string -> bool.

(** [randomUUID()]: the identifier the call number [n] of a request
    returns. *)
Variable randomUUID : nat -> string.

(** The validation loop: non-strings and blank strings are skipped, a
    string that fails the format or the range ends the request, a
    repeated time is dropped. *)
Fixpoint validateLoop (times : list JsonValue) (seen : gset string)
    (validatedTimes : list string) : TimesError + list string :=
  match times with
  | [] => inr validatedTimes
  | JOther :: rest => validateLoop rest seen validatedTimes
  | JString t :: rest =>
      if trimIsEmpty t then validateLoop rest seen validatedTimes
      else
        match parseHHMM t with
        | None => inl (InvalidTimeFormat t)
        | Some (hours, minutes) =>
            if (hours <? 0) || (hours >? 23) || (minutes <? 0) || (minutes >? 59)
            then inl (InvalidTimeValue t)
            else if decide (t ∈ seen) then validateLoop rest seen validatedTimes
            else validateLoop rest ({[t]} ∪ seen) (validatedTimes ++ [t])
        end
  end.

(** The loop, the limit on the number of slots, and the final sort. *)
Definition validateTimes (times : list JsonValue) : TimesError + list string :=
  match validateLoop times ∅ [] with
  | inl e => inl e
  | inr validatedTimes =>
      if (MAX_SLOTS <? length validatedTimes)%nat then inl TooManyTimeSlots
      else inr (sort validatedTimes)
  end.

(** [validatedTimes.forEach((time, index) => ...)]: the time at [index]
    goes to the enabled schedule at [index] when there is one, to a new
    schedule otherwise. [calls] counts the calls to [randomUUID]. *)
Fixpoint rebuildLoop (enabledSchedules : list ChannelAutoSendSchedule)
    (validatedTimes : list string) (index calls : nat)
    (updatedSchedules : list ChannelAutoSendSchedule)
    : list ChannelAutoSendSchedule :=
  match validatedTimes with
  | [] => updatedSchedules
  | t :: rest =>
      match enabledSchedules !! index with
      | Some s =>
          rebuildLoop enabledSchedules rest (S index) calls
            (updatedSchedules ++ [withTime s t])
      | None =>
          rebuildLoop enabledSchedules rest (S index) (S calls)
            (updatedSchedules ++ [newSchedule (randomUUID calls) t])
      end
  end.

(** The schedules written back: the rebuilt enabled ones, then the
    disabled ones as they were. *)
Definition updateSchedules (existingSchedules : list ChannelAutoSendSchedule)
    (validatedTimes : list string) : list ChannelAutoSendSchedule :=
  let enabledSchedules := List.filter enabled existingSchedules in
  let disabledSchedules := List.filter (fun s => negb (enabled s)) existingSchedules in
  rebuildLoop enabledSchedules validatedTimes 0 0 [] ++ disabledSchedules.

Definition scheduleField (data : ChannelData) : list ChannelAutoSendSchedule :=
  match dataAutoSendSchedules data with
  | Some l => l
  | None => []
  end.

(** [channelData.name || "Без названия"]. *)
Definition displayName (data : ChannelData) : string :=
  match name data with
  | Some n => if truthy n then n else "Без названия"
  | None => "Без названия"
  end.

(** [channelData.autoSendEnabled === true]. *)
Definition automationFlag (data : ChannelData) : bool :=
  match dataAutoSendEnabled data with
  | Some true => true
  | _ => false
  end.

Definition withSchedules (data : ChannelData) (l : list ChannelAutoSendSchedule)
    (now : Z) : ChannelData :=
  {| name := name data; dataAutoSendEnabled := dataAutoSendEnabled data;
     dataAutoSendSchedules := Some l; orderIndex := orderIndex data;
     updatedAt := Some now |}.

(** The handler of PATCH /:id/schedule after [authRequired]: the
    response and the store it leaves. [times] is [None] when the body's
    [times] is not an array; [now] is [new Date()]. *)
Definition patchSchedule (faults : StoreFaults) (now : Z) (store : Store)
    (userId channelId : string) (times : option (list JsonValue)) : Response * Store :=
  if negb (firestoreAvailable faults) then
    (errorResponse 503 "Firestore is not available" [], store)
  else
    match times with
    | None => (errorResponse 400 "Invalid request" [], store)
    | Some times =>
        match validateTimes times with
        | inl (InvalidTimeFormat t) =>
            (errorResponse 400 "Invalid time format" [JString t], store)
        | inl (InvalidTimeValue t) =>
            (errorResponse 400 "Invalid time value" [JString t], store)
        | inl TooManyTimeSlots => (errorResponse 400 "Too many time slots" [], store)
        | inr validatedTimes =>
            match readFault faults with
            | Some message =>
                (errorResponse 500 "Internal server error" [JString message], store)
            | None =>
                match getDoc (userDocs store userId) channelId with
                | None => (errorResponse 404 "Channel not found" [], store)
                | Some channelData =>
                    let updatedSchedules :=
                      updateSchedules (scheduleField channelData) validatedTimes in
                    match writeFault faults with
                    | Some message =>
                        (errorResponse 500 "Internal server error" [JString message],
                         store)
                    | None =>
                        ({| status := 200;
                            body := ItemBody
                              {| itemId := channelId; itemIndex := None;
                                 itemName := displayName channelData;
                                 itemTimes := validatedTimes;
                                 isAutomationEnabled := automationFlag channelData |} |},
                         <[userId :=
                             updateDoc (userDocs store userId) channelId
                               (fun d => withSchedules d updatedSchedules now)]> store)
                    end
                end
            end
        end
    end.

End ScheduleUpdate.

(** *** GET /schedule *)

(** [docs.map((doc, index) => ...)]: the table entry of one document. *)
Definition scheduleItem (index : nat) (doc : string * ChannelData) : ScheduleItem :=
  {| itemId := doc.1; itemIndex := Some (Z.of_nat index + 1);
     itemName := displayName doc.2;
     itemTimes := enabledTimes (scheduleField doc.2);
     isAutomationEnabled := automationFlag doc.2 |}.

(** [aData?.orderIndex ?? a.index]: the key the table is sorted by. *)
Definition orderOf (docs : list (string * ChannelData)) (item : ScheduleItem) : Z :=
  let fallback := match itemIndex item with Some i => i | None => 0 end in
  match List.find (fun d => String.eqb d.1 (itemId item)) docs with
  | Some d =>
      match orderIndex d.2 with
      | Some o => o
      | None => fallback
      end
  | None => fallback
  end.

(** [Array.prototype.sort((a, b) => key(a) - key(b))] on integer keys:
    the stable sort by key. *)
Fixpoint insertByKey {A} (key : A -> Z) (x : A) (l : list A) : list A :=
  match l with
  | [] => [x]
  | y :: rest => if key x <=? key y then x :: y :: rest else y :: insertByKey key x rest
  end.

Definition sortByKey {A} (key : A -> Z) (l : list A) : list A :=
  foldr (insertByKey key) [] l.

Definition withIndex (index : nat) (item : ScheduleItem) : ScheduleItem :=
  {| itemId := itemId item; itemIndex := Some (Z.of_nat index + 1);
     itemName := itemName item; itemTimes := itemTimes item;
     isAutomationEnabled := isAutomationEnabled item |}.

(** The table of a snapshot: one entry per document, sorted by order
    key, then numbered from 1. *)
Definition scheduleItems (docs : list (string * ChannelData)) : list ScheduleItem :=
  imap withIndex (sortByKey (orderOf docs) (imap scheduleItem docs)).

(** The handler of GET /schedule after [authRequired]. *)
Definition getSchedule (faults : StoreFaults) (store : Store) (userId : string) : Response :=
  if negb (firestoreAvailable faults) then
    errorResponse 503 "Firestore is not available" []
  else
    match readFault faults with
    | Some message => errorResponse 500 "Internal server error" [JString message]
    | None => {| status := 200; body := ItemsBody (scheduleItems (userDocs store userId)) |}
    end.

(** *** PATCH /reorder *)

Definition withOrderIndex (data : ChannelData) (index : nat) : ChannelData :=
  {| name := name data; dataAutoSendEnabled := dataAutoSendEnabled data;
     dataAutoSendSchedules := dataAutoSendSchedules data;
     orderIndex := Some (Z.of_nat index); updatedAt := updatedAt data |}.

(** [userChannelIds.includes(id)]. *)
Definition ownsChannel (docs : list (string * ChannelData)) (v : JsonValue) : bool :=
  match v with
  | JString i => bool_decide (i ∈ docs.*1)
  | JOther => false
  end.

(** [orderedIds.forEach((channelId, index) => batch.update(ref,
    { orderIndex: index }))], the writes applied in order. *)
Fixpoint batchReorder (docs : list (string * ChannelData)) (orderedIds : list JsonValue)
    (index : nat) : list (string * ChannelData) :=
  match orderedIds with
  | [] => docs
  | JString channelId :: rest =>
      batchReorder (updateDoc docs channelId (fun d => withOrderIndex d index))
        rest (S index)
  | JOther :: rest => batchReorder docs rest (S index)
  end.

(** The handler of PATCH /reorder after [authRequired]. [orderedIds] is
    [None] when the body's [orderedIds] is not an array. *)
Definition reorder (faults : StoreFaults) (store : Store) (userId : string)
    (orderedIds : option (list JsonValue)) : Response * Store :=
  if negb (firestoreAvailable faults) then
    (errorResponse 503 "Firestore is not available" [], store)
  else
    match orderedIds with
    | None => (errorResponse 400 "Invalid request" [], store)
    | Some [] => (errorResponse 400 "Invalid request" [], store)
    | Some ids =>
        match readFault faults with
        | Some message =>
            (errorResponse 500 "Internal server error" [JString message], store)
        | None =>
            let docs := userDocs store userId in
            let invalidIds := List.filter (fun v => negb (ownsChannel docs v)) ids in
            if (0 <? length invalidIds)%nat then
              (errorResponse 403 "Forbidden" invalidIds, store)
            else
              match writeFault faults with
              | Some message =>
                  (errorResponse 500 "Internal server error" [JString message], store)
              | None =>
                  ({| status := 200; body := SuccessBody |},
                   <[userId := batchReorder docs ids 0]> store)
              end
        end
    end.

(** *** The routes: middleware, then handler *)

Section Router.

Variable jwtDecode : string -> DecodeResult.
Variable trimIsEmpty : string -> bool.
Variable randomUUID : nat -> string.

Definition patchScheduleRoute (faults : StoreFaults) (now : Z) (store : Store)
    (authorization : option string) (channelId : string)
    (times : option (list JsonValue)) : Response * Store :=
  match authRequired jwtDecode authorization with
  | inl response => (response, store)
  | inr user =>
      patchSchedule trimIsEmpty randomUUID faults now store (authUid user) channelId times
  end.

Definition reorderRoute (faults : StoreFaults) (store : Store)
    (authorization : option string) (orderedIds : option (list JsonValue))
    : Response * Store :=
  match authRequired jwtDecode authorization with
  | inl response => (response, store)
  | inr user => reorder faults store (authUid user) orderedIds
  end.

Definition getScheduleRoute (faults : StoreFaults) (store : Store)
    (authorization : option string) : Response :=
  match authRequired jwtDecode authorization with
  | inl response => response
  | inr user => getSchedule faults store (authUid user)
  end.

End Router.

(** The classifier's view of a stored channel ([{ id, ...data }]). *)
Definition toChannel (doc : string * ChannelData) : Channel :=
  {| id := doc.1; autoSendEnabled := dataAutoSendEnabled doc.2;
     autoSendSchedules := dataAutoSendSchedules doc.2 |}.

(** Sample data: white space as far as ASCII goes, a decoder that reads
    the token as the user id, numbered identifiers, and a store with
    one user and two channels. *)
Definition asciiBlank (s : string) : bool :=
  forallb (fun c => bool_decide (c ∈ [" "; "009"; "010"; "011"; "012"; "013"]%char))
    (list_ascii_of_string s).

Definition tokenIsUid (token : string) : DecodeResult :=
  Decoded {| user_id := Some token; uid := None; email := None |}.

Definition numberedUUID (n : nat) : string := "uuid-" ++ String (ascii_of_nat (48 + n)) "".

Definition noFaults : StoreFaults :=
  {| firestoreAvailable := true; readFault := None; writeFault := None |}.

Definition sampleData (i : option Z) (times : list string) : ChannelData :=
  {| name := Some "channel"; dataAutoSendEnabled := Some true;
     dataAutoSendSchedules := Some (slotAt <$> times);
     orderIndex := i; updatedAt := None |}.

Definition sampleStore : Store :=
  {[ "u1"%string := [("a"%string, sampleData None ["08:00"; "20:00"]);
                      ("b"%string, sampleData None ["07:00"])] ]}.

(** A [times] body with a repeated time, a blank string and a value
    that is not a string. *)
Definition sampleTimes : list JsonValue :=
  [JString "20:00"; JOther; JString " "; JString "08:00"; JString "20:00"].

End Routes.


(** ** Vocabulary of the route properties *)

Module RoutesSpec.

Import Routes.

(** The entries of a [times] body the validation loop does not skip:
    the strings that are not blank, in order. *)
Fixpoint keptTimes (trimIsEmpty : string -> bool) (times : list JsonValue) : list string :=
  match times with
  | [] => []
  | JString t :: rest =>
      if trimIsEmpty t then keptTimes trimIsEmpty rest
      else t :: keptTimes trimIsEmpty rest
  | JOther :: rest => keptTimes trimIsEmpty rest
  end.

(** The order key of the document with the given id: its [orderIndex],
    or failing that its 1-based position in the snapshot. *)
Definition docKey (docs : list (string * ChannelData)) (i : string) : Z :=
  match list_find (fun d => d.1 = i) docs with
  | Some (pos, d) =>
      match orderIndex d.2 with
      | Some o => o
      | None => Z.of_nat pos + 1
      end
  | None => 0
  end.

(** Two documents agree on everything but [orderIndex]. *)
Definition sameButOrder (a b : ChannelData) : Prop :=
  name a = name b /\ dataAutoSendEnabled a = dataAutoSendEnabled b /\
  dataAutoSendSchedules a = dataAutoSendSchedules b /\ updatedAt a = updatedAt b.

End RoutesSpec.

(** * The Firestore converter of channels ([domain/channel.ts]) *)

Module Converter.

(** The values a field of a channel holds: [null], a boolean, a number,
    a string, the array of schedules, a [Timestamp], or the sentinel
    that [serverTimestamp()] returns. *)
Inductive Value : Type :=
  | VNull
  | VBool (b : bool)
  | VNumber (n : number)
  | VString (s : string)
  | VSchedules (l : list ChannelAutoSendSchedule)
  | VTimestamp (t : Z)
  | VServerTimestamp.

(** A channel object or a document, as its own properties. Reading a
    property the object lacks gives [undefined], so a lookup miss
    stands for [undefined]: a property set to [undefined] is not told
    apart from a missing one (the converter only reads properties, and
    a Firestore document holds no [undefined]). *)
Abbreviation Obj := (gmap string Value).

(** Truthiness of a property read. Arrays and objects are truthy. *)
Definition truthyValue (v : option Value) : bool :=
  match v with
  | None => false
  | Some VNull => false
  | Some (VBool b) => b
  | Some (VNumber NaN) => false
  | Some (VNumber (Num z)) => negb (z =? 0)
  | Some (VString s) => truthy s
  | Some (VSchedules _) => true
  | Some (VTimestamp _) => true
  | Some VServerTimestamp => true
  end.

(** [v || d]. *)
Definition orValue (v : option Value) (d : Value) : Value :=
  match v with
  | Some x => if truthyValue v then x else d
  | None => d
  end.

(** [v ?? d]: only [undefined] and [null] give way to [d]. *)
Definition nullish (v : option Value) (d : Value) : Value :=
  match v with
  | None => d
  | Some VNull => d
  | Some x => x
  end.

(** The fields the object literal of [toFirestore] copies as they
    are. *)
Definition requiredKeys : list string :=
  ["name"; "platform"; "language"; "targetDurationSec"; "niche"; "audience";
   "tone"; "blockedTopics"].

(** The fields guarded by [if (rest.k !== undefined)], in the order of
    the source. *)
Definition optionalKeys : list string :=
  ["timezone"; "extraNotes"; "googleDriveFolderId"; "youtubeUrl"; "tiktokUrl";
   "instagramUrl"; "telegramAutoSendEnabled"; "telegramAutoScheduleEnabled";
   "autoDownloadToDriveEnabled"; "autoDownloadDelayMinutes";
   "uploadNotificationEnabled"; "uploadNotificationChatId"; "orderIndex"].

(** [data.k = rest.k], which leaves [data.k] undefined when [rest.k]
    is. *)
Definition copyKey (rest data : Obj) (k : string) : Obj :=
  match rest !! k with
  | Some v => <[k := v]> data
  | None => data
  end.

(** [channelConverter.toFirestore(channel)]. *)
Definition toFirestore (channel : Obj) : Obj :=
  let rest := delete "id" channel in
  let data :=
    <["updatedAt" := VServerTimestamp]>
      (<["createdAt" := nullish (rest !! "createdAt") VServerTimestamp]>
      (<["autoSendSchedules" := nullish (rest !! "autoSendSchedules") (VSchedules [])]>
      (<["autoSendEnabled" := nullish (rest !! "autoSendEnabled") (VBool false)]>
      (<["generationMode" := orValue (rest !! "generationMode") (VString "script")]>
      (foldl (copyKey rest) ∅ requiredKeys))))) in
  foldl (copyKey rest) data optionalKeys.

(** [channelConverter.fromFirestore(snapshot)], with [snapshot.id] and
    [snapshot.data()] as arguments: [{ id, generationMode, ...data }],
    where the properties of [data] are spread last and so win. *)
Definition fromFirestore (snapshotId : string) (data : Obj) : Obj :=
  data ∪ <["generationMode" := orValue (data !! "generationMode") (VString "script")]>
           (<["id" := VString snapshotId]> ∅).

(** Every field a document written by [toFirestore] can have. *)
Definition documentKeys : list string :=
  requiredKeys ++
  ["generationMode"; "autoSendEnabled"; "autoSendSchedules"; "createdAt"; "updatedAt"] ++
  optionalKeys.

(** What the store holds after a write of [data] at time [writeTime]:
    Firestore replaces every [serverTimestamp()] sentinel by the time
    of the write and stores the other values as they are. *)
Definition resolved (writeTime : Z) (v : Value) : Value :=
  match v with
  | VServerTimestamp => VTimestamp writeTime
  | _ => v
  end.

Definition written (writeTime : Z) (data : Obj) : Obj := resolved writeTime <$> data.

(** *** The channel as the classifier reads it *)

(** [autoSendEnabled?: boolean] read off an object ([null] is as falsy
    as [undefined]); no result for a value of another type. *)
Definition asFlag (v : option Value) : option (option bool) :=
  match v with
  | None => Some None
  | Some VNull => Some None
  | Some (VBool b) => Some (Some b)
  | Some _ => None
  end.

(** [autoSendSchedules?: ChannelAutoSendSchedule[]] read off an
    object. *)
Definition asSchedules (v : option Value)
    : option (option (list ChannelAutoSendSchedule)) :=
  match v with
  | None => Some None
  | Some VNull => Some None
  | Some (VSchedules l) => Some (Some l)
  | Some _ => None
  end.

(** The three fields of [Channel] that the classifier reads, for an
    object that has them at their declared types. *)
Definition channelView (o : Obj) : option Channel :=
  match o !! "id", asFlag (o !! "autoSendEnabled"),
        asSchedules (o !! "autoSendSchedules") with
  | Some (VString i), Some flag, Some schedules =>
      Some {| id := i; autoSendEnabled := flag; autoSendSchedules := schedules |}
  | _, _, _ => None
  end.

(** What the defaults of [toFirestore] ([?? false], [?? []]) make of
    the fields the classifier reads. *)
Definition stored (ch : Channel) : Channel :=
  {| id := id ch;
     autoSendEnabled :=
       Some (match autoSendEnabled ch with Some b => b | None => false end);
     autoSendSchedules :=
       Some (match autoSendSchedules ch with Some l => l | None => [] end) |}.

(** A channel as the wizard leaves it, with one evening slot, and a
    legacy document without the fields added later. *)
Definition sampleChannel : Obj :=
  list_to_map
    [("id", VString "c1"); ("name", VString "News"); ("platform", VString "TIKTOK");
     ("language", VString "en"); ("targetDurationSec", VNumber (Num 15));
     ("niche", VString "tech"); ("audience", VString "all"); ("tone", VString "calm");
     ("blockedTopics", VString ""); ("youtubeUrl", VNull);
     ("autoSendEnabled", VBool true);
     ("autoSendSchedules", VSchedules [slotAt "20:00"]);
     ("createdAt", VTimestamp 1700000000); ("updatedAt", VTimestamp 1700000500)].

End Converter.


(** * The channel wizard ([pages/ChannelWizard/ChannelWizardPage.tsx]) *)

Module Wizard.

(** [STEPS.length]. *)
Definition STEPS_length : Z := 10.

(** The [value]s of [PLATFORMS] and of [LANGUAGES], [DURATIONS],
    [TONES], and the modes of the three buttons of step 9, each in the
    order the buttons are rendered. *)
Definition PLATFORMS : list string :=
  ["YOUTUBE_SHORTS"; "TIKTOK"; "INSTAGRAM_REELS"; "VK_CLIPS"].

Definition LANGUAGES : list string := ["ru"; "en"; "kk"].

Definition DURATIONS : list Z := [8; 15; 30; 60].

Definition TONES : list string :=
  ["Юмор"; "Серьёзно"; "Дерзко"; "Детское"; "Образовательное"; "Вдохновляющее";
   "Развлекательное"; "Профессиональное"].

Definition MODES : list string := ["script"; "prompt"; "video-prompt-only"].

(** The [formData] state: the fields of [ChannelCreatePayload] the
    wizard sets. The three urls start as [null] and no control changes
    them. *)
Record FormData : Type := {
  name : string;
  platform : string;
  language : string;
  targetDurationSec : Z;
  niche : string;
  audience : string;
  tone : string;
  blockedTopics : string;
  extraNotes : string;
  generationMode : string;
  youtubeUrl : option string;
  tiktokUrl : option string;
  instagramUrl : option string
}.

(** The state of the component: [currentStep], [loading], [error] and
    [formData]. *)
Record State : Type := {
  currentStep : Z;
  loading : bool;
  error : option string;
  formData : FormData
}.

(** The initial [formData], from [createEmptyChannel()]. *)
Definition emptyForm : FormData :=
  {| name := ""; platform := "YOUTUBE_SHORTS"; language := "ru";
     targetDurationSec := 15; niche := ""; audience := ""; tone := "";
     blockedTopics := ""; extraNotes := ""; generationMode := "script";
     youtubeUrl := None; tiktokUrl := None; instagramUrl := None |}.

Definition initialState : State :=
  {| currentStep := 1; loading := false; error := None; formData := emptyForm |}.

(** [{ ...formData, field: value }], one definition per field a control
    sets. *)
Definition withName (d : FormData) (v : string) : FormData :=
  {| name := v; platform := platform d; language := language d;
     targetDurationSec := targetDurationSec d; niche := niche d;
     audience := audience d; tone := tone d; blockedTopics := blockedTopics d;
     extraNotes := extraNotes d; generationMode := generationMode d;
     youtubeUrl := youtubeUrl d; tiktokUrl := tiktokUrl d;
     instagramUrl := instagramUrl d |}.

Definition withPlatform (d : FormData) (v : string) : FormData :=
  {| name := name d; platform := v; language := language d;
     targetDurationSec := targetDurationSec d; niche := niche d;
     audience := audience d; tone := tone d; blockedTopics := blockedTopics d;
     extraNotes := extraNotes d; generationMode := generationMode d;
     youtubeUrl := youtubeUrl d; tiktokUrl := tiktokUrl d;
     instagramUrl := instagramUrl d |}.

Definition withLanguage (d : FormData) (v : string) : FormData :=
  {| name := name d; platform := platform d; language := v;
     targetDurationSec := targetDurationSec d; niche := niche d;
     audience := audience d; tone := tone d; blockedTopics := blockedTopics d;
     extraNotes := extraNotes d; generationMode := generationMode d;
     youtubeUrl := youtubeUrl d; tiktokUrl := tiktokUrl d;
     instagramUrl := instagramUrl d |}.

Definition withDuration (d : FormData) (v : Z) : FormData :=
  {| name := name d; platform := platform d; language := language d;
     targetDurationSec := v; niche := niche d;
     audience := audience d; tone := tone d; blockedTopics := blockedTopics d;
     extraNotes := extraNotes d; generationMode := generationMode d;
     youtubeUrl := youtubeUrl d; tiktokUrl := tiktokUrl d;
     instagramUrl := instagramUrl d |}.

Definition withNiche (d : FormData) (v : string) : FormData :=
  {| name := name d; platform := platform d; language := language d;
     targetDurationSec := targetDurationSec d; niche := v;
     audience := audience d; tone := tone d; blockedTopics := blockedTopics d;
     extraNotes := extraNotes d; generationMode := generationMode d;
     youtubeUrl := youtubeUrl d; tiktokUrl := tiktokUrl d;
     instagramUrl := instagramUrl d |}.

Definition withAudience (d : FormData) (v : string) : FormData :=
  {| name := name d; platform := platform d; language := language d;
     targetDurationSec := targetDurationSec d; niche := niche d;
     audience := v; tone := tone d; blockedTopics := blockedTopics d;
     extraNotes := extraNotes d; generationMode := generationMode d;
     youtubeUrl := youtubeUrl d; tiktokUrl := tiktokUrl d;
     instagramUrl := instagramUrl d |}.

Definition withTone (d : FormData) (v : string) : FormData :=
  {| name := name d; platform := platform d; language := language d;
     targetDurationSec := targetDurationSec d; niche := niche d;
     audience := audience d; tone := v; blockedTopics := blockedTopics d;
     extraNotes := extraNotes d; generationMode := generationMode d;
     youtubeUrl := youtubeUrl d; tiktokUrl := tiktokUrl d;
     instagramUrl := instagramUrl d |}.

Definition withBlockedTopics (d : FormData) (v : string) : FormData :=
  {| name := name d; platform := platform d; language := language d;
     targetDurationSec := targetDurationSec d; niche := niche d;
     audience := audience d; tone := tone d; blockedTopics := v;
     extraNotes := extraNotes d; generationMode := generationMode d;
     youtubeUrl := youtubeUrl d; tiktokUrl := tiktokUrl d;
     instagramUrl := instagramUrl d |}.

Definition withExtraNotes (d : FormData) (v : string) : FormData :=
  {| name := name d; platform := platform d; language := language d;
     targetDurationSec := targetDurationSec d; niche := niche d;
     audience := audience d; tone := tone d; blockedTopics := blockedTopics d;
     extraNotes := v; generationMode := generationMode d;
     youtubeUrl := youtubeUrl d; tiktokUrl := tiktokUrl d;
     instagramUrl := instagramUrl d |}.

Definition withGenerationMode (d : FormData) (v : string) : FormData :=
  {| name := name d; platform := platform d; language := language d;
     targetDurationSec := targetDurationSec d; niche := niche d;
     audience := audience d; tone := tone d; blockedTopics := blockedTopics d;
     extraNotes := extraNotes d; generationMode := v;
     youtubeUrl := youtubeUrl d; tiktokUrl := tiktokUrl d;
     instagramUrl := instagramUrl d |}.

(** [setFormData(d)]. *)
Definition setFormData (s : State) (d : FormData) : State :=
  {| currentStep := currentStep s; loading := loading s; error := error s;
     formData := d |}.

(** [setCurrentStep(n); setError(null)]. *)
Definition goToStep (s : State) (n : Z) : State :=
  {| currentStep := n; loading := loading s; error := None;
     formData := formData s |}.

(** What can happen to the component: the user types into the text
    field of the step, clicks the [n]-th of its option buttons, presses
    "next" or "back", or submits the form as the user [user] ([None]
    when nobody is signed in, else the uid); or a pending
    [createChannel] rejects with a message. (When it resolves the page
    navigates away.) *)
Inductive Action : Type :=
  | Input (text : string)
  | Click (n : nat)
  | Next
  | Back
  | Submit (user : option string)
  | Rejected (message : string).

Section Component.

(** [String.prototype.trim]. *)
Variable trim : string -> string.

(** [field.trim().length > 0]. *)
Definition filled (field : string) : bool := (0 <? String.length (trim field))%nat.

(** [canGoNext()]. *)
Definition canGoNext (s : State) : bool :=
  match currentStep s with
  | 1 => filled (name (formData s))
  | 2 => true
  | 3 => true
  | 4 => true
  | 5 => filled (niche (formData s))
  | 6 => filled (audience (formData s))
  | 7 => filled (tone (formData s))
  | 8 => true
  | 9 => true
  | 10 => true
  | _ => false
  end.

(** [handleNext()]. *)
Definition handleNext (s : State) : State :=
  if canGoNext s && (currentStep s <? STEPS_length)
  then goToStep s (currentStep s + 1)
  else s.

(** [handleBack()]. *)
Definition handleBack (s : State) : State :=
  if currentStep s >? 1 then goToStep s (currentStep s - 1) else s.

(** The [onChange] handler of the text field that [renderStepContent]
    shows on the current step (steps 1, 5, 6, 8 and 10). *)
Definition onChange (s : State) (text : string) : State :=
  match currentStep s with
  | 1 => setFormData s (withName (formData s) text)
  | 5 => setFormData s (withNiche (formData s) text)
  | 6 => setFormData s (withAudience (formData s) text)
  | 8 => setFormData s (withBlockedTopics (formData s) text)
  | 10 => setFormData s (withExtraNotes (formData s) text)
  | _ => s
  end.

(** The [onClick] handler of the [n]-th option button that
    [renderStepContent] shows on the current step (steps 2, 3, 4, 7
    and 9). *)
Definition onClick (s : State) (n : nat) : State :=
  match currentStep s with
  | 2 => match PLATFORMS !! n with
         | Some v => setFormData s (withPlatform (formData s) v)
         | None => s
         end
  | 3 => match LANGUAGES !! n with
         | Some v => setFormData s (withLanguage (formData s) v)
         | None => s
         end
  | 4 => match DURATIONS !! n with
         | Some v => setFormData s (withDuration (formData s) v)
         | None => s
         end
  | 7 => match TONES !! n with
         | Some v => setFormData s (withTone (formData s) v)
         | None => s
         end
  | 9 => match MODES !! n with
         | Some v => setFormData s (withGenerationMode (formData s) v)
         | None => s
         end
  | _ => s
  end.

(** [handleSubmit] up to the call of [createChannel]: the state it
    leaves and, when it makes the call, the arguments
    [(user.uid, formData)]. [!user?.uid] holds without a user and for
    an empty uid. *)
Definition handleSubmit (user : option string) (s : State)
    : State * option (string * FormData) :=
  match user with
  | Some uid =>
      if truthy uid then
        if canGoNext s then
          ({| currentStep := currentStep s; loading := true; error := None;
              formData := formData s |},
           Some (uid, formData s))
        else
          ({| currentStep := currentStep s; loading := loading s;
              error := Some "Заполните все обязательные поля";
              formData := formData s |}, None)
      else
        ({| currentStep := currentStep s; loading := loading s;
            error := Some "Пользователь не авторизован";
            formData := formData s |}, None)
  | None =>
      ({| currentStep := currentStep s; loading := loading s;
          error := Some "Пользователь не авторизован";
          formData := formData s |}, None)
  end.

(** The [catch] branch of [handleSubmit], run when [createChannel]
    rejects: the message is shown and [loading] is reset. *)
Definition handleRejection (message : string) (s : State) : State :=
  {| currentStep := currentStep s; loading := false; error := Some message;
     formData := formData s |}.

(** One action. *)
Definition act (s : State) (a : Action) : State :=
  match a with
  | Input text => onChange s text
  | Click n => onClick s n
  | Next => handleNext s
  | Back => handleBack s
  | Submit user => (handleSubmit user s).1
  | Rejected message => handleRejection message s
  end.

(** The state after a sequence of actions on a fresh wizard. *)
Definition run (actions : list Action) : State := foldl act initialState actions.

End Component.

(** A [trim] that removes leading and trailing spaces. *)
Fixpoint trimStart (s : string) : string :=
  match s with
  | String " " rest => trimStart rest
  | _ => s
  end.

Fixpoint trimEnd (s : string) : string :=
  match s with
  | EmptyString => EmptyString
  | String c rest =>
      match trimEnd rest with
      | EmptyString => if Ascii.eqb c " " then EmptyString else String c EmptyString
      | kept => String c kept
      end
  end.

Definition trimSpaces (s : string) : string := trimEnd (trimStart s).

(** A full pass through the ten steps. *)
Definition samplePass : list Action :=
  [Input "News"; Next; Click 1; Next; Next; Click 2; Next; Input "tech"; Next;
   Input "everyone"; Next; Click 0; Next; Next; Next].

End Wizard.


(** Statements about the wizard. *)
Module WizardSpec.
Import Wizard.

Section Invariant.

Variable trim : string -> string.

(** What holds of the form on step [n]: the choices are among the
    options offered, and the required text of every earlier step is
    filled in. *)
Definition good (n : Z) (d : FormData) : Prop :=
  1 <= n <= STEPS_length /\
  platform d ∈ PLATFORMS /\
  language d ∈ LANGUAGES /\
  targetDurationSec d ∈ DURATIONS /\
  generationMode d ∈ MODES /\
  (tone d = "" \/ tone d ∈ TONES) /\
  (youtubeUrl d = None /\ tiktokUrl d = None /\ instagramUrl d = None) /\
  (1 < n -> filled trim (name d) = true) /\
  (5 < n -> filled trim (niche d) = true) /\
  (6 < n -> filled trim (audience d) = true) /\
  (7 < n -> filled trim (tone d) = true).

Definition invariant (s : State) : Prop := good (currentStep s) (formData s).

End Invariant.

End WizardSpec.



(** * Properties *)

(** ** Well-formed times: string order is time order *)

Lemma digitValue_range c x : digitValue c = Some x -> 0 <= x <= 9.
Proof.
  unfold digitValue. intros H.
  destruct ((48 <=? Z.of_N (N_of_ascii c)) && (Z.of_N (N_of_ascii c) <=? 57)) eqn:E;
    [|discriminate].
  apply andb_true_iff in E as [E1 E2]. inversion H; subst. lia.
Qed.

Lemma digitValue_compare a b x y :
  digitValue a = Some x -> digitValue b = Some y ->
  Ascii.compare a b = (x ?= y).
Proof.
  unfold digitValue, Ascii.compare. intros Ha Hb.
  destruct ((48 <=? Z.of_N (N_of_ascii a)) && (Z.of_N (N_of_ascii a) <=? 57));
    [|discriminate].
  destruct ((48 <=? Z.of_N (N_of_ascii b)) && (Z.of_N (N_of_ascii b) <=? 57));
    [|discriminate].
  inversion Ha; inversion Hb; subst.
  rewrite <- N2Z.inj_compare.
  destruct (Z.compare_spec (Z.of_N (N_of_ascii a)) (Z.of_N (N_of_ascii b)));
    symmetry; [apply Z.compare_eq_iff | apply Z.compare_lt_iff | apply Z.compare_gt_iff]; lia.
Qed.

(** The shape of a well-formed time: four digits around a colon. *)
Lemma wellFormedTime_inv s :
  wellFormedTime s = true ->
  exists a b c d a' b' c' d',
    s = String a (String b (String ":"%char (String c (String d EmptyString)))) /\
    digitValue a = Some a' /\ digitValue b = Some b' /\
    digitValue c = Some c' /\ digitValue d = Some d' /\
    10 * a' + b' <= 23 /\ 10 * c' + d' <= 59 /\
    timeValue s = (10 * a' + b') * 60 + (10 * c' + d').
Proof.
  unfold wellFormedTime, timeValue, parseHHMM. intros H.
  destruct s as [|a [|b [|sep [|c [|d [|? ?]]]]]]; try discriminate.
  destruct (Ascii.eqb_spec sep ":"%char) as [->|]; [|discriminate].
  destruct (digitValue a) as [a'|] eqn:Ea; [|discriminate].
  destruct (digitValue b) as [b'|] eqn:Eb; [|discriminate].
  destruct (digitValue c) as [c'|] eqn:Ec; [|discriminate].
  destruct (digitValue d) as [d'|] eqn:Ed; [|discriminate].
  apply andb_true_iff in H as [H1 H2].
  exists a, b, c, d, a', b', c', d'. repeat split; auto; lia.
Qed.

Lemma wellFormedTime_range s :
  wellFormedTime s = true -> 0 <= timeValue s < 1440.
Proof.
  intros H. destruct (wellFormedTime_inv s H)
    as (a & b & c & d & a' & b' & c' & d' & -> & Ha & Hb & Hc & Hd & Hh & Hm & ->).
  apply digitValue_range in Ha, Hb, Hc, Hd. lia.
Qed.

Lemma wellFormedTime_truthy s : wellFormedTime s = true -> truthy s = true.
Proof.
  intros H. destruct (wellFormedTime_inv s H) as (a & b & c & d & ? & ? & ? & ? & -> & _).
  reflexivity.
Qed.

(** On well-formed times the code-unit order of [sort] is the order of
    the minute values. *)
Lemma wellFormedTime_le s1 s2 :
  wellFormedTime s1 = true -> wellFormedTime s2 = true ->
  (String.le s1 s2 <-> timeValue s1 <= timeValue s2).
Proof.
  intros H1 H2.
  destruct (wellFormedTime_inv s1 H1)
    as (a1 & b1 & c1 & d1 & x1 & y1 & z1 & w1 & -> & Ha1 & Hb1 & Hc1 & Hd1 & _ & Hm1 & ->).
  destruct (wellFormedTime_inv s2 H2)
    as (a2 & b2 & c2 & d2 & x2 & y2 & z2 & w2 & -> & Ha2 & Hb2 & Hc2 & Hd2 & _ & Hm2 & ->).
  unfold String.le, String.leb. cbn [String.compare].
  rewrite (digitValue_compare _ _ _ _ Ha1 Ha2), (digitValue_compare _ _ _ _ Hb1 Hb2),
    (digitValue_compare _ _ _ _ Hc1 Hc2), (digitValue_compare _ _ _ _ Hd1 Hd2).
  change (Ascii.compare ":" ":") with Eq.
  apply digitValue_range in Ha1, Hb1, Hc1, Hd1, Ha2, Hb2, Hc2, Hd2.
  destruct (Z.compare_spec x1 x2); [|simpl; split; [lia|done]|simpl; split; [done|lia]].
  destruct (Z.compare_spec y1 y2); [|simpl; split; [lia|done]|simpl; split; [done|lia]].
  destruct (Z.compare_spec z1 z2); [|simpl; split; [lia|done]|simpl; split; [done|lia]].
  destruct (Z.compare_spec w1 w2); simpl; split; try done; lia.
Qed.

(** Equal minute values name the same well-formed string. *)
Lemma wellFormedTime_inj s1 s2 :
  wellFormedTime s1 = true -> wellFormedTime s2 = true ->
  timeValue s1 = timeValue s2 -> s1 = s2.
Proof.
  intros H1 H2 E.
  apply (anti_symm String.le); apply wellFormedTime_le; auto; lia.
Qed.

Lemma hhmmToMinutesModel_wf s :
  wellFormedTime s = true -> hhmmToMinutesModel s = Num (timeValue s).
Proof. unfold hhmmToMinutesModel. intros ->. reflexivity. Qed.

Lemma elem_of_enabledTimes l t :
  t ∈ enabledTimes l <->
  exists s, s ∈ l /\ enabled s = true /\ truthy (time s) = true /\ time s = t.
Proof.
  unfold enabledTimes, sort. rewrite merge_sort_Permutation, list_elem_of_fmap.
  split.
  - intros (s & -> & Hs). apply list_elem_of_filter in Hs as [Hp Hs].
    apply Is_true_true, andb_true_iff in Hp as [He Ht]. eauto.
  - intros (s & Hs & He & Ht & <-). exists s. split; [done|].
    apply list_elem_of_filter. split; [|done].
    apply Is_true_true, andb_true_iff. done.
Qed.

Lemma enabledTimes_sorted l : StronglySorted String.le (enabledTimes l).
Proof. apply StronglySorted_merge_sort; apply _. Qed.

Lemma wellFormedSchedules_elem l s :
  wellFormedSchedules l = true -> s ∈ l -> enabled s = true ->
  wellFormedTime (time s) = true.
Proof.
  unfold wellFormedSchedules. rewrite forallb_forall. intros H Hs He.
  apply list_elem_of_In in Hs. specialize (H s Hs). rewrite He in H. exact H.
Qed.

Lemma enabledTimes_wf l t :
  wellFormedSchedules l = true -> t ∈ enabledTimes l -> wellFormedTime t = true.
Proof.
  intros Hwf Ht. apply elem_of_enabledTimes in Ht as (s & Hs & He & _ & <-).
  eauto using wellFormedSchedules_elem.
Qed.

Lemma elem_of_enabledTimes_wf l t :
  wellFormedSchedules l = true ->
  (t ∈ enabledTimes l <-> exists s, s ∈ l /\ enabled s = true /\ time s = t).
Proof.
  intros Hwf. rewrite elem_of_enabledTimes. split.
  - intros (s & ? & ? & ? & ?). eauto.
  - intros (s & Hs & He & <-). exists s. repeat split; auto.
    eauto using wellFormedTime_truthy, wellFormedSchedules_elem.
Qed.

Lemma wellFormedFleet_elem channels ch :
  wellFormedFleet channels = true -> ch ∈ channels -> wellFormedChannel ch = true.
Proof.
  unfold wellFormedFleet. rewrite forallb_forall. intros H Hc.
  apply H, list_elem_of_In, Hc.
Qed.

Lemma enabledSlot_iff ch l t :
  autoSendSchedules ch = Some l -> wellFormedChannel ch = true ->
  (enabledSlot ch t <-> t ∈ enabledTimes l).
Proof.
  intros Hl Hwf. unfold wellFormedChannel in Hwf. rewrite Hl in Hwf.
  rewrite (elem_of_enabledTimes_wf _ _ Hwf). unfold enabledSlot. split.
  - intros (l' & s & Hl' & Hs & He & Ht). rewrite Hl in Hl'. inversion Hl'; subst. eauto.
  - intros (s & Hs & He & Ht). eauto 10.
Qed.

Lemma enabledSlot_wf ch t :
  wellFormedChannel ch = true -> enabledSlot ch t -> wellFormedTime t = true.
Proof.
  intros Hwf (l & s & Hl & Hs & He & <-). unfold wellFormedChannel in Hwf.
  rewrite Hl in Hwf. eauto using wellFormedSchedules_elem.
Qed.

(** ** The two search loops of [getChannelState] *)

Section Loops.

Variable hhmmToMinutes : string -> number.

(** On well-formed times the parser returns the minute of the day. *)
Hypothesis hhmm_wf :
  forall s, wellFormedTime s = true -> hhmmToMinutes s = Num (timeValue s).

Lemma findActive_elem times now w t :
  findActive hhmmToMinutes times now w = Some t -> t ∈ times.
Proof.
  induction times as [|x rest IH]; simpl; [discriminate|].
  destruct (hhmmToMinutes x) as [|m].
  - intros H. right. auto.
  - destruct (isActive m w now).
    + intros [= ->]. left.
    + intros H. right. auto.
Qed.

Lemma findUpcoming_elem times now t :
  findUpcoming hhmmToMinutes times now = Some t -> t ∈ times.
Proof.
  induction times as [|x rest IH]; simpl; [discriminate|].
  destruct (hhmmToMinutes x) as [|m].
  - intros H. right. auto.
  - destruct (m >? now).
    + intros [= ->]. left.
    + intros H. right. auto.
Qed.

(** On a sorted array of well-formed times the first loop finds the
    earliest active slot. *)
Lemma findActive_Some times now w t :
  StronglySorted String.le times ->
  (forall x, x ∈ times -> wellFormedTime x = true) ->
  findActive hhmmToMinutes times now w = Some t ->
  t ∈ times /\ isActive (timeValue t) w now = true /\
  forall x, x ∈ times -> isActive (timeValue x) w now = true ->
            timeValue t <= timeValue x.
Proof.
  intros Hs Hwf. induction Hs as [|x rest Hs IH Hall]; simpl; [discriminate|].
  rewrite (hhmm_wf x) by (apply Hwf; left).
  destruct (isActive (timeValue x) w now) eqn:Hx.
  - intros [= <-]. split; [left|]. split; [done|].
    intros y Hy _. apply elem_of_cons in Hy as [->|Hy]; [lia|].
    rewrite Forall_forall in Hall.
    apply wellFormedTime_le; [apply Hwf; left | apply Hwf; by right | auto].
  - intros H. destruct IH as (Ht & Ha & Hmin); [intros; apply Hwf; by right | done |].
    split; [by right|]. split; [done|].
    intros y Hy Hact. apply elem_of_cons in Hy as [->|Hy]; [congruence | auto].
Qed.

Lemma findActive_None times now w :
  (forall x, x ∈ times -> wellFormedTime x = true) ->
  (findActive hhmmToMinutes times now w = None <->
   forall x, x ∈ times -> isActive (timeValue x) w now = false).
Proof.
  intros Hwf. induction times as [|x rest IH]; simpl.
  - split; [|done]. intros _ y Hy. by apply elem_of_nil in Hy.
  - rewrite (hhmm_wf x) by (apply Hwf; left).
    destruct (isActive (timeValue x) w now) eqn:Hx.
    + split; [discriminate|]. intros H. specialize (H x). rewrite Hx in H.
      discriminate H. left.
    + rewrite IH by (intros; apply Hwf; by right). split.
      * intros H y Hy. apply elem_of_cons in Hy as [->|Hy]; auto.
      * intros H y Hy. apply H. by right.
Qed.

(** On a sorted array of well-formed times the second loop finds the
    earliest slot strictly after [now]. *)
Lemma findUpcoming_Some times now t :
  StronglySorted String.le times ->
  (forall x, x ∈ times -> wellFormedTime x = true) ->
  findUpcoming hhmmToMinutes times now = Some t ->
  t ∈ times /\ now < timeValue t /\
  forall x, x ∈ times -> now < timeValue x -> timeValue t <= timeValue x.
Proof.
  intros Hs Hwf. induction Hs as [|x rest Hs IH Hall]; simpl; [discriminate|].
  rewrite (hhmm_wf x) by (apply Hwf; left).
  destruct (timeValue x >? now) eqn:Hx.
  - intros [= <-]. split; [left|]. split; [lia|].
    intros y Hy _. apply elem_of_cons in Hy as [->|Hy]; [lia|].
    rewrite Forall_forall in Hall.
    apply wellFormedTime_le; [apply Hwf; left | apply Hwf; by right | auto].
  - intros H. destruct IH as (Ht & Ha & Hmin); [intros; apply Hwf; by right | done |].
    split; [by right|]. split; [done|].
    intros y Hy Hact. apply elem_of_cons in Hy as [->|Hy]; [lia | auto].
Qed.

Lemma findUpcoming_None times now :
  (forall x, x ∈ times -> wellFormedTime x = true) ->
  (findUpcoming hhmmToMinutes times now = None <->
   forall x, x ∈ times -> timeValue x <= now).
Proof.
  intros Hwf. induction times as [|x rest IH]; simpl.
  - split; [|done]. intros _ y Hy. by apply elem_of_nil in Hy.
  - rewrite (hhmm_wf x) by (apply Hwf; left).
    destruct (timeValue x >? now) eqn:Hx.
    + split; [discriminate|]. intros H. specialize (H x). 
      assert (timeValue x <= now) by (apply H; left). lia.
    + rewrite IH by (intros; apply Hwf; by right). split.
      * intros H y Hy. apply elem_of_cons in Hy as [->|Hy]; [lia|auto].
      * intros H y Hy. apply H. by right.
Qed.

End Loops.

(** ** Per-channel classification *)

Lemma isActive_nowrap T W now :
  T + W < 1440 -> (isActive T W now = true <-> T <= now < T + W).
Proof.
  intros H. unfold isActive. cbv zeta.
  destruct (Z.ltb_spec (T + W) 1440); [|lia].
  rewrite andb_true_iff, Z.leb_le, Z.ltb_lt. reflexivity.
Qed.

Lemma isActive_wrap T W now :
  T + W >= 1440 ->
  (isActive T W now = true <-> now >= T \/ now < (T + W) mod 1440).
Proof.
  intros H. unfold isActive. cbv zeta.
  destruct (Z.ltb_spec (T + W) 1440); [lia|].
  rewrite Z.rem_mod_nonneg by lia.
  rewrite orb_true_iff, Z.geb_le, Z.ltb_lt. lia.
Qed.

Lemma validInterval_range x : 1 <= validInterval x <= 60.
Proof. unfold validInterval. lia. Qed.


Section PerChannel.

Variable hhmmToMinutes : string -> number.

Hypothesis hhmm_wf :
  forall s, wellFormedTime s = true -> hhmmToMinutes s = Num (timeValue s).

(** [getChannelState] on a channel that passes the guards. *)
Lemma getChannelState_eligible ch l now w :
  automationOn ch -> autoSendSchedules ch = Some l ->
  getChannelState hhmmToMinutes ch now w =
    match enabledTimes l with
    | [] => (default, None)
    | first :: _ =>
        match findActive hhmmToMinutes (enabledTimes l) now (validInterval w) with
        | Some t => (current, Some t)
        | None =>
            match findUpcoming hhmmToMinutes (enabledTimes l) now with
            | Some t => (next, Some t)
            | None => (next, Some first)
            end
        end
    end.
Proof.
  unfold automationOn, getChannelState. intros -> ->. simpl.
  destruct l as [|s l]; [reflexivity|]. reflexivity.
Qed.

(** A channel that fails the guards is [default]. *)
Lemma getChannelState_off ch now w :
  ~ automationOn ch -> getChannelState hhmmToMinutes ch now w = (default, None).
Proof.
  unfold automationOn, getChannelState. intros H.
  destruct (autoSendSchedules ch); [|reflexivity].
  destruct (truthyFlag (autoSendEnabled ch)); [congruence | reflexivity].
Qed.

(** The slot a result names is one of the channel's enabled slots. *)
Lemma getChannelState_slot ch now w st t :
  getChannelState hhmmToMinutes ch now w = (st, Some t) ->
  automationOn ch /\
  exists l, autoSendSchedules ch = Some l /\ t ∈ enabledTimes l.
Proof.
  intros H.
  destruct (decide (automationOn ch)) as [Hon|Hoff];
    [|rewrite getChannelState_off in H by done; discriminate].
  split; [done|].
  destruct (autoSendSchedules ch) as [l|] eqn:Hl;
    [|unfold getChannelState in H; rewrite Hl in H; discriminate].
  exists l. split; [done|].
  rewrite (getChannelState_eligible ch l) in H by done.
  destruct (enabledTimes l) as [|first rest] eqn:Ht; [discriminate|].
  destruct (findActive _ _ _ _) as [a|] eqn:Ha.
  { inversion H; subst. eauto using findActive_elem. }
  destruct (findUpcoming _ _ _) as [u|] eqn:Hu.
  { inversion H; subst. eauto using findUpcoming_elem. }
  inversion H; subst. left.
Qed.

(** [getChannelState] never answers [previous]. *)
Lemma getChannelState_not_previous ch now w :
  (getChannelState hhmmToMinutes ch now w).1 <> previous.
Proof.
  unfold getChannelState.
  destruct (autoSendSchedules ch) as [l|]; [|discriminate].
  destruct (_ || _); [discriminate|].
  destruct (enabledTimes l); [discriminate|].
  destruct (findActive _ _ _ _); [discriminate|].
  destruct (findUpcoming _ _ _); discriminate.
Qed.

(** A channel is [current] exactly when one of its enabled slots
    passes the activity test; the slot reported is then the earliest
    active one. *)
Lemma getChannelState_current ch now w :
  automationOn ch -> wellFormedChannel ch = true ->
  ((getChannelState hhmmToMinutes ch now w).1 = current <->
   exists t, enabledSlot ch t /\
             isActive (timeValue t) (validInterval w) now = true).
Proof.
  intros Hon Hwf.
  destruct (autoSendSchedules ch) as [l|] eqn:Hl.
  2:{ unfold getChannelState. rewrite Hl. simpl. split; [discriminate|].
      intros (t & (l & s & Hl' & _) & _). congruence. }
  rewrite (getChannelState_eligible ch l) by done.
  assert (Hall : forall x, x ∈ enabledTimes l -> wellFormedTime x = true).
  { intros x Hx. apply (enabledSlot_wf ch); [done|]. by apply (enabledSlot_iff ch l). }
  destruct (enabledTimes l) as [|first rest] eqn:Ht.
  { simpl. split; [discriminate|]. intros (t & Hs & _).
    apply (enabledSlot_iff ch l) in Hs; [|done..]. rewrite Ht in Hs.
    by apply elem_of_nil in Hs. }
  rewrite <- Ht in *.
  destruct (findActive _ _ _ _) as [a|] eqn:Ha.
  - simpl. split; [|done]. intros _.
    apply (findActive_Some _ hhmm_wf) in Ha as (Hin & Hact & _);
      [|apply enabledTimes_sorted|done].
    exists a. split; [|done]. by apply (enabledSlot_iff ch l).
  - pose proof (proj1 (findActive_None _ hhmm_wf _ now (validInterval w) Hall) Ha) as Hnone.
    split.
    + destruct (findUpcoming _ _ _); discriminate.
    + intros (t & Hs & Hact). apply (enabledSlot_iff ch l) in Hs; [|done..].
      rewrite Hnone in Hact; [discriminate|done].
Qed.

End PerChannel.

(** ** Properties of the per-channel classification *)

Lemma enabledSlot_channelWith i times t :
  enabledSlot (channelWith i times) t <-> t ∈ times.
Proof.
  unfold enabledSlot, channelWith. simpl. split.
  - intros (l & s & [= <-] & Hs & _ & <-).
    apply list_elem_of_fmap in Hs as (t & -> & Ht). exact Ht.
  - intros Ht. exists (slotAt <$> times), (slotAt t).
    repeat split. by apply list_elem_of_fmap_2.
Qed.

Section PerChannelProperties.

Variable hhmmToMinutes : string -> number.

Hypothesis hhmm_wf :
  forall s, wellFormedTime s = true -> hhmmToMinutes s = Num (timeValue s).

(** C2. The activity test of a slot at minute [T] with window [W]:
    when [T + W < 1440] the slot is active iff [T <= now < T + W]; when
    [T + W >= 1440] it is active iff [now >= T] or
    [now < (T + W) mod 1440]. A slot at 23:50 with window 20 is active
    exactly for [now] in 1430..1439 or 0..9. A channel is classified
    [current] exactly when one of its enabled slots passes this test
    with the clamped window. *)
Theorem active_window_test :
  (forall T W now, T + W < 1440 ->
     (isActive T W now = true <-> T <= now < T + W)) /\
  (forall T W now, T + W >= 1440 ->
     (isActive T W now = true <-> now >= T \/ now < (T + W) mod 1440)) /\
  (forall now, 0 <= now < 1440 ->
     (isActive (timeValue "23:50") 20 now = true <->
      1430 <= now <= 1439 \/ 0 <= now <= 9)) /\
  (forall ch now w, automationOn ch -> wellFormedChannel ch = true ->
     ((getChannelState hhmmToMinutes ch now w).1 = current <->
      exists t, enabledSlot ch t /\
                isActive (timeValue t) (validInterval w) now = true)).
Proof.
  split; [exact isActive_nowrap|]. split; [exact isActive_wrap|]. split.
  - intros now Hnow. change (timeValue "23:50") with 1430.
    rewrite isActive_wrap by lia. change ((1430 + 20) mod 1440) with 10. lia.
  - intros ch now w. apply getChannelState_current. exact hhmm_wf.
Qed.

(** C3 (as amended). When at least one enabled slot of a channel (in
    particular two or more) is active at [now], the channel is
    [current] and the slot reported is the active slot that comes first
    in ascending order: the one whose time is smallest. *)
Theorem current_slot_is_earliest_active ch now w :
  automationOn ch -> wellFormedChannel ch = true ->
  (exists t0, enabledSlot ch t0 /\
              isActive (timeValue t0) (validInterval w) now = true) ->
  exists t,
    getChannelState hhmmToMinutes ch now w = (current, Some t) /\
    enabledSlot ch t /\
    isActive (timeValue t) (validInterval w) now = true /\
    forall t', enabledSlot ch t' ->
               isActive (timeValue t') (validInterval w) now = true ->
               timeValue t <= timeValue t'.
Proof.
  intros Hon Hwf (t0 & Hs0 & Hact0).
  destruct Hs0 as (l & s0 & Hl & Hs0).
  assert (Hslot : forall x, enabledSlot ch x <-> x ∈ enabledTimes l)
    by (intros; by apply enabledSlot_iff).
  assert (Hall : forall x, x ∈ enabledTimes l -> wellFormedTime x = true).
  { intros x Hx. apply (enabledSlot_wf ch); [done|]. by apply Hslot. }
  assert (Hin0 : t0 ∈ enabledTimes l) by (apply Hslot; exists l, s0; done).
  rewrite (getChannelState_eligible _ ch l) by done.
  destruct (enabledTimes l) as [|first rest] eqn:Ht; [by apply elem_of_nil in Hin0|].
  rewrite <- Ht in *.
  destruct (findActive hhmmToMinutes (enabledTimes l) now (validInterval w)) as [a|] eqn:Ha.
  - destruct (findActive_Some _ hhmm_wf _ _ _ _ (enabledTimes_sorted l) Hall Ha)
      as (Hin & Hact & Hmin).
    exists a. split; [done|]. split; [by apply Hslot|]. split; [done|].
    intros t' Ht' Hact'. apply Hmin; [by apply Hslot | done].
  - pose proof (proj1 (findActive_None _ hhmm_wf _ now (validInterval w) Hall) Ha) as Hnone.
    rewrite Hnone in Hact0; [discriminate | done].
Qed.

(** C8. For a channel none of whose enabled slots is active at [now]:
    if some enabled slot's time is strictly greater than [now], the
    state is [next] with the smallest such time; if no slot's time
    exceeds [now], the state is [next] with the smallest slot time
    overall. A channel with a single slot at 09:00 reports [next] with
    slot 09:00 at [now] = 10:00. *)
Theorem next_slot_when_idle :
  (forall ch now w,
     automationOn ch -> wellFormedChannel ch = true ->
     (forall t, enabledSlot ch t ->
                isActive (timeValue t) (validInterval w) now = false) ->
     ((exists t0, enabledSlot ch t0 /\ now < timeValue t0) ->
      exists t,
        getChannelState hhmmToMinutes ch now w = (next, Some t) /\
        enabledSlot ch t /\ now < timeValue t /\
        forall t', enabledSlot ch t' -> now < timeValue t' ->
                   timeValue t <= timeValue t') /\
     ((exists t0, enabledSlot ch t0) ->
      (forall t', enabledSlot ch t' -> timeValue t' <= now) ->
      exists t,
        getChannelState hhmmToMinutes ch now w = (next, Some t) /\
        enabledSlot ch t /\
        forall t', enabledSlot ch t' -> timeValue t <= timeValue t')) /\
  (forall i w,
     getChannelState hhmmToMinutes (channelWith i ["09:00"]) 600 w
     = (next, Some "09:00")).
Proof.
  assert (General : forall ch now w,
     automationOn ch -> wellFormedChannel ch = true ->
     (forall t, enabledSlot ch t ->
                isActive (timeValue t) (validInterval w) now = false) ->
     ((exists t0, enabledSlot ch t0 /\ now < timeValue t0) ->
      exists t,
        getChannelState hhmmToMinutes ch now w = (next, Some t) /\
        enabledSlot ch t /\ now < timeValue t /\
        forall t', enabledSlot ch t' -> now < timeValue t' ->
                   timeValue t <= timeValue t') /\
     ((exists t0, enabledSlot ch t0) ->
      (forall t', enabledSlot ch t' -> timeValue t' <= now) ->
      exists t,
        getChannelState hhmmToMinutes ch now w = (next, Some t) /\
        enabledSlot ch t /\
        forall t', enabledSlot ch t' -> timeValue t <= timeValue t')).
  { intros ch now w Hon Hwf Hidle.
    assert (Hsome : forall t0, enabledSlot ch t0 ->
      exists l, autoSendSchedules ch = Some l /\
        (forall x, enabledSlot ch x <-> x ∈ enabledTimes l) /\
        (forall x, x ∈ enabledTimes l -> wellFormedTime x = true) /\
        findActive hhmmToMinutes (enabledTimes l) now (validInterval w) = None).
    { intros t0 (l & s0 & Hl & Hs0). exists l. split; [done|].
      assert (Hslot : forall x, enabledSlot ch x <-> x ∈ enabledTimes l)
        by (intros; by apply enabledSlot_iff).
      assert (Hall : forall x, x ∈ enabledTimes l -> wellFormedTime x = true).
      { intros x Hx. apply (enabledSlot_wf ch); [done|]. by apply Hslot. }
      split; [done|]. split; [done|].
      apply (findActive_None _ hhmm_wf); [done|].
      intros x Hx. apply Hidle. by apply Hslot. }
    split.
    - intros (t0 & Hs0 & Hlt0).
      destruct (Hsome t0 Hs0) as (l & Hl & Hslot & Hall & Hnone).
      rewrite (getChannelState_eligible _ ch l) by done.
      apply Hslot in Hs0.
      destruct (enabledTimes l) as [|first rest] eqn:Ht; [by apply elem_of_nil in Hs0|].
      rewrite <- Ht in *. rewrite Hnone.
      destruct (findUpcoming hhmmToMinutes (enabledTimes l) now) as [u|] eqn:Hu.
      + destruct (findUpcoming_Some _ hhmm_wf _ _ _ (enabledTimes_sorted l) Hall Hu)
          as (Hin & Hlt & Hmin).
        exists u. split; [done|]. split; [by apply Hslot|]. split; [done|].
        intros t' Ht' Hlt'. apply Hmin; [by apply Hslot | done].
      + pose proof (proj1 (findUpcoming_None _ hhmm_wf _ now Hall) Hu t0 Hs0). lia.
    - intros (t0 & Hs0) Hpassed.
      destruct (Hsome t0 Hs0) as (l & Hl & Hslot & Hall & Hnone).
      rewrite (getChannelState_eligible _ ch l) by done.
      apply Hslot in Hs0.
      pose proof (enabledTimes_sorted l) as Hsorted.
      destruct (enabledTimes l) as [|first rest] eqn:Ht; [by apply elem_of_nil in Hs0|].
      rewrite <- Ht in *. rewrite Hnone.
      assert (Hu : findUpcoming hhmmToMinutes (enabledTimes l) now = None).
      { apply (findUpcoming_None _ hhmm_wf); [done|].
        intros x Hx. by apply Hpassed, Hslot. }
      rewrite Hu.
      exists first. split; [done|]. split; [apply Hslot; rewrite Ht; left|].
      intros t' Ht'. apply Hslot in Ht'. rewrite Ht in Ht', Hsorted, Hall.
      apply elem_of_cons in Ht' as [->|Ht']; [lia|].
      apply StronglySorted_inv in Hsorted as [_ Hfirst].
      rewrite Forall_forall in Hfirst.
      apply wellFormedTime_le; [apply Hall; left | apply Hall; by right | auto]. }
  split; [exact General|].
  intros i w.
  destruct (General (channelWith i ["09:00"]) 600 w) as [_ Hlate]; [done..| |].
  { intros t Ht. apply enabledSlot_channelWith in Ht.
    apply list_elem_of_singleton in Ht as ->. change (timeValue "09:00") with 540.
    pose proof (validInterval_range w).
    apply not_true_is_false. rewrite isActive_nowrap by lia. lia. }
  destruct Hlate as (t & Hres & Ht & _).
  { exists "09:00"%string. apply enabledSlot_channelWith. left. }
  { intros t Ht. apply enabledSlot_channelWith in Ht.
    apply list_elem_of_singleton in Ht as ->. change (timeValue "09:00") with 540. lia. }
  apply enabledSlot_channelWith in Ht. apply list_elem_of_singleton in Ht as ->.
  exact Hres.
Qed.

End PerChannelProperties.

(** ** The accumulators of the fleet-wide reduction *)

Lemma foldl_keepBest better (R : relation Z) cands :
  (forall x, R x x) ->
  (forall x y z, R x y -> R y z -> R x z) ->
  (forall c a, better c a = true -> R c a) ->
  (forall c a, better c a = false -> R a c) ->
  forall acc,
    match foldl (keepBest better) acc cands with
    | None => acc = None /\ forall c, Some c ∉ cands
    | Some p =>
        (acc = Some p \/ Some p ∈ cands) /\
        (forall a, acc = Some a -> R (pickMinutes p) (pickMinutes a)) /\
        (forall c, Some c ∈ cands -> R (pickMinutes p) (pickMinutes c))
    end.
Proof.
  intros Hrefl Htrans Htrue Hfalse.
  induction cands as [|c cands IH]; intros acc; simpl.
  - destruct acc as [a|].
    + split; [by left|]. split; [by intros ? [= <-]|]. intros c Hc. by apply elem_of_nil in Hc.
    + split; [done|]. intros c Hc. by apply elem_of_nil in Hc.
  - specialize (IH (keepBest better acc c)).
    destruct (foldl (keepBest better) (keepBest better acc c) cands) as [p|].
    + destruct IH as (Hfrom & Hacc & Hrest).
      destruct c as [c|]; simpl in *.
      * destruct acc as [a|].
        -- destruct (better (pickMinutes c) (pickMinutes a)) eqn:Hb.
           ++ split; [right; destruct Hfrom as [[= <-]|?]; [left|by right]|].
              split.
              ** intros a' [= <-]. eapply Htrans; [by apply Hacc|]. by apply Htrue.
              ** intros c' Hc'. apply elem_of_cons in Hc' as [[= ->]|Hc']; auto.
           ++ split; [destruct Hfrom as [?|?]; [by left|right; by right]|].
              split; [done|].
              intros c' Hc'. apply elem_of_cons in Hc' as [[= ->]|Hc']; auto.
              eapply Htrans; [by apply Hacc|]. by apply Hfalse.
        -- split; [right; destruct Hfrom as [[= <-]|?]; [left|by right]|].
           split; [done|].
           intros c' Hc'. apply elem_of_cons in Hc' as [[= ->]|Hc']; auto.
      * split; [destruct Hfrom as [?|?]; [by left|right; by right]|].
        split; [done|].
        intros c' Hc'. apply elem_of_cons in Hc' as [?|Hc']; [done|auto].
    + destruct IH as [Hacc Hrest].
      destruct c as [c|]; simpl in *.
      * destruct acc as [a|]; [|done].
        destruct (better (pickMinutes c) (pickMinutes a)); done.
      * split; [done|]. intros c' Hc'.
        apply elem_of_cons in Hc' as [?|Hc']; [done|]. by apply (Hrest c').
Qed.

(** The accumulator of a loop that keeps the smallest minutes. *)
Lemma foldl_keepBest_min cands :
  match foldl (keepBest Z.ltb) None cands with
  | None => forall c, Some c ∉ cands
  | Some p =>
      Some p ∈ cands /\
      forall c, Some c ∈ cands -> pickMinutes p <= pickMinutes c
  end.
Proof.
  pose proof (foldl_keepBest Z.ltb Z.le cands) as H.
  specialize (H ltac:(intros; lia) ltac:(intros; lia)).
  specialize (H ltac:(intros ? ? ?%Z.ltb_lt; lia) ltac:(intros ? ? ?%Z.ltb_ge; lia) None).
  destruct (foldl _ _ _) as [p|].
  - destruct H as ([?|?] & _ & ?); done.
  - by destruct H.
Qed.

(** The accumulator of a loop that keeps the largest minutes. *)
Lemma foldl_keepBest_max cands :
  match foldl (keepBest Z.gtb) None cands with
  | None => forall c, Some c ∉ cands
  | Some p =>
      Some p ∈ cands /\
      forall c, Some c ∈ cands -> pickMinutes c <= pickMinutes p
  end.
Proof.
  pose proof (foldl_keepBest Z.gtb (fun x y => y <= x) cands) as H.
  specialize (H ltac:(intros; simpl; lia) ltac:(intros; simpl in *; lia)).
  specialize (H ltac:(intros c a; simpl; destruct (Z.gtb_spec c a); [lia|discriminate])
                ltac:(intros c a; simpl; destruct (Z.gtb_spec c a); [discriminate|lia]) None).
  destruct (foldl _ _ _) as [p|].
  - destruct H as ([?|?] & _ & ?); done.
  - by destruct H.
Qed.

Lemma foldl_keepBest_fmap {A} better (step : option Pick -> A -> option Pick)
    (cand : A -> option Pick) l :
  (forall acc x, step acc x = keepBest better acc (cand x)) ->
  forall acc, foldl step acc l = foldl (keepBest better) acc (cand <$> l).
Proof.
  intros Hstep. induction l as [|x l IH]; intros acc; simpl; [done|].
  by rewrite Hstep, IH.
Qed.

Lemma foldl_keepBest_bind {A} better (step : option Pick -> A -> option Pick)
    (cands : A -> list (option Pick)) l :
  (forall acc x, step acc x = foldl (keepBest better) acc (cands x)) ->
  forall acc, foldl step acc l = foldl (keepBest better) acc (l ≫= cands).
Proof.
  intros Hstep. induction l as [|x l IH]; intros acc; simpl; [done|].
  by rewrite foldl_app, Hstep, IH.
Qed.

Lemma NoDup_all_eq_length {A} (l : list A) :
  NoDup l -> (forall x y, x ∈ l -> y ∈ l -> x = y) -> (length l <= 1)%nat.
Proof.
  intros Hnd Heq. destruct l as [|a [|b l]]; simpl; [lia..|].
  apply NoDup_cons in Hnd as [Hnotin _]. exfalso. apply Hnotin.
  rewrite (Heq a b); [left | left | right; left].
Qed.

Lemma isPicked_true p ch :
  isPicked p ch = true <-> exists c, p = Some c /\ id ch = pickChannelId c.
Proof.
  unfold isPicked. destruct p as [c|].
  - rewrite String.eqb_eq. split; [eauto|]. by intros (c' & [= <-] & ?).
  - split; [discriminate|]. by intros (c' & ? & _).
Qed.

Lemma isPicked_id p ch ch' : id ch = id ch' -> isPicked p ch = isPicked p ch'.
Proof. unfold isPicked. by intros ->. Qed.

Lemma finalInfo_id c n p ch ch' :
  id ch = id ch' -> finalInfo c n p ch = finalInfo c n p ch'.
Proof.
  intros Hid. unfold finalInfo.
  rewrite !(isPicked_id _ ch ch' Hid), Hid. reflexivity.
Qed.

(** The result map holds, under each channel's id, the entry the last
    loop computes for it. *)
Lemma applyStates_lookup c n p channels k info :
  applyStates c n p channels !! k = Some info <->
  exists ch, ch ∈ channels /\ id ch = k /\ info = finalInfo c n p ch.
Proof.
  unfold applyStates. induction channels as [|x l IH] using rev_ind.
  - simpl. rewrite lookup_empty. split; [discriminate|].
    intros (ch & Hch & _). by apply elem_of_nil in Hch.
  - rewrite foldl_app. simpl. rewrite lookup_insert.
    destruct (decide (id x = k)) as [Hk|Hk].
    + split.
      * intros [= <-]. exists x. split; [|done]. apply elem_of_app. right. left.
      * intros (ch & _ & Hid & ->). f_equal. apply finalInfo_id. congruence.
    + rewrite IH. split.
      * intros (ch & Hch & Hid & ->). exists ch. split; [|done].
        apply elem_of_app. by left.
      * intros (ch & Hch & Hid & ->). exists ch. split; [|done].
        apply elem_of_app in Hch as [Hch|Hch]; [done|].
        apply list_elem_of_singleton in Hch as ->. done.
Qed.

Lemma finalInfo_current c n p ch :
  state (finalInfo c n p ch) = current <-> isPicked c ch = true.
Proof.
  unfold finalInfo. destruct (isPicked c ch); [done|].
  destruct (isPicked n ch); [done|]. destruct (isPicked p ch); done.
Qed.

Lemma finalInfo_next c n p ch :
  state (finalInfo c n p ch) = next <->
  isPicked c ch = false /\ isPicked n ch = true.
Proof.
  unfold finalInfo. destruct (isPicked c ch); [by intuition|].
  destruct (isPicked n ch); [done|]. destruct (isPicked p ch); by intuition.
Qed.

Lemma finalInfo_previous c n p ch :
  state (finalInfo c n p ch) = previous <->
  isPicked c ch = false /\ isPicked n ch = false /\ isPicked p ch = true.
Proof.
  unfold finalInfo. destruct (isPicked c ch); [by intuition|].
  destruct (isPicked n ch); [by intuition|]. destruct (isPicked p ch); by intuition.
Qed.

(** Entries that share a state picked by one accumulator share a key. *)
Lemma reported_at_most_one st (states : gmap string ChannelStateInfo) :
  (forall k1 k2 i1 i2,
     states !! k1 = Some i1 -> states !! k2 = Some i2 ->
     state i1 = st -> state i2 = st -> k1 = k2) ->
  (length (reported st states) <= 1)%nat.
Proof.
  intros Huniq. apply NoDup_all_eq_length.
  - apply NoDup_filter, NoDup_map_to_list.
  - intros [k1 i1] [k2 i2] H1 H2.
    apply list_elem_of_filter in H1 as [Hs1 H1], H2 as [Hs2 H2].
    apply elem_of_map_to_list in H1, H2. simpl in *.
    assert (k1 = k2) as -> by eauto. congruence.
Qed.

(** ** Properties of the result map and of the window *)




Lemma calculateChannelStatesAt_current_unique hhmmToMinutes now channels w k1 k2 i1 i2 :
  calculateChannelStatesAt hhmmToMinutes now channels w !! k1 = Some i1 ->
  calculateChannelStatesAt hhmmToMinutes now channels w !! k2 = Some i2 ->
  state i1 = current -> state i2 = current -> k1 = k2.
Proof.
  unfold calculateChannelStatesAt. intros H1 H2 Hs1 Hs2.
  apply applyStates_lookup in H1 as (c1 & _ & <- & ->), H2 as (c2 & _ & <- & ->).
  apply finalInfo_current, isPicked_true in Hs1 as (p1 & Hp1 & ->).
  apply finalInfo_current, isPicked_true in Hs2 as (p2 & Hp2 & ->).
  congruence.
Qed.

Lemma calculateChannelStatesAt_previous_unique hhmmToMinutes now channels w k1 k2 i1 i2 :
  calculateChannelStatesAt hhmmToMinutes now channels w !! k1 = Some i1 ->
  calculateChannelStatesAt hhmmToMinutes now channels w !! k2 = Some i2 ->
  state i1 = previous -> state i2 = previous -> k1 = k2.
Proof.
  unfold calculateChannelStatesAt. intros H1 H2 Hs1 Hs2.
  apply applyStates_lookup in H1 as (c1 & _ & <- & ->), H2 as (c2 & _ & <- & ->).
  apply finalInfo_previous in Hs1 as (_ & _ & Hs1), Hs2 as (_ & _ & Hs2).
  apply isPicked_true in Hs1 as (p1 & Hp1 & ->), Hs2 as (p2 & Hp2 & ->).
  congruence.
Qed.

(** C5. For every fleet and every [now], at most one channel of the
    result map carries state [current]. *)
Theorem at_most_one_current hhmmToMinutes channels :
  (forall now w,
     (length (reported current
        (calculateChannelStatesAt hhmmToMinutes now channels w)) <= 1)%nat) /\
  (forall hours minutes w,
     (length (reported current
        (calculateChannelStates hhmmToMinutes hours minutes channels w)) <= 1)%nat).
Proof.
  assert (H : forall now w,
     (length (reported current
        (calculateChannelStatesAt hhmmToMinutes now channels w)) <= 1)%nat).
  { intros now w. apply reported_at_most_one.
    apply calculateChannelStatesAt_current_unique. }
  split; [exact H|]. intros hours minutes w. apply H.
Qed.

(** C10. [getChannelState] answers [current], [next] or [default] and
    never [previous]; in the result map of the fleet-wide reduction at
    most one channel carries state [previous]. *)
Theorem previous_only_from_reduction hhmmToMinutes :
  (forall ch now w,
     let st := (getChannelState hhmmToMinutes ch now w).1 in
     (st = current \/ st = next \/ st = default) /\ st <> previous) /\
  (forall channels now w,
     (length (reported previous
        (calculateChannelStatesAt hhmmToMinutes now channels w)) <= 1)%nat).
Proof.
  split.
  - intros ch now w st.
    pose proof (getChannelState_not_previous hhmmToMinutes ch now w) as Hnp.
    fold st in Hnp. split; [|done]. destruct st; auto. done.
  - intros channels now w. apply reported_at_most_one.
    apply calculateChannelStatesAt_previous_unique.
Qed.

(** ** The loops of the reduction as folds of [keepBest] *)

Lemma currentStep_keepBest hhmmToMinutes now w acc ch :
  currentStep hhmmToMinutes now w acc ch =
  keepBest Z.gtb acc (currentCandidate hhmmToMinutes now w ch).
Proof.
  unfold currentStep, currentCandidate.
  destruct (getChannelState hhmmToMinutes ch now w) as [[] [t|]]; try reflexivity.
  destruct (truthy t); [|reflexivity].
  destruct (hhmmToMinutes t); reflexivity.
Qed.

Lemma nextStep_keepBest hhmmToMinutes now w cur acc ch :
  nextStep hhmmToMinutes now w cur acc ch =
  keepBest Z.ltb acc (nextCandidate hhmmToMinutes now w cur ch).
Proof.
  unfold nextStep, nextCandidate.
  destruct (isPicked cur ch); [reflexivity|].
  destruct (getChannelState hhmmToMinutes ch now w) as [[] [t|]]; try reflexivity.
  destruct (truthy t); [|reflexivity].
  destruct (hhmmToMinutes t); reflexivity.
Qed.

Lemma previousSlotStep_keepBest hhmmToMinutes now w cid acc t :
  previousSlotStep hhmmToMinutes now w cid acc t =
  keepBest Z.gtb acc (endedCandidate hhmmToMinutes now w cid t).
Proof.
  unfold previousSlotStep, endedCandidate.
  destruct (hhmmToMinutes t) as [|m]; [reflexivity|].
  destruct (isPast m w now); reflexivity.
Qed.

Lemma previousStep_keepBest hhmmToMinutes now w cur acc ch :
  previousStep hhmmToMinutes now w cur acc ch =
  foldl (keepBest Z.gtb) acc (endedCandidates hhmmToMinutes now w cur ch).
Proof.
  unfold previousStep, endedCandidates.
  destruct (isPicked cur ch); [reflexivity|].
  destruct (eligibleSchedules ch) as [l|]; [|reflexivity].
  apply foldl_keepBest_fmap. intros. apply previousSlotStep_keepBest.
Qed.

Lemma yesterdayStep_keepBest hhmmToMinutes cur acc ch :
  yesterdayStep hhmmToMinutes cur acc ch =
  keepBest Z.gtb acc (yesterdayCandidate hhmmToMinutes cur ch).
Proof.
  unfold yesterdayStep, yesterdayCandidate.
  destruct (isPicked cur ch); [reflexivity|].
  destruct (eligibleSchedules ch) as [l|]; [|reflexivity].
  destruct (last (enabledTimes l)) as [t|]; [|reflexivity].
  destruct (hhmmToMinutes t); reflexivity.
Qed.

Lemma eligibleSchedules_Some ch l :
  eligibleSchedules ch = Some l <-> automationOn ch /\ autoSendSchedules ch = Some l.
Proof.
  unfold eligibleSchedules, automationOn.
  destruct (truthyFlag (autoSendEnabled ch)); [by intuition|].
  split; [discriminate|]. by intros [? _].
Qed.

Lemma isPast_nowrap T W now :
  T + W < 1440 -> (isPast T W now = true <-> now >= T + W).
Proof.
  intros H. unfold isPast. cbv zeta.
  destruct (Z.ltb_spec (T + W) 1440); [|lia]. rewrite Z.geb_le. lia.
Qed.

Lemma isPast_wrap T W now :
  T + W >= 1440 -> (isPast T W now = true <-> (T + W) mod 1440 <= now < T).
Proof.
  intros H. unfold isPast. cbv zeta.
  destruct (Z.ltb_spec (T + W) 1440); [lia|].
  rewrite Z.rem_mod_nonneg by lia.
  rewrite andb_true_iff, Z.geb_le, Z.ltb_lt. lia.
Qed.

Section Candidates_facts.

Variable hhmmToMinutes : string -> number.

Hypothesis hhmm_wf :
  forall s, wellFormedTime s = true -> hhmmToMinutes s = Num (timeValue s).

Lemma nextCandidate_Some now w cur ch p :
  wellFormedChannel ch = true ->
  (nextCandidate hhmmToMinutes now w cur ch = Some p <->
   isPicked cur ch = false /\
   exists t, getChannelState hhmmToMinutes ch now w = (next, Some t) /\
     p = {| pickChannelId := id ch; pickTimeSlot := t;
            pickMinutes := minutesUntil (timeValue t) now + now |}).
Proof.
  intros Hwf. unfold nextCandidate.
  destruct (isPicked cur ch); [split; [discriminate|by intros [? _]]|].
  destruct (getChannelState hhmmToMinutes ch now w) as [st [t|]] eqn:Hst.
  2:{ split; [by destruct st|]. by intros (_ & t & ? & _). }
  destruct (getChannelState_slot _ _ _ _ _ _ Hst) as (Hon & l & Hl & Hin).
  assert (Ht : wellFormedTime t = true).
  { apply (enabledSlot_wf ch); [done|]. by apply (enabledSlot_iff ch l). }
  assert (Hnorm : (if timeValue t <=? now then timeValue t + 1440 else timeValue t)
                  = minutesUntil (timeValue t) now + now).
  { unfold minutesUntil.
    destruct (Z.leb_spec (timeValue t) now), (Z.gtb_spec (timeValue t) now); lia. }
  destruct st; try (split; [discriminate|by intros (_ & t' & [=] & _)]).
  rewrite (wellFormedTime_truthy t Ht), (hhmm_wf t Ht), Hnorm. split.
  - intros [= <-]. split; [done|]. by exists t.
  - intros (_ & t' & [= <-] & ->). done.
Qed.

Lemma endedCandidates_Some now W cur ch p :
  wellFormedChannel ch = true ->
  (Some p ∈ endedCandidates hhmmToMinutes now W cur ch <->
   eligible cur ch /\
   exists t, endedToday ch t W now /\
     p = {| pickChannelId := id ch; pickTimeSlot := t; pickMinutes := timeValue t |}).
Proof.
  intros Hwf. unfold endedCandidates, eligible, endedToday.
  destruct (isPicked cur ch).
  { split; [by intros ?%elem_of_nil|]. by intros [[? _] _]. }
  destruct (eligibleSchedules ch) as [l|] eqn:Hel.
  2:{ split; [by intros ?%elem_of_nil|].
      intros [[_ Hon] (t & [(l & s & Hl & _) _] & _)].
      assert (eligibleSchedules ch = Some l) by (by apply eligibleSchedules_Some).
      congruence. }
  apply eligibleSchedules_Some in Hel as [Hon Hl].
  rewrite list_elem_of_fmap. split.
  - intros (t & Hp & Hin). split; [done|]. exists t.
    assert (Hs : enabledSlot ch t) by (by apply (enabledSlot_iff ch l)).
    unfold endedCandidate in Hp.
    rewrite (hhmm_wf t) in Hp by (by apply (enabledSlot_wf ch)).
    destruct (isPast (timeValue t) W now); [|discriminate].
    inversion Hp. done.
  - intros (_ & t & [Hs Hpast] & ->). exists t.
    split; [|by apply (enabledSlot_iff ch l)].
    unfold endedCandidate.
    rewrite (hhmm_wf t) by (by apply (enabledSlot_wf ch)). by rewrite Hpast.
Qed.

Lemma last_enabledTimes ch l t :
  autoSendSchedules ch = Some l -> wellFormedChannel ch = true ->
  (last (enabledTimes l) = Some t <-> latestSlot ch t).
Proof.
  intros Hl Hwf.
  assert (Hslot : forall x, enabledSlot ch x <-> x ∈ enabledTimes l)
    by (intros; by apply enabledSlot_iff).
  assert (Hmax : forall x, last (enabledTimes l) = Some x -> latestSlot ch x).
  { intros x Hx. split; [apply Hslot; eauto using last_Some_elem_of|].
    intros t' Ht'. apply Hslot in Ht'.
    apply last_Some in Hx as [l' Hl'].
    pose proof (enabledTimes_sorted l) as Hsorted. rewrite Hl' in Hsorted, Ht'.
    assert (Hx : x ∈ enabledTimes l) by (rewrite Hl'; apply elem_of_app; right; left).
    apply elem_of_app in Ht' as [Ht'|Ht'].
    - apply wellFormedTime_le.
      + apply (enabledSlot_wf ch); [done|]. apply Hslot. rewrite Hl'.
        apply elem_of_app. by left.
      + apply (enabledSlot_wf ch); [done|]. by apply Hslot.
      + eapply StronglySorted_app_1_elem_of; [exact Hsorted|done|left].
    - apply list_elem_of_singleton in Ht' as ->. lia. }
  split; [apply Hmax|].
  intros [Hs Hlatest].
  destruct (last (enabledTimes l)) as [x|] eqn:Hx.
  - destruct (Hmax x eq_refl) as [Hsx Hlx]. f_equal.
    apply wellFormedTime_inj; eauto using enabledSlot_wf.
    specialize (Hlatest x Hsx). specialize (Hlx t Hs). lia.
  - apply last_None in Hx. apply Hslot in Hs. rewrite Hx in Hs.
    by apply elem_of_nil in Hs.
Qed.

Lemma yesterdayCandidate_Some cur ch p :
  wellFormedChannel ch = true ->
  (yesterdayCandidate hhmmToMinutes cur ch = Some p <->
   eligible cur ch /\
   exists t, latestSlot ch t /\
     p = {| pickChannelId := id ch; pickTimeSlot := t; pickMinutes := timeValue t |}).
Proof.
  intros Hwf. unfold yesterdayCandidate, eligible.
  destruct (isPicked cur ch); [split; [discriminate|by intros [[? _] _]]|].
  destruct (eligibleSchedules ch) as [l|] eqn:Hel.
  2:{ split; [discriminate|].
      intros [[_ Hon] (t & [(l & s & Hl & _) _] & _)].
      assert (eligibleSchedules ch = Some l) by (by apply eligibleSchedules_Some).
      congruence. }
  apply eligibleSchedules_Some in Hel as [Hon Hl].
  destruct (last (enabledTimes l)) as [x|] eqn:Hx.
  - apply (last_enabledTimes ch l x Hl Hwf) in Hx as Hlx.
    rewrite (hhmm_wf x) by (apply (enabledSlot_wf ch); [done|apply Hlx]).
    split.
    + intros [= <-]. split; [done|]. by exists x.
    + intros (_ & t & Hlt & ->).
      apply (last_enabledTimes ch l t Hl Hwf) in Hlt. congruence.
  - split; [discriminate|]. intros (_ & t & Hlt & _).
    apply (last_enabledTimes ch l t Hl Hwf) in Hlt. congruence.
Qed.

End Candidates_facts.

(** ** Properties of the fleet-wide reduction *)

Section FleetProperties.

Variable hhmmToMinutes : string -> number.

Hypothesis hhmm_wf :
  forall s, wellFormedTime s = true -> hhmmToMinutes s = Num (timeValue s).

(** The second accumulator holds a candidate that fires soonest. *)
Lemma pickNext_spec channels now w cur :
  wellFormedFleet channels = true ->
  match pickNext hhmmToMinutes channels now w cur with
  | Some p =>
      exists ch t, ch ∈ channels /\ isPicked cur ch = false /\
        getChannelState hhmmToMinutes ch now w = (next, Some t) /\
        pickChannelId p = id ch /\ pickTimeSlot p = t /\
        forall ch' t', ch' ∈ channels -> isPicked cur ch' = false ->
          getChannelState hhmmToMinutes ch' now w = (next, Some t') ->
          minutesUntil (timeValue t) now <= minutesUntil (timeValue t') now
  | None =>
      forall ch t, ch ∈ channels -> isPicked cur ch = false ->
        getChannelState hhmmToMinutes ch now w <> (next, Some t)
  end.
Proof.
  intros Hwf. unfold pickNext.
  rewrite (foldl_keepBest_fmap Z.ltb _ (nextCandidate hhmmToMinutes now w cur))
    by (intros; apply nextStep_keepBest).
  pose proof (foldl_keepBest_min
    (nextCandidate hhmmToMinutes now w cur <$> channels)) as H.
  destruct (foldl _ _ _) as [p|].
  - destruct H as (Hin & Hmin).
    apply list_elem_of_fmap in Hin as (ch & Hp & Hch). symmetry in Hp.
    apply nextCandidate_Some in Hp as (Hnp & t & Hst & ->);
      [|done|by eapply wellFormedFleet_elem].
    exists ch, t. repeat split; try done.
    intros ch' t' Hch' Hnp' Hst'.
    specialize (Hmin {| pickChannelId := id ch'; pickTimeSlot := t';
                        pickMinutes := minutesUntil (timeValue t') now + now |}).
    simpl in Hmin. cut (minutesUntil (timeValue t) now + now <=
                        minutesUntil (timeValue t') now + now); [lia|].
    apply Hmin. apply list_elem_of_fmap. exists ch'. split; [|done].
    symmetry. apply nextCandidate_Some; [done|by eapply wellFormedFleet_elem|].
    split; [done|]. by exists t'.
  - rename H into Hnone. intros ch t Hch Hnp Hst.
    apply (Hnone {| pickChannelId := id ch; pickTimeSlot := t;
                    pickMinutes := minutesUntil (timeValue t) now + now |}).
    apply list_elem_of_fmap. exists ch. split; [|done].
    symmetry. apply nextCandidate_Some; [done|by eapply wellFormedFleet_elem|].
    split; [done|]. by exists t.
Qed.

(** C6. The channel reported with state [next] is, among the channels
    whose per-channel state is [next] and that are not the current
    pick, one that minimises the minutes until its slot fires
    ([time - now] when [time > now], [time + 1440 - now] otherwise);
    and whenever such a channel exists, one is reported. *)
Theorem global_next_is_soonest channels now w :
  wellFormedFleet channels = true ->
  let states := calculateChannelStatesAt hhmmToMinutes now channels w in
  let cur := pickCurrent hhmmToMinutes channels now w in
  (forall k info,
     states !! k = Some info -> state info = next ->
     exists ch t,
       ch ∈ channels /\ id ch = k /\ isPicked cur ch = false /\
       timeSlot info = Some t /\
       getChannelState hhmmToMinutes ch now w = (next, Some t) /\
       forall ch' t', ch' ∈ channels -> isPicked cur ch' = false ->
         getChannelState hhmmToMinutes ch' now w = (next, Some t') ->
         minutesUntil (timeValue t) now <= minutesUntil (timeValue t') now) /\
  (forall ch t,
     ch ∈ channels -> isPicked cur ch = false ->
     getChannelState hhmmToMinutes ch now w = (next, Some t) ->
     exists k info, states !! k = Some info /\ state info = next) /\
  (forall t, minutesUntil t now = if t >? now then t - now else t + 1440 - now).
Proof.
  intros Hwf states cur.
  pose proof (pickNext_spec channels now w cur Hwf) as Hnext.
  subst states. unfold calculateChannelStatesAt. fold cur.
  set (nxt := pickNext hhmmToMinutes channels now w cur) in *.
  set (prv := pickPrevious hhmmToMinutes channels now w cur).
  split; [|split; [|reflexivity]].
  - intros k info Hk Hst.
    apply applyStates_lookup in Hk as (c & Hc & <- & ->).
    apply finalInfo_next in Hst as Hpicked. destruct Hpicked as [Hnc Hn].
    apply isPicked_true in Hn as (p & Hp & Hid).
    rewrite Hp in Hnext. destruct Hnext as (ch & t & Hch & Hnp & Hres & Hpid & Hpt & Hmin).
    exists ch, t. split; [done|]. split; [congruence|]. split; [done|].
    split; [|done].
    unfold finalInfo. rewrite Hnc.
    assert (isPicked nxt c = true) as -> by (apply isPicked_true; eauto).
    simpl. rewrite Hp. simpl. by rewrite Hpt.
  - intros ch t Hch Hnp Hres.
    destruct nxt as [p|] eqn:Hp; [|by destruct (Hnext ch t)].
    destruct Hnext as (ch0 & t0 & Hch0 & Hnp0 & _ & Hpid & _).
    exists (id ch0), (finalInfo cur (Some p) prv ch0). split.
    + apply applyStates_lookup. by exists ch0.
    + apply finalInfo_next. split; [done|]. apply isPicked_true. eauto.
Qed.

(** The third and fourth accumulators together hold the latest slot
    that ended today, or failing that the latest slot of all. *)
Lemma pickPrevious_spec channels now w cur :
  wellFormedFleet channels = true ->
  let W := validInterval w in
  match pickPrevious hhmmToMinutes channels now w cur with
  | Some p =>
      exists ch t, ch ∈ channels /\ eligible cur ch /\
        pickChannelId p = id ch /\ pickTimeSlot p = t /\
        ((endedToday ch t W now /\
          forall ch' t', ch' ∈ channels -> eligible cur ch' ->
            endedToday ch' t' W now -> timeValue t' <= timeValue t)
         \/
         ((forall ch' t', ch' ∈ channels -> eligible cur ch' ->
             ~ endedToday ch' t' W now) /\
          latestSlot ch t /\
          forall ch' t', ch' ∈ channels -> eligible cur ch' ->
            latestSlot ch' t' -> timeValue t' <= timeValue t))
  | None =>
      forall ch t, ch ∈ channels -> eligible cur ch -> ~ enabledSlot ch t
  end.
Proof.
  intros Hwf W. unfold pickPrevious. fold W.
  rewrite (foldl_keepBest_bind Z.gtb _ (endedCandidates hhmmToMinutes now W cur))
    by (intros; apply previousStep_keepBest).
  pose proof (foldl_keepBest_max
    (channels ≫= endedCandidates hhmmToMinutes now W cur)) as H.
  destruct (foldl _ _ (channels ≫= _)) as [p|].
  { destruct H as (Hin & Hmax).
    apply list_elem_of_bind in Hin as (ch & Hp & Hch).
    apply endedCandidates_Some in Hp as (Hel & t & Hended & ->);
      [|done|by eapply wellFormedFleet_elem].
    exists ch, t. repeat split; try done; try apply Hel. left. split; [done|].
    intros ch' t' Hch' Hel' Hended'.
    apply (Hmax {| pickChannelId := id ch'; pickTimeSlot := t';
                   pickMinutes := timeValue t' |}).
    apply list_elem_of_bind. exists ch'. split; [|done].
    apply endedCandidates_Some; [done|by eapply wellFormedFleet_elem|].
    split; [done|]. by exists t'. }
  rename H into Hnone.
  assert (Hno : forall ch' t', ch' ∈ channels -> eligible cur ch' ->
                  ~ endedToday ch' t' W now).
  { intros ch' t' Hch' Hel' Hended'.
    apply (Hnone {| pickChannelId := id ch'; pickTimeSlot := t';
                    pickMinutes := timeValue t' |}).
    apply list_elem_of_bind. exists ch'. split; [|done].
    apply endedCandidates_Some; [done|by eapply wellFormedFleet_elem|].
    split; [done|]. by exists t'. }
  rewrite (foldl_keepBest_fmap Z.gtb _ (yesterdayCandidate hhmmToMinutes cur))
    by (intros; apply yesterdayStep_keepBest).
  pose proof (foldl_keepBest_max
    (yesterdayCandidate hhmmToMinutes cur <$> channels)) as H.
  destruct (foldl _ _ (_ <$> channels)) as [p|].
  - destruct H as (Hin & Hmax).
    apply list_elem_of_fmap in Hin as (ch & Hp & Hch). symmetry in Hp.
    apply yesterdayCandidate_Some in Hp as (Hel & t & Hlatest & ->);
      [|done|by eapply wellFormedFleet_elem].
    exists ch, t. repeat split; try done; try apply Hel. right.
    split; [done|]. split; [done|].
    intros ch' t' Hch' Hel' Hlatest'.
    apply (Hmax {| pickChannelId := id ch'; pickTimeSlot := t';
                   pickMinutes := timeValue t' |}).
    apply list_elem_of_fmap. exists ch'. split; [|done].
    symmetry. apply yesterdayCandidate_Some; [done|by eapply wellFormedFleet_elem|].
    split; [done|]. by exists t'.
  - rename H into Hnone2. intros ch t Hch Hel Hs.
    destruct Hs as (l & s & Hl & Hs).
    destruct (last (enabledTimes l)) as [x|] eqn:Hx.
    + apply (Hnone2 {| pickChannelId := id ch; pickTimeSlot := x;
                       pickMinutes := timeValue x |}).
      apply list_elem_of_fmap. exists ch. split; [|done].
      symmetry. apply yesterdayCandidate_Some; [done|by eapply wellFormedFleet_elem|].
      split; [done|]. exists x. split; [|done].
      apply (last_enabledTimes ch l); [done|by eapply wellFormedFleet_elem|done].
    + apply last_None in Hx.
      assert (Hin : t ∈ enabledTimes l).
      { apply (enabledSlot_iff ch l); [done|by eapply wellFormedFleet_elem|].
        by exists l, s. }
      rewrite Hx in Hin. by apply elem_of_nil in Hin.
Qed.

End FleetProperties.

(** ** The previous pick *)

Section PreviousPick.

Variable hhmmToMinutes : string -> number.

Hypothesis hhmm_wf :
  forall s, wellFormedTime s = true -> hhmmToMinutes s = Num (timeValue s).

(** The third and fourth accumulators, in terms of [previousChoice]. *)
Lemma pickPrevious_choice channels now w cur :
  wellFormedFleet channels = true ->
  match pickPrevious hhmmToMinutes channels now w cur with
  | Some p =>
      exists ch t, pickChannelId p = id ch /\ pickTimeSlot p = t /\
        previousChoice channels cur (validInterval w) now ch t
  | None =>
      forall ch t, ch ∈ channels -> eligible cur ch -> ~ enabledSlot ch t
  end.
Proof.
  intros Hwf.
  pose proof (pickPrevious_spec hhmmToMinutes hhmm_wf channels now w cur Hwf) as H.
  cbv zeta in H.
  destruct (pickPrevious hhmmToMinutes channels now w cur) as [p|]; [|exact H].
  destruct H as (ch & t & Hch & Hel & Hid & Ht & Hcases).
  exists ch, t. unfold previousChoice. auto.
Qed.

(** A channel reported [previous] is the channel of the choice, with
    the chosen slot, and is not the next pick. *)
Lemma reported_previous_is_choice channels now w k info :
  wellFormedFleet channels = true ->
  calculateChannelStatesAt hhmmToMinutes now channels w !! k = Some info ->
  state info = previous ->
  exists ch t,
    id ch = k /\ timeSlot info = Some t /\
    isPicked (pickNext hhmmToMinutes channels now w
                (pickCurrent hhmmToMinutes channels now w)) ch = false /\
    previousChoice channels (pickCurrent hhmmToMinutes channels now w)
      (validInterval w) now ch t.
Proof.
  intros Hwf Hk Hst.
  set (cur := pickCurrent hhmmToMinutes channels now w) in *.
  set (nxt := pickNext hhmmToMinutes channels now w cur) in *.
  pose proof (pickPrevious_choice channels now w cur Hwf) as Hprev.
  unfold calculateChannelStatesAt in Hk. fold cur nxt in Hk.
  set (prv := pickPrevious hhmmToMinutes channels now w cur) in *.
  apply applyStates_lookup in Hk as (c & Hc & <- & ->).
  apply finalInfo_previous in Hst as Hpicked. destruct Hpicked as (Hnc & Hnn & Hp).
  apply isPicked_true in Hp as Hp'. destruct Hp' as (p & Hprv & Hid).
  rewrite Hprv in Hprev.
  destruct Hprev as (ch & t & Hpid & Hpt & Hchoice).
  exists ch, t. split; [congruence|]. split.
  - unfold finalInfo. rewrite Hnc, Hnn, Hp. simpl. rewrite Hprv. simpl. by rewrite Hpt.
  - split; [|exact Hchoice].
    rewrite <- Hnn. apply isPicked_id. congruence.
Qed.

(** Whenever a channel other than the current pick, with automation
    on, has an enabled slot, a choice exists, and its channel is
    reported [previous] with the chosen slot unless it is the next
    pick, in which case it is reported [next] and no channel is
    reported [previous]. *)
Lemma choice_is_reported channels now w ch t :
  wellFormedFleet channels = true ->
  ch ∈ channels -> eligible (pickCurrent hhmmToMinutes channels now w) ch ->
  enabledSlot ch t ->
  exists chp tp,
    previousChoice channels (pickCurrent hhmmToMinutes channels now w)
      (validInterval w) now chp tp /\
    (isPicked (pickNext hhmmToMinutes channels now w
                 (pickCurrent hhmmToMinutes channels now w)) chp = false ->
     calculateChannelStatesAt hhmmToMinutes now channels w !! id chp =
       Some {| channelId := id chp; state := previous; timeSlot := Some tp |}) /\
    (isPicked (pickNext hhmmToMinutes channels now w
                 (pickCurrent hhmmToMinutes channels now w)) chp = true ->
     (exists info,
        calculateChannelStatesAt hhmmToMinutes now channels w !! id chp = Some info /\
        state info = next) /\
     forall k info,
       calculateChannelStatesAt hhmmToMinutes now channels w !! k = Some info ->
       state info <> previous).
Proof.
  intros Hwf Hch Hel Hslot.
  set (cur := pickCurrent hhmmToMinutes channels now w) in *.
  set (nxt := pickNext hhmmToMinutes channels now w cur) in *.
  pose proof (pickPrevious_choice channels now w cur Hwf) as Hprev.
  unfold calculateChannelStatesAt. fold cur nxt.
  set (prv := pickPrevious hhmmToMinutes channels now w cur) in *.
  destruct prv as [p|] eqn:Hprv; [|by destruct (Hprev ch t)].
  destruct Hprev as (chp & tp & Hpid & Hpt & Hchoice).
  exists chp, tp. split; [exact Hchoice|].
  destruct Hchoice as (Hchp & [Hncur _] & _).
  assert (Hpicked : isPicked (Some p) chp = true)
    by (apply isPicked_true; eauto).
  split.
  - intros Hnn. apply applyStates_lookup. exists chp. split; [done|]. split; [done|].
    unfold finalInfo. rewrite Hncur, Hnn, Hpicked. simpl. by rewrite Hpt.
  - intros Hn. split.
    + exists (finalInfo cur nxt (Some p) chp). split.
      * apply applyStates_lookup. by exists chp.
      * apply finalInfo_next. by split.
    + intros k info Hk Hst.
      apply applyStates_lookup in Hk as (c & Hc & <- & ->).
      apply finalInfo_previous in Hst as (_ & Hnn & Hp).
      apply isPicked_true in Hp as (p' & [= <-] & Hid).
      rewrite (isPicked_id nxt c chp) in Hnn by congruence. congruence.
Qed.

(** C7 (as amended). Over the channels other than the current pick
    that have automation on, the third and fourth loops choose the slot
    with the largest [T] among the enabled slots whose window has
    already ended today ([now >= T + W] without wrap,
    [(T + W) mod 1440 <= now < T] with wrap) or, when no slot ended
    today, the largest among the channels' latest slots. A channel
    reported [previous] is the channel of that choice, with that slot.
    Whenever such a channel has an enabled slot, a choice exists, and
    its channel is reported [previous] with the chosen slot unless it
    is also the next pick; then it is reported [next] and no channel is
    reported [previous]. *)
Theorem global_previous_is_latest_ended channels now w :
  wellFormedFleet channels = true ->
  let states := calculateChannelStatesAt hhmmToMinutes now channels w in
  let cur := pickCurrent hhmmToMinutes channels now w in
  let nxt := pickNext hhmmToMinutes channels now w cur in
  let W := validInterval w in
  (forall k info,
     states !! k = Some info -> state info = previous ->
     exists ch t,
       id ch = k /\ timeSlot info = Some t /\ isPicked nxt ch = false /\
       previousChoice channels cur W now ch t) /\
  (forall ch t,
     ch ∈ channels -> eligible cur ch -> enabledSlot ch t ->
     exists chp tp,
       previousChoice channels cur W now chp tp /\
       (isPicked nxt chp = false ->
        states !! id chp =
          Some {| channelId := id chp; state := previous; timeSlot := Some tp |}) /\
       (isPicked nxt chp = true ->
        (exists info, states !! id chp = Some info /\ state info = next) /\
        forall k info, states !! k = Some info -> state info <> previous)) /\
  (forall T, T + W < 1440 -> (isPast T W now = true <-> now >= T + W)) /\
  (forall T, T + W >= 1440 ->
     (isPast T W now = true <-> (T + W) mod 1440 <= now < T)).
Proof.
  intros Hwf states cur nxt W. subst states cur nxt W.
  split; [|split; [|split]].
  - intros k info Hk Hst. by apply reported_previous_is_choice.
  - intros ch t Hch Hel Hslot. by apply (choice_is_reported channels now w ch t).
  - intros T HT. by apply isPast_nowrap.
  - intros T HT. by apply isPast_wrap.
Qed.

End PreviousPick.

(** ** Independence from the parser on malformed strings *)

Section ParserIndependence.

Variables f g : string -> number.

Hypothesis agree : forall s, wellFormedTime s = true -> f s = g s.

Lemma findActive_agree times now w :
  (forall x, x ∈ times -> wellFormedTime x = true) ->
  findActive f times now w = findActive g times now w.
Proof.
  induction times as [|x rest IH]; intros Hwf; simpl; [done|].
  rewrite agree by (apply Hwf; left).
  rewrite IH by (intros; apply Hwf; by right). done.
Qed.

Lemma findUpcoming_agree times now :
  (forall x, x ∈ times -> wellFormedTime x = true) ->
  findUpcoming f times now = findUpcoming g times now.
Proof.
  induction times as [|x rest IH]; intros Hwf; simpl; [done|].
  rewrite agree by (apply Hwf; left).
  rewrite IH by (intros; apply Hwf; by right). done.
Qed.

Lemma getChannelState_agree ch now w :
  wellFormedChannel ch = true ->
  getChannelState f ch now w = getChannelState g ch now w.
Proof.
  intros Hwf. unfold getChannelState, wellFormedChannel in *.
  destruct (autoSendSchedules ch) as [l|]; [|done].
  destruct (_ || _); [done|].
  assert (Hall : forall x, x ∈ enabledTimes l -> wellFormedTime x = true)
    by (intros; by eapply enabledTimes_wf).
  destruct (enabledTimes l) as [|first rest] eqn:Ht; [done|].
  cbv zeta. by rewrite findActive_agree, findUpcoming_agree.
Qed.

Lemma getChannelState_slot_wf ch now w st t :
  wellFormedChannel ch = true ->
  getChannelState g ch now w = (st, Some t) -> wellFormedTime t = true.
Proof.
  intros Hwf Hst. apply getChannelState_slot in Hst as (_ & l & Hl & Hin).
  unfold wellFormedChannel in Hwf. rewrite Hl in Hwf. by eapply enabledTimes_wf.
Qed.

Lemma currentStep_agree now w acc ch :
  wellFormedChannel ch = true ->
  currentStep f now w acc ch = currentStep g now w acc ch.
Proof.
  intros Hwf. unfold currentStep. rewrite getChannelState_agree by done.
  destruct (getChannelState g ch now w) as [st [t|]] eqn:Hst; [|done].
  by rewrite (agree t) by (by eapply getChannelState_slot_wf).
Qed.

Lemma nextStep_agree now w cur acc ch :
  wellFormedChannel ch = true ->
  nextStep f now w cur acc ch = nextStep g now w cur acc ch.
Proof.
  intros Hwf. unfold nextStep. rewrite getChannelState_agree by done.
  destruct (getChannelState g ch now w) as [st [t|]] eqn:Hst; [|done].
  by rewrite (agree t) by (by eapply getChannelState_slot_wf).
Qed.

Lemma eligibleSchedules_wf ch l x :
  wellFormedChannel ch = true -> eligibleSchedules ch = Some l ->
  x ∈ enabledTimes l -> wellFormedTime x = true.
Proof.
  intros Hwf [_ Hl]%eligibleSchedules_Some Hx.
  unfold wellFormedChannel in Hwf. rewrite Hl in Hwf. by eapply enabledTimes_wf.
Qed.

Lemma previousStep_agree now w cur acc ch :
  wellFormedChannel ch = true ->
  previousStep f now w cur acc ch = previousStep g now w cur acc ch.
Proof.
  intros Hwf. unfold previousStep.
  destruct (isPicked cur ch); [done|].
  destruct (eligibleSchedules ch) as [l|] eqn:Hel; [|done].
  assert (Hall : forall x, x ∈ enabledTimes l -> wellFormedTime x = true)
    by (intros; by eapply eligibleSchedules_wf).
  revert acc. induction (enabledTimes l) as [|x rest IH]; intros acc; simpl; [done|].
  unfold previousSlotStep at 2 4. rewrite agree by (apply Hall; left).
  apply IH. intros; apply Hall; by right.
Qed.

Lemma yesterdayStep_agree cur acc ch :
  wellFormedChannel ch = true ->
  yesterdayStep f cur acc ch = yesterdayStep g cur acc ch.
Proof.
  intros Hwf. unfold yesterdayStep.
  destruct (isPicked cur ch); [done|].
  destruct (eligibleSchedules ch) as [l|] eqn:Hel; [|done].
  destruct (last (enabledTimes l)) as [x|] eqn:Hx; [|done].
  by rewrite agree by (eapply eligibleSchedules_wf; eauto using last_Some_elem_of).
Qed.

Lemma foldl_agree {A B} (s1 s2 : A -> B -> A) (P : B -> Prop) l :
  (forall a x, P x -> s1 a x = s2 a x) -> (forall x, x ∈ l -> P x) ->
  forall a, foldl s1 a l = foldl s2 a l.
Proof.
  intros Hs. induction l as [|x l IH]; intros HP a; simpl; [done|].
  rewrite Hs by (apply HP; left). apply IH. intros; apply HP; by right.
Qed.

(** On a fleet of well-formed channels the classification depends on
    the parser only through its values on well-formed times. *)
Lemma calculateChannelStatesAt_agree now channels w :
  wellFormedFleet channels = true ->
  calculateChannelStatesAt f now channels w = calculateChannelStatesAt g now channels w.
Proof.
  intros Hwf.
  assert (HP : forall x, x ∈ channels -> wellFormedChannel x = true)
    by (intros; by eapply wellFormedFleet_elem).
  unfold calculateChannelStatesAt.
  assert (pickCurrent f channels now w = pickCurrent g channels now w) as ->.
  { unfold pickCurrent. apply (foldl_agree _ _ _ _ (fun a x => currentStep_agree now w a x) HP). }
  assert (forall cur, pickNext f channels now w cur = pickNext g channels now w cur) as Hn.
  { intros cur. unfold pickNext.
    apply (foldl_agree _ _ _ _ (fun a x => nextStep_agree now w cur a x) HP). }
  assert (forall cur, pickPrevious f channels now w cur = pickPrevious g channels now w cur) as Hp.
  { intros cur. unfold pickPrevious.
    rewrite (foldl_agree _ _ _ _
      (fun a x => previousStep_agree now (validInterval w) cur a x) HP).
    by rewrite (foldl_agree _ _ _ _ (fun a x => yesterdayStep_agree cur a x) HP). }
  by rewrite Hn, Hp.
Qed.

End ParserIndependence.

(** ** The two-slot scenario *)

Lemma calculateChannelStatesAt_single h now i times w :
  wellFormedFleet [channelWith i times] = true ->
  (forall s, wellFormedTime s = true -> h s = Num (timeValue s)) ->
  calculateChannelStatesAt h now [channelWith i times] w !! i =
  Some (finalInfo
          (pickCurrent hhmmToMinutesModel [channelWith i times] now w)
          (pickNext hhmmToMinutesModel [channelWith i times] now w
             (pickCurrent hhmmToMinutesModel [channelWith i times] now w))
          (pickPrevious hhmmToMinutesModel [channelWith i times] now w
             (pickCurrent hhmmToMinutesModel [channelWith i times] now w))
          (channelWith i times)).
Proof.
  intros Hwf Hh.
  rewrite (calculateChannelStatesAt_agree h hhmmToMinutesModel); [|
    intros s Hs; by rewrite Hh, hhmmToMinutesModel_wf | done].
  apply applyStates_lookup. exists (channelWith i times).
  split; [left | done].
Qed.

(** C4 (as amended). A fleet of one automation-enabled channel with
    enabled slots at 08:00 and 20:00 and window 11: at 08:05 the channel
    is reported [current] with slot 08:00; at 19:00 it is reported
    [next] with slot 20:00; at 23:00 it is reported [next] with slot
    08:00 (tomorrow's first slot). *)
Theorem two_slot_scenario (hhmmToMinutes : string -> number) (i : string) :
  (forall s, wellFormedTime s = true -> hhmmToMinutes s = Num (timeValue s)) ->
  let fleet := [channelWith i ["08:00"; "20:00"]] in
  calculateChannelStates hhmmToMinutes 8 5 fleet (Some (Num 11)) !! i =
    Some {| channelId := i; state := current; timeSlot := Some "08:00" |} /\
  calculateChannelStates hhmmToMinutes 19 0 fleet (Some (Num 11)) !! i =
    Some {| channelId := i; state := next; timeSlot := Some "20:00" |} /\
  calculateChannelStates hhmmToMinutes 23 0 fleet (Some (Num 11)) !! i =
    Some {| channelId := i; state := next; timeSlot := Some "08:00" |}.
Proof.
  intros Hh fleet. subst fleet. unfold calculateChannelStates.
  rewrite !calculateChannelStatesAt_single by done.
  repeat split; f_equal.
  - change (pickCurrent hhmmToMinutesModel [channelWith i ["08:00"; "20:00"]] (8 * 60 + 5) (Num 11))
      with (Some {| pickChannelId := i; pickTimeSlot := "08:00"; pickMinutes := 480 |}).
    unfold finalInfo, isPicked. simpl. by rewrite String.eqb_refl.
  - change (pickCurrent hhmmToMinutesModel [channelWith i ["08:00"; "20:00"]] (19 * 60 + 0) (Num 11))
      with (@None Pick).
    change (pickNext hhmmToMinutesModel [channelWith i ["08:00"; "20:00"]] (19 * 60 + 0) (Num 11) None)
      with (Some {| pickChannelId := i; pickTimeSlot := "20:00"; pickMinutes := 1200 |}).
    unfold finalInfo, isPicked. simpl. by rewrite String.eqb_refl.
  - change (pickCurrent hhmmToMinutesModel [channelWith i ["08:00"; "20:00"]] (23 * 60 + 0) (Num 11))
      with (@None Pick).
    change (pickNext hhmmToMinutesModel [channelWith i ["08:00"; "20:00"]] (23 * 60 + 0) (Num 11) None)
      with (Some {| pickChannelId := i; pickTimeSlot := "08:00"; pickMinutes := 1920 |}).
    unfold finalInfo, isPicked. simpl. by rewrite String.eqb_refl.
Qed.

(** ** Concrete instances *)

Lemma active_window_test_witness :
  (getChannelState hhmmToMinutesModel lateChannel 5 (Num 20)).1 = current <->
  exists t, enabledSlot lateChannel t /\
            isActive (timeValue t) (validInterval (Num 20)) 5 = true.
Proof.
  apply (active_window_test hhmmToMinutesModel hhmmToMinutesModel_wf);
    reflexivity.
Defined.

(** At 08:07 both 08:00 and 08:05 are active under window 11, and the
    channel reports 08:00, the smaller of the two. *)
Lemma earliest_active_slot_reported :
  isActive (timeValue "08:00") (validInterval (Num 11)) 487 = true /\
  isActive (timeValue "08:05") (validInterval (Num 11)) 487 = true /\
  timeValue "08:00" < timeValue "08:05" /\
  getChannelState hhmmToMinutesModel overlapChannel 487 (Num 11)
  = (current, Some "08:00"%string).
Proof. repeat split. Qed.

Lemma current_slot_is_earliest_active_witness :
  exists t,
    getChannelState hhmmToMinutesModel overlapChannel 487 (Num 11) = (current, Some t) /\
    enabledSlot overlapChannel t /\
    isActive (timeValue t) (validInterval (Num 11)) 487 = true /\
    forall t', enabledSlot overlapChannel t' ->
               isActive (timeValue t') (validInterval (Num 11)) 487 = true ->
               timeValue t <= timeValue t'.
Proof.
  apply (current_slot_is_earliest_active hhmmToMinutesModel hhmmToMinutesModel_wf);
    [reflexivity | reflexivity |].
  exists "08:05"%string. split; [|reflexivity].
  apply enabledSlot_channelWith. right. left.
Defined.

Lemma next_slot_when_idle_witness :
  exists t,
    getChannelState hhmmToMinutesModel scenarioChannel 600 (Num 11) = (next, Some t) /\
    enabledSlot scenarioChannel t /\ 600 < timeValue t /\
    forall t', enabledSlot scenarioChannel t' -> 600 < timeValue t' ->
               timeValue t <= timeValue t'.
Proof.
  destruct (next_slot_when_idle hhmmToMinutesModel hhmmToMinutesModel_wf) as [Hgen _].
  destruct (Hgen scenarioChannel 600 (Num 11)) as [Hup _]; [reflexivity | reflexivity | |].
  - intros t Ht. apply enabledSlot_channelWith in Ht.
    apply elem_of_cons in Ht as [->|Ht]; [reflexivity|].
    apply list_elem_of_singleton in Ht as ->. reflexivity.
  - apply Hup. exists "20:00"%string. split; [|reflexivity].
    apply enabledSlot_channelWith. right. left.
Defined.

(** At 23:00 the single channel of the scenario is reported [next]
    with slot 08:00, and no channel is reported [previous]. *)
Lemma scenario_at_2300_reports_next :
  calculateChannelStates hhmmToMinutesModel 23 0 [scenarioChannel] (Some (Num 11)) !! "ch"
  = Some {| channelId := "ch"; state := next; timeSlot := Some "08:00"%string |} /\
  reported previous
    (calculateChannelStates hhmmToMinutesModel 23 0 [scenarioChannel] (Some (Num 11))) = [].
Proof. split; vm_compute; reflexivity. Qed.

Lemma two_slot_scenario_witness :
  calculateChannelStates hhmmToMinutesModel 8 5 [scenarioChannel] (Some (Num 11)) !! "ch" =
    Some {| channelId := "ch"; state := current; timeSlot := Some "08:00"%string |} /\
  calculateChannelStates hhmmToMinutesModel 19 0 [scenarioChannel] (Some (Num 11)) !! "ch" =
    Some {| channelId := "ch"; state := next; timeSlot := Some "20:00"%string |} /\
  calculateChannelStates hhmmToMinutesModel 23 0 [scenarioChannel] (Some (Num 11)) !! "ch" =
    Some {| channelId := "ch"; state := next; timeSlot := Some "08:00"%string |}.
Proof.
  exact (two_slot_scenario hhmmToMinutesModel "ch" hhmmToMinutesModel_wf).
Defined.

Lemma global_next_is_soonest_witness :
  exists ch t,
    ch ∈ pairFleet /\ id ch = "b"%string /\
    isPicked (pickCurrent hhmmToMinutesModel pairFleet 1380 (Num 11)) ch = false /\
    Some "07:00"%string = Some t /\
    getChannelState hhmmToMinutesModel ch 1380 (Num 11) = (next, Some t) /\
    forall ch' t', ch' ∈ pairFleet ->
      isPicked (pickCurrent hhmmToMinutesModel pairFleet 1380 (Num 11)) ch' = false ->
      getChannelState hhmmToMinutesModel ch' 1380 (Num 11) = (next, Some t') ->
      minutesUntil (timeValue t) 1380 <= minutesUntil (timeValue t') 1380.
Proof.
  destruct (global_next_is_soonest hhmmToMinutesModel hhmmToMinutesModel_wf
              pairFleet 1380 (Num 11) eq_refl) as [Hnext _].
  apply (Hnext "b"%string
           {| channelId := "b"; state := next; timeSlot := Some "07:00"%string |});
    [vm_compute; reflexivity | reflexivity].
Defined.

(** The procedure chooses the slot 08:00 of the only channel, which
    ended today, but the channel is reported [next] (its 08:00 slot,
    tomorrow) and no channel is reported [previous]. *)
Lemma ended_slot_reported_next :
  isPast (timeValue "08:00") 11 720 = true /\
  pickPrevious hhmmToMinutesModel soloFleet 720 (Num 11)
    (pickCurrent hhmmToMinutesModel soloFleet 720 (Num 11)) =
    Some {| pickChannelId := "a"; pickTimeSlot := "08:00"; pickMinutes := 480 |} /\
  calculateChannelStatesAt hhmmToMinutesModel 720 soloFleet (Num 11) !! "a" =
    Some {| channelId := "a"; state := next; timeSlot := Some "08:00" |} /\
  reported previous (calculateChannelStatesAt hhmmToMinutesModel 720 soloFleet (Num 11)) = [].
Proof. repeat split; vm_compute; reflexivity. Qed.

Lemma global_previous_is_latest_ended_witness :
  wellFormedFleet relayFleet = true /\
  calculateChannelStatesAt hhmmToMinutesModel 1380 relayFleet (Num 11) !! "b" =
    Some {| channelId := "b"; state := previous; timeSlot := Some "20:00" |} /\
  (exists ch t,
     id ch = "b" /\ t = "20:00" /\
     previousChoice relayFleet (pickCurrent hhmmToMinutesModel relayFleet 1380 (Num 11))
       (validInterval (Num 11)) 1380 ch t) /\
  (exists chp tp,
     previousChoice relayFleet (pickCurrent hhmmToMinutesModel relayFleet 1380 (Num 11))
       (validInterval (Num 11)) 1380 chp tp).
Proof.
  destruct (global_previous_is_latest_ended hhmmToMinutesModel hhmmToMinutesModel_wf
              relayFleet 1380 (Num 11) eq_refl) as (Hprev & Hexists & _).
  assert (Hb : calculateChannelStatesAt hhmmToMinutesModel 1380 relayFleet (Num 11) !! "b" =
               Some {| channelId := "b"; state := previous; timeSlot := Some "20:00" |})
    by (vm_compute; reflexivity).
  split; [reflexivity|]. split; [exact Hb|]. split.
  - destruct (Hprev "b"%string _ Hb eq_refl) as (ch & t & Hid & Ht & _ & Hchoice).
    exists ch, t. split; [exact Hid|]. split; [|exact Hchoice].
    simpl in Ht. congruence.
  - destruct (Hexists (channelWith "a" ["08:00"]) "08:00"%string) as (chp & tp & Hc & _).
    + left.
    + split; [vm_compute; reflexivity | reflexivity].
    + apply enabledSlot_channelWith. left.
    + by exists chp, tp.
Defined.

(** ** The tick processor *)

Module TickFacts.

Import Tick.





Section Processor.

Variable generate : string -> string -> Instant -> nat -> bool.

Variable updateSlotLastFired : string -> string -> Instant -> bool.










(** *** One slot and one tick *)






End Processor.

Section Run.

Variable generateAt : nat -> string -> string -> Instant -> nat -> bool.

Variable updateAt : nat -> string -> string -> Instant -> bool.



(** *** One slot over successive ticks *)



End Run.

(** *** Two invocations with the same instant *)





End TickFacts.

(** * Further properties of the classifier *)

(** ** Active and ended never overlap *)

(** X5. A slot is never both active and already ended; and it is
    neither exactly when its window does not wrap and [now] lies before
    the slot (and before the end of its window). *)
Theorem active_and_ended_exclusive T W now :
  isActive T W now && isPast T W now = false /\
  (isActive T W now || isPast T W now = false <->
   T + W < 1440 /\ now < T /\ now < T + W).
Proof.
  unfold isActive, isPast. cbv zeta.
  destruct (Z.ltb_spec (T + W) 1440).
  - destruct (Z.leb_spec T now), (Z.ltb_spec now (T + W)), (Z.geb_spec now (T + W));
      simpl; split; try done; try lia; split; try discriminate; lia.
  - destruct (Z.geb_spec now T), (Z.ltb_spec now (Z.rem (T + W) 1440)),
      (Z.geb_spec now (Z.rem (T + W) 1440)), (Z.ltb_spec now T);
      simpl; split; try done; try lia; split; try discriminate; lia.
Qed.

(** ** The state of a channel, whatever the parser does *)

Lemma enabledTimes_nil l :
  enabledTimes l = [] <->
  forall s, s ∈ l -> enabled s = true -> time s = ""%string.
Proof.
  split.
  - intros Hnil s Hs He. destruct (String.eqb_spec (time s) "") as [|Hne]; [done|].
    assert (Hin : time s ∈ enabledTimes l).
    { apply elem_of_enabledTimes. exists s. repeat split; auto.
      unfold truthy. apply negb_true_iff. by apply String.eqb_neq. }
    rewrite Hnil in Hin. by apply elem_of_nil in Hin.
  - intros H. destruct (enabledTimes l) as [|t rest] eqn:Ht; [done|].
    assert (Hin : t ∈ enabledTimes l) by (rewrite Ht; left).
    apply elem_of_enabledTimes in Hin as (s & Hs & He & Htr & <-).
    rewrite (H s Hs He) in Htr. discriminate.
Qed.

Lemma findActive_unparsed h times now w :
  (forall x, x ∈ times -> h x = NaN) -> findActive h times now w = None.
Proof.
  induction times as [|x xs IH]; intros Hall; simpl; [done|].
  rewrite (Hall x) by left. apply IH. intros; apply Hall; by right.
Qed.

Lemma findUpcoming_unparsed h times now :
  (forall x, x ∈ times -> h x = NaN) -> findUpcoming h times now = None.
Proof.
  induction times as [|x xs IH]; intros Hall; simpl; [done|].
  rewrite (Hall x) by left. apply IH. intros; apply Hall; by right.
Qed.

(** X4. Whatever the parser returns, a channel is [default] exactly
    when automation is off or it has no enabled slot with a non-empty
    time. In particular a channel all of whose times fail to parse is
    still reported [next], with the first of its times in sort order. *)
Theorem default_iff_no_slot hhmmToMinutes ch now w :
  ((getChannelState hhmmToMinutes ch now w).1 = default <->
   ~ (automationOn ch /\ exists t, t <> ""%string /\ enabledSlot ch t)) /\
  (automationOn ch ->
   (forall t, enabledSlot ch t -> hhmmToMinutes t = NaN) ->
   forall l first rest,
     autoSendSchedules ch = Some l -> enabledTimes l = first :: rest ->
     getChannelState hhmmToMinutes ch now w = (next, Some first)).
Proof.
  split.
  - destruct (decide (automationOn ch)) as [Hon|Hoff].
    2:{ rewrite getChannelState_off by done. simpl. split; [|done].
        by intros _ [? _]. }
    destruct (autoSendSchedules ch) as [l|] eqn:Hl.
    2:{ unfold getChannelState. rewrite Hl. simpl. split; [|done].
        intros _ (_ & t & _ & (l & s & Hl' & _)). congruence. }
    rewrite (getChannelState_eligible _ ch l) by done.
    destruct (enabledTimes l) as [|first rest] eqn:Ht.
    + simpl. split; [|done]. intros _ (_ & t & Hne & (l' & s & Hl' & Hs & He & Hts)).
      assert (l' = l) as -> by congruence.
      apply Hne. rewrite <- Hts. by apply (proj1 (enabledTimes_nil l) Ht).
    + split.
      * destruct (findActive _ _ _ _); [discriminate|].
        destruct (findUpcoming _ _ _); discriminate.
      * intros Hno. exfalso. apply Hno. split; [done|].
        assert (Hin : first ∈ enabledTimes l) by (rewrite Ht; left).
        apply elem_of_enabledTimes in Hin as (s & Hs & He & Htr & <-).
        exists (time s). split; [|by exists l, s].
        intros Hempty. rewrite Hempty in Htr. discriminate.
  - intros Hon Hnan l first rest Hl Ht.
    rewrite (getChannelState_eligible _ ch l), Ht by done. rewrite <- Ht.
    assert (Hall : forall x, x ∈ enabledTimes l -> hhmmToMinutes x = NaN).
    { intros x Hx. apply Hnan. apply elem_of_enabledTimes in Hx as (s & ? & ? & _ & <-).
      by exists l, s. }
    by rewrite findActive_unparsed, findUpcoming_unparsed.
Qed.

(** ** What the result map holds *)

(** X2. The result map has exactly one entry per channel id of the
    fleet, and each entry repeats its key as [channelId]. *)
Theorem result_has_one_entry_per_channel hhmmToMinutes now channels w :
  dom (calculateChannelStatesAt hhmmToMinutes now channels w)
  = list_to_set (id <$> channels) /\
  forall k info,
    calculateChannelStatesAt hhmmToMinutes now channels w !! k = Some info ->
    channelId info = k.
Proof.
  unfold calculateChannelStatesAt. split.
  - apply set_eq. intros k. rewrite elem_of_dom, elem_of_list_to_set, list_elem_of_fmap.
    split.
    + intros [info Hk]. apply applyStates_lookup in Hk as (ch & Hch & <- & _). eauto.
    + intros (ch & -> & Hch). eexists. apply applyStates_lookup. eauto.
  - intros k info Hk. apply applyStates_lookup in Hk as (ch & _ & <- & ->).
    unfold finalInfo. by repeat destruct (isPicked _ ch).
Qed.

Lemma getChannelState_enabledSlot h ch now w st t :
  getChannelState h ch now w = (st, Some t) ->
  automationOn ch /\ enabledSlot ch t /\ t <> ""%string.
Proof.
  intros Hst. apply getChannelState_slot in Hst as (Hon & l & Hl & Hin).
  apply elem_of_enabledTimes in Hin as (s & Hs & He & Htr & <-).
  split; [done|]. split; [by exists l, s|].
  intros Hempty. rewrite Hempty in Htr. discriminate.
Qed.

Lemma currentCandidate_origin h now w ch p :
  currentCandidate h now w ch = Some p ->
  pickChannelId p = id ch /\
  getChannelState h ch now w = (current, Some (pickTimeSlot p)).
Proof.
  unfold currentCandidate.
  destruct (getChannelState h ch now w) as [[] [t|]]; try discriminate.
  destruct (truthy t); [|discriminate].
  destruct (h t); [discriminate|]. by intros [= <-].
Qed.

Lemma nextCandidate_origin h now w cur ch p :
  nextCandidate h now w cur ch = Some p ->
  pickChannelId p = id ch /\ isPicked cur ch = false /\
  getChannelState h ch now w = (next, Some (pickTimeSlot p)).
Proof.
  unfold nextCandidate. destruct (isPicked cur ch); [discriminate|].
  destruct (getChannelState h ch now w) as [[] [t|]]; try discriminate.
  destruct (truthy t); [|discriminate].
  destruct (h t); [discriminate|]. by intros [= <-].
Qed.

Lemma eligible_enabledSlot ch l t :
  eligibleSchedules ch = Some l -> t ∈ enabledTimes l ->
  automationOn ch /\ enabledSlot ch t /\ t <> ""%string.
Proof.
  intros [Hon Hl]%eligibleSchedules_Some Hin.
  apply elem_of_enabledTimes in Hin as (s & Hs & He & Htr & <-).
  split; [done|]. split; [by exists l, s|].
  intros Hempty. rewrite Hempty in Htr. discriminate.
Qed.

Lemma endedCandidates_origin h now W cur ch p :
  Some p ∈ endedCandidates h now W cur ch ->
  pickChannelId p = id ch /\ isPicked cur ch = false /\
  automationOn ch /\ enabledSlot ch (pickTimeSlot p) /\ pickTimeSlot p <> ""%string.
Proof.
  unfold endedCandidates. destruct (isPicked cur ch); [by intros ?%elem_of_nil|].
  destruct (eligibleSchedules ch) as [l|] eqn:Hel; [|by intros ?%elem_of_nil].
  intros (t & Hp & Hin)%list_elem_of_fmap. unfold endedCandidate in Hp.
  destruct (h t) as [|m]; [discriminate|].
  destruct (isPast m W now); [|discriminate]. inversion Hp; subst. simpl.
  split; [done|]. split; [done|]. by eapply eligible_enabledSlot.
Qed.

Lemma yesterdayCandidate_origin h cur ch p :
  yesterdayCandidate h cur ch = Some p ->
  pickChannelId p = id ch /\ isPicked cur ch = false /\
  automationOn ch /\ enabledSlot ch (pickTimeSlot p) /\ pickTimeSlot p <> ""%string.
Proof.
  unfold yesterdayCandidate. destruct (isPicked cur ch); [discriminate|].
  destruct (eligibleSchedules ch) as [l|] eqn:Hel; [|discriminate].
  destruct (last (enabledTimes l)) as [t|] eqn:Hlast; [|discriminate].
  destruct (h t) as [|m]; [discriminate|]. intros [= <-]. simpl.
  split; [done|]. split; [done|].
  eapply eligible_enabledSlot; eauto using last_Some_elem_of.
Qed.

(** Every pick names a channel of the fleet and one of its slots. *)
Lemma picks_origin h now channels w :
  let cur := pickCurrent h channels now w in
  forall p,
    cur = Some p \/ pickNext h channels now w cur = Some p \/
    pickPrevious h channels now w cur = Some p ->
    exists ch, ch ∈ channels /\ pickChannelId p = id ch /\ automationOn ch /\
               enabledSlot ch (pickTimeSlot p) /\ pickTimeSlot p <> ""%string.
Proof.
  intros cur p [Hp|[Hp|Hp]].
  - subst cur. unfold pickCurrent in Hp.
    rewrite (foldl_keepBest_fmap Z.gtb _ (currentCandidate h now w)) in Hp
      by (intros; apply currentStep_keepBest).
    pose proof (foldl_keepBest_max (currentCandidate h now w <$> channels)) as H.
    rewrite Hp in H. destruct H as [Hin _].
    apply list_elem_of_fmap in Hin as (ch & Hc & Hch). symmetry in Hc.
    apply currentCandidate_origin in Hc as [Hid Hst].
    apply getChannelState_enabledSlot in Hst. exists ch. tauto.
  - unfold pickNext in Hp.
    rewrite (foldl_keepBest_fmap Z.ltb _ (nextCandidate h now w cur)) in Hp
      by (intros; apply nextStep_keepBest).
    pose proof (foldl_keepBest_min (nextCandidate h now w cur <$> channels)) as H.
    rewrite Hp in H. destruct H as [Hin _].
    apply list_elem_of_fmap in Hin as (ch & Hc & Hch). symmetry in Hc.
    apply nextCandidate_origin in Hc as (Hid & _ & Hst).
    apply getChannelState_enabledSlot in Hst. exists ch. tauto.
  - unfold pickPrevious in Hp.
    rewrite (foldl_keepBest_bind Z.gtb _ (endedCandidates h now (validInterval w) cur)) in Hp
      by (intros; apply previousStep_keepBest).
    pose proof (foldl_keepBest_max
      (channels ≫= endedCandidates h now (validInterval w) cur)) as H.
    destruct (foldl _ _ (channels ≫= _)) as [q|].
    + inversion Hp; subst q. destruct H as [Hin _].
      apply list_elem_of_bind in Hin as (ch & Hc & Hch).
      apply endedCandidates_origin in Hc. exists ch. tauto.
    + clear H.
      rewrite (foldl_keepBest_fmap Z.gtb _ (yesterdayCandidate h cur)) in Hp
        by (intros; apply yesterdayStep_keepBest).
      pose proof (foldl_keepBest_max (yesterdayCandidate h cur <$> channels)) as H.
      rewrite Hp in H. destruct H as [Hin _].
      apply list_elem_of_fmap in Hin as (ch & Hc & Hch). symmetry in Hc.
      apply yesterdayCandidate_origin in Hc. exists ch. tauto.
Qed.

(** X3. Whatever the parser returns, an entry of the result map names
    a slot exactly when its state is not [default], and the slot it
    names is a non-empty time of an enabled slot of a channel that has
    the entry's id and automation on. *)
Theorem reported_slot_belongs_to_channel hhmmToMinutes now channels w k info :
  calculateChannelStatesAt hhmmToMinutes now channels w !! k = Some info ->
  (state info = default <-> timeSlot info = None) /\
  forall t, timeSlot info = Some t ->
    t <> ""%string /\
    exists ch, ch ∈ channels /\ id ch = k /\ automationOn ch /\ enabledSlot ch t.
Proof.
  unfold calculateChannelStatesAt. intros Hk.
  apply applyStates_lookup in Hk as (c & Hc & <- & ->).
  pose proof (picks_origin hhmmToMinutes now channels w) as Horigin. cbv zeta in Horigin.
  set (cur := pickCurrent hhmmToMinutes channels now w) in *.
  set (nxt := pickNext hhmmToMinutes channels now w cur) in *.
  set (prv := pickPrevious hhmmToMinutes channels now w cur) in *.
  assert (Hpick : forall q p, isPicked q c = true -> q = Some p ->
            (q = cur \/ q = nxt \/ q = prv) ->
            pickTimeSlot p <> ""%string /\
            exists ch, ch ∈ channels /\ id ch = id c /\ automationOn ch /\
                       enabledSlot ch (pickTimeSlot p)).
  { intros q p Hq -> Hwhich.
    apply isPicked_true in Hq as (p' & [= <-] & Hid).
    destruct (Horigin p) as (ch & Hch & Hpid & Hon & Hs & Hne).
    { destruct Hwhich as [<-|[<-|<-]]; auto. }
    split; [done|]. exists ch. repeat split; auto. congruence. }
  unfold finalInfo.
  destruct (isPicked cur c) eqn:Hc1.
  { destruct cur as [p|] eqn:Hcur; [|discriminate]. simpl.
    split; [split; discriminate|]. intros t [= <-]. eapply Hpick; eauto. }
  destruct (isPicked nxt c) eqn:Hc2.
  { destruct nxt as [p|] eqn:Hnxt; [|discriminate]. simpl.
    split; [split; discriminate|]. intros t [= <-]. eapply Hpick; eauto. }
  destruct (isPicked prv c) eqn:Hc3.
  { destruct prv as [p|] eqn:Hprv; [|discriminate]. simpl.
    split; [split; discriminate|]. intros t [= <-]. eapply Hpick; eauto. }
  simpl. split; [done|]. discriminate.
Qed.

(** ** The fleet-wide current pick *)

Section CurrentPick.

Variable hhmmToMinutes : string -> number.

Hypothesis hhmm_wf :
  forall s, wellFormedTime s = true -> hhmmToMinutes s = Num (timeValue s).

Lemma currentCandidate_Some now w ch p :
  wellFormedChannel ch = true ->
  (currentCandidate hhmmToMinutes now w ch = Some p <->
   exists t, getChannelState hhmmToMinutes ch now w = (current, Some t) /\
     p = {| pickChannelId := id ch; pickTimeSlot := t; pickMinutes := timeValue t |}).
Proof.
  intros Hwf. unfold currentCandidate.
  destruct (getChannelState hhmmToMinutes ch now w) as [st [t|]] eqn:Hst.
  2:{ split; [by destruct st|]. by intros (t & ? & _). }
  assert (Ht : wellFormedTime t = true) by (by eapply getChannelState_slot_wf).
  destruct st; try (split; [discriminate|by intros (t' & [=] & _)]).
  rewrite (wellFormedTime_truthy t Ht), (hhmm_wf t Ht). split.
  - intros [= <-]. by exists t.
  - by intros (t' & [= <-] & ->).
Qed.

Lemma pickCurrent_spec channels now w :
  wellFormedFleet channels = true ->
  match pickCurrent hhmmToMinutes channels now w with
  | Some p =>
      exists ch t, ch ∈ channels /\
        getChannelState hhmmToMinutes ch now w = (current, Some t) /\
        pickChannelId p = id ch /\ pickTimeSlot p = t /\
        forall ch' t', ch' ∈ channels ->
          getChannelState hhmmToMinutes ch' now w = (current, Some t') ->
          timeValue t' <= timeValue t
  | None =>
      forall ch t, ch ∈ channels ->
        getChannelState hhmmToMinutes ch now w <> (current, Some t)
  end.
Proof.
  intros Hwf. unfold pickCurrent.
  rewrite (foldl_keepBest_fmap Z.gtb _ (currentCandidate hhmmToMinutes now w))
    by (intros; apply currentStep_keepBest).
  pose proof (foldl_keepBest_max
    (currentCandidate hhmmToMinutes now w <$> channels)) as H.
  destruct (foldl _ _ _) as [p|].
  - destruct H as (Hin & Hmax).
    apply list_elem_of_fmap in Hin as (ch & Hp & Hch). symmetry in Hp.
    apply currentCandidate_Some in Hp as (t & Hst & ->);
      [|by eapply wellFormedFleet_elem].
    exists ch, t. repeat split; try done.
    intros ch' t' Hch' Hst'.
    apply (Hmax {| pickChannelId := id ch'; pickTimeSlot := t';
                   pickMinutes := timeValue t' |}).
    apply list_elem_of_fmap. exists ch'. split; [|done].
    symmetry. apply currentCandidate_Some; [by eapply wellFormedFleet_elem|].
    by exists t'.
  - rename H into Hnone. intros ch t Hch Hst.
    apply (Hnone {| pickChannelId := id ch; pickTimeSlot := t;
                    pickMinutes := timeValue t |}).
    apply list_elem_of_fmap. exists ch. split; [|done].
    symmetry. apply currentCandidate_Some; [by eapply wellFormedFleet_elem|].
    by exists t.
Qed.

(** X1. The channel reported [current] is one whose own state is
    [current], with the same slot, and no channel of the fleet whose
    own state is [current] has a later slot; whenever some channel's
    own state is [current], a channel is reported [current]. *)
Theorem global_current_is_latest_started channels now w :
  wellFormedFleet channels = true ->
  let states := calculateChannelStatesAt hhmmToMinutes now channels w in
  (forall k info,
     states !! k = Some info -> state info = current ->
     exists ch t,
       ch ∈ channels /\ id ch = k /\ timeSlot info = Some t /\
       getChannelState hhmmToMinutes ch now w = (current, Some t) /\
       forall ch' t', ch' ∈ channels ->
         getChannelState hhmmToMinutes ch' now w = (current, Some t') ->
         timeValue t' <= timeValue t) /\
  (forall ch t,
     ch ∈ channels ->
     getChannelState hhmmToMinutes ch now w = (current, Some t) ->
     exists k info, states !! k = Some info /\ state info = current).
Proof.
  intros Hwf states.
  pose proof (pickCurrent_spec channels now w Hwf) as Hcur.
  subst states. unfold calculateChannelStatesAt.
  set (cur := pickCurrent hhmmToMinutes channels now w) in *.
  set (nxt := pickNext hhmmToMinutes channels now w cur).
  set (prv := pickPrevious hhmmToMinutes channels now w cur).
  split.
  - intros k info Hk Hst.
    apply applyStates_lookup in Hk as (c & Hc & <- & ->).
    apply finalInfo_current in Hst as Hpicked.
    apply isPicked_true in Hpicked as Hp. destruct Hp as (p & Hp & Hid).
    rewrite Hp in Hcur. destruct Hcur as (ch & t & Hch & Hres & Hpid & Hpt & Hmax).
    exists ch, t. split; [done|]. split; [congruence|]. split; [|done].
    unfold finalInfo. rewrite Hpicked, Hp. simpl. by rewrite Hpt.
  - intros ch t Hch Hres.
    destruct cur as [p|] eqn:Hp; [|by destruct (Hcur ch t)].
    destruct Hcur as (ch0 & t0 & Hch0 & _ & Hpid & _).
    exists (id ch0), (finalInfo (Some p) nxt prv ch0). split.
    + apply applyStates_lookup. by exists ch0.
    + apply finalInfo_current. apply isPicked_true. eauto.
Qed.

End CurrentPick.

Lemma global_current_is_latest_started_witness :
  exists ch t,
    ch ∈ pairFleet /\ id ch = "a"%string /\ Some "08:00"%string = Some t /\
    getChannelState hhmmToMinutesModel ch 485 (Num 11) = (current, Some t) /\
    forall ch' t', ch' ∈ pairFleet ->
      getChannelState hhmmToMinutesModel ch' 485 (Num 11) = (current, Some t') ->
      timeValue t' <= timeValue t.
Proof.
  destruct (global_current_is_latest_started hhmmToMinutesModel hhmmToMinutesModel_wf
              pairFleet 485 (Num 11) eq_refl) as [Hcur _].
  apply (Hcur "a"%string
           {| channelId := "a"; state := current; timeSlot := Some "08:00"%string |});
    [vm_compute; reflexivity | reflexivity].
Defined.

Lemma reported_slot_belongs_to_channel_witness :
  (next = default <-> Some "07:00"%string = None) /\
  forall t, Some "07:00"%string = Some t ->
    t <> ""%string /\
    exists ch, ch ∈ pairFleet /\ id ch = "b"%string /\ automationOn ch /\ enabledSlot ch t.
Proof.
  apply (reported_slot_belongs_to_channel hhmmToMinutesModel 1380 pairFleet (Num 11)
           "b" {| channelId := "b"; state := next; timeSlot := Some "07:00"%string |}).
  vm_compute. reflexivity.
Defined.

(** ** The window in use *)




Section WindowInUse.

Variable hhmmToMinutes : string -> number.

Hypothesis hhmm_wf :
  forall s, wellFormedTime s = true -> hhmmToMinutes s = Num (timeValue s).




End WindowInUse.



(** * The channel routes *)

Module RoutesFacts.

Import Routes RoutesSpec.

(** ** Validation of the times of a schedule *)

Lemma parseHHMM_wellFormed t h m :
  parseHHMM t = Some (h, m) ->
  (h <? 0) || (h >? 23) || (m <? 0) || (m >? 59) = negb (wellFormedTime t).
Proof.
  intros Hp. unfold wellFormedTime. rewrite Hp.
  unfold parseHHMM in Hp.
  destruct t as [|a [|b [|sep [|c [|d [|? ?]]]]]]; try discriminate.
  destruct (Ascii.eqb sep ":"); [|discriminate].
  destruct (digitValue a) as [a'|] eqn:Ea; [|discriminate].
  destruct (digitValue b) as [b'|] eqn:Eb; [|discriminate].
  destruct (digitValue c) as [c'|] eqn:Ec; [|discriminate].
  destruct (digitValue d) as [d'|] eqn:Ed; [|discriminate].
  apply digitValue_range in Ea, Eb, Ec, Ed. inversion Hp; subst.
  destruct (Z.ltb_spec (10 * a' + b') 0), (Z.gtb_spec (10 * a' + b') 23),
    (Z.ltb_spec (10 * c' + d') 0), (Z.gtb_spec (10 * c' + d') 59),
    (Z.leb_spec (10 * a' + b') 23), (Z.leb_spec (10 * c' + d') 59);
    simpl; try reflexivity; lia.
Qed.

Lemma wellFormedTime_parses t : wellFormedTime t = true -> parseHHMM t <> None.
Proof. unfold wellFormedTime. by destruct (parseHHMM t). Qed.

(** On a sorted list [sort] changes nothing. *)
Lemma sort_sorted l : StronglySorted String.le l -> sort l = l.
Proof.
  intros Hs. apply (StronglySorted_unique String.le); [|done|].
  - apply StronglySorted_merge_sort; apply _.
  - apply merge_sort_Permutation.
Qed.

Lemma sorted_distinct_times l :
  StronglySorted String.le l -> NoDup l ->
  (forall t, t ∈ l -> wellFormedTime t = true) ->
  StronglySorted (fun a b => timeValue a < timeValue b) l.
Proof.
  induction 1 as [|x l Hs IH Hall]; intros Hnd Hwf; [constructor|].
  apply NoDup_cons in Hnd as [Hx Hnd]. constructor.
  - apply IH; [done|]. intros; apply Hwf; by right.
  - rewrite Forall_forall in Hall |- *. intros y Hy.
    assert (timeValue x <= timeValue y).
    { apply wellFormedTime_le; [apply Hwf; left|apply Hwf; by right|auto]. }
    assert (timeValue x <> timeValue y); [|lia].
    intros Heq. apply Hx.
    rewrite (wellFormedTime_inj x y); [done|apply Hwf; left|apply Hwf; by right|done].
Qed.

Lemma strictly_sorted_times l :
  StronglySorted (fun a b => timeValue a < timeValue b) l ->
  (forall t, t ∈ l -> wellFormedTime t = true) ->
  StronglySorted String.le l /\ NoDup l.
Proof.
  induction 1 as [|x l Hs IH Hall]; intros Hwf; [split; constructor|].
  destruct IH as [IH1 IH2]; [intros; apply Hwf; by right|].
  rewrite Forall_forall in Hall. split.
  - constructor; [done|]. apply Forall_forall. intros y Hy.
    apply wellFormedTime_le; [apply Hwf; left|apply Hwf; by right|].
    specialize (Hall y Hy). lia.
  - apply NoDup_cons. split; [|done]. intros Hx. specialize (Hall x Hx). lia.
Qed.

Section Validation.

Variable trimIsEmpty : string -> bool.

(** What the validation loop returns, from any point of its run. *)
Lemma validateLoop_spec times :
  forall seen acc,
    seen = list_to_set acc -> NoDup acc ->
    match validateLoop trimIsEmpty times seen acc with
    | inr v =>
        NoDup v /\ (forall t, t ∈ v <-> t ∈ acc \/ t ∈ keptTimes trimIsEmpty times) /\
        (forall t, t ∈ keptTimes trimIsEmpty times -> wellFormedTime t = true)
    | inl (InvalidTimeFormat t) =>
        exists before after, keptTimes trimIsEmpty times = before ++ t :: after /\
          (forall x, x ∈ before -> wellFormedTime x = true) /\ parseHHMM t = None
    | inl (InvalidTimeValue t) =>
        exists before after, keptTimes trimIsEmpty times = before ++ t :: after /\
          (forall x, x ∈ before -> wellFormedTime x = true) /\
          parseHHMM t <> None /\ wellFormedTime t = false
    | inl TooManyTimeSlots => False
    end.
Proof.
  induction times as [|v times IH]; intros seen acc Hseen Hnd; simpl.
  { split; [done|]. split; [|by intros t ?%elem_of_nil].
    intros t. split; [by left|]. by intros [?|?%elem_of_nil]. }
  destruct v as [t|]; [|by apply IH].
  destruct (trimIsEmpty t); [by apply IH|].
  destruct (parseHHMM t) as [[h m]|] eqn:Hp.
  2:{ exists [], (keptTimes trimIsEmpty times). split; [done|]. split; [by intros x ?%elem_of_nil|done]. }
  rewrite (parseHHMM_wellFormed t h m Hp).
  destruct (wellFormedTime t) eqn:Hwf; simpl.
  2:{ exists [], (keptTimes trimIsEmpty times). split; [done|]. split; [by intros x ?%elem_of_nil|].
      split; [by rewrite Hp|done]. }
  assert (Hstep : forall seen' acc',
    seen' = list_to_set acc' -> NoDup acc' ->
    (forall x, x ∈ acc' <-> x ∈ acc \/ x = t) ->
    match validateLoop trimIsEmpty times seen' acc' with
    | inr v =>
        NoDup v /\ (forall x, x ∈ v <-> x ∈ acc \/ x ∈ t :: keptTimes trimIsEmpty times) /\
        (forall x, x ∈ t :: keptTimes trimIsEmpty times -> wellFormedTime x = true)
    | inl (InvalidTimeFormat x) =>
        exists before after, t :: keptTimes trimIsEmpty times = before ++ x :: after /\
          (forall y, y ∈ before -> wellFormedTime y = true) /\ parseHHMM x = None
    | inl (InvalidTimeValue x) =>
        exists before after, t :: keptTimes trimIsEmpty times = before ++ x :: after /\
          (forall y, y ∈ before -> wellFormedTime y = true) /\
          parseHHMM x <> None /\ wellFormedTime x = false
    | inl TooManyTimeSlots => False
    end).
  { intros seen' acc' Hseen' Hnd' Hacc'.
    specialize (IH seen' acc' Hseen' Hnd').
    destruct (validateLoop trimIsEmpty times seen' acc') as [[x|x|]|v]; [| |done|].
    - destruct IH as (before & after & Hk & Hb & Hx).
      exists (t :: before), after. split; [by rewrite Hk|]. split; [|done].
      intros y [->|Hy]%elem_of_cons; auto.
    - destruct IH as (before & after & Hk & Hb & Hx).
      exists (t :: before), after. split; [by rewrite Hk|]. split; [|done].
      intros y [->|Hy]%elem_of_cons; auto.
    - destruct IH as (Hv & Hmem & Hall). split; [done|]. split.
      + intros x. rewrite Hmem, Hacc', elem_of_cons. tauto.
      + intros x [->|Hx]%elem_of_cons; auto. }
  destruct (decide (t ∈ seen)) as [Hin|Hnotin].
  - apply Hstep; [done..|]. intros x. split; [by left|].
    intros [?|Hx]; [done|]. subst x seen. by apply elem_of_list_to_set in Hin.
  - apply Hstep.
    + subst seen. rewrite list_to_set_snoc_L. apply (comm_L (∪)).
    + apply NoDup_app. split; [done|]. split; [|apply NoDup_singleton].
      intros x Hx ->%list_elem_of_singleton. apply Hnotin. subst seen.
      by apply elem_of_list_to_set.
    + intros x. rewrite elem_of_app, list_elem_of_singleton. tauto.
Qed.

Lemma size_distinct (v l : list string) :
  NoDup v -> (forall t, t ∈ v <-> t ∈ l) ->
  size (list_to_set (C:=gset string) l) = length v.
Proof.
  intros Hnd Hmem. rewrite <- (size_list_to_set (C:=gset string) v) by done.
  f_equal. apply set_eq. intros t. rewrite !elem_of_list_to_set. by rewrite Hmem.
Qed.

(** X7. The verdict on a [times] body. It is accepted exactly when
    every entry that is kept (a string that is not blank) is a
    well-formed time and at most 10 of them are distinct. Otherwise the
    first kept entry that is not well formed decides the error: format
    when it does not match two digits, colon, two digits, value when it
    matches but is out of range; and when all are well formed, too many
    slots. *)
Theorem validateTimes_verdict times :
  match validateTimes trimIsEmpty times with
  | inr v =>
      (forall t, t ∈ keptTimes trimIsEmpty times -> wellFormedTime t = true) /\
      (size (list_to_set (C:=gset string) (keptTimes trimIsEmpty times)) <= 10)%nat
  | inl (InvalidTimeFormat t) =>
      exists before after, keptTimes trimIsEmpty times = before ++ t :: after /\
        (forall x, x ∈ before -> wellFormedTime x = true) /\ parseHHMM t = None
  | inl (InvalidTimeValue t) =>
      exists before after, keptTimes trimIsEmpty times = before ++ t :: after /\
        (forall x, x ∈ before -> wellFormedTime x = true) /\
        parseHHMM t <> None /\ wellFormedTime t = false
  | inl TooManyTimeSlots =>
      (forall t, t ∈ keptTimes trimIsEmpty times -> wellFormedTime t = true) /\
      (10 < size (list_to_set (C:=gset string) (keptTimes trimIsEmpty times)))%nat
  end.
Proof.
  unfold validateTimes.
  pose proof (validateLoop_spec times ∅ [] eq_refl (NoDup_nil_2)) as H.
  destruct (validateLoop trimIsEmpty times ∅ []) as [[x|x|]|v]; try done.
  destruct H as (Hnd & Hmem & Hall).
  assert (Hsize : size (list_to_set (C:=gset string) (keptTimes trimIsEmpty times)) = length v).
  { apply size_distinct; [done|]. intros t. rewrite Hmem. split; [|by right].
    by intros [?%elem_of_nil|?]. }
  rewrite Hsize. unfold MAX_SLOTS.
  destruct (Nat.ltb_spec 10 (length v)); split; auto; lia.
Qed.

(** X6. The times an accepted body yields: strictly ascending by time
    of day (so without repetition), at most 10, all well formed, and
    exactly the kept entries of the body. *)
Theorem validated_times_are_clean times v :
  validateTimes trimIsEmpty times = inr v ->
  StronglySorted (fun a b => timeValue a < timeValue b) v /\
  (length v <= 10)%nat /\
  (forall t, t ∈ v -> wellFormedTime t = true) /\
  (forall t, t ∈ v <-> t ∈ keptTimes trimIsEmpty times).
Proof.
  unfold validateTimes.
  pose proof (validateLoop_spec times ∅ [] eq_refl (NoDup_nil_2)) as H.
  destruct (validateLoop trimIsEmpty times ∅ []) as [[x|x|]|v0]; try discriminate.
  destruct H as (Hnd & Hmem & Hall). unfold MAX_SLOTS.
  destruct (Nat.ltb_spec 10 (length v0)); [discriminate|]. intros [= <-].
  assert (Hin : forall t, t ∈ sort v0 <-> t ∈ keptTimes trimIsEmpty times).
  { intros t. unfold sort. rewrite merge_sort_Permutation, Hmem.
    split; [|by right]. by intros [?%elem_of_nil|?]. }
  split; [|split; [|split]].
  - apply sorted_distinct_times.
    + apply StronglySorted_merge_sort; apply _.
    + unfold sort. by rewrite merge_sort_Permutation.
    + intros t Ht. apply Hall. by apply Hin.
  - unfold sort. by rewrite merge_sort_Permutation.
  - intros t Ht. apply Hall. by apply Hin.
  - done.
Qed.

(** Blank strings are not times: white space is no digit. *)
Hypothesis blank_not_time : forall t, trimIsEmpty t = true -> wellFormedTime t = false.

Lemma validateLoop_clean l :
  forall seen acc,
    seen = list_to_set acc -> NoDup (acc ++ l) ->
    (forall t, t ∈ l -> wellFormedTime t = true) ->
    validateLoop trimIsEmpty (JString <$> l) seen acc = inr (acc ++ l).
Proof.
  induction l as [|t l IH]; intros seen acc Hseen Hnd Hwf; simpl.
  { by rewrite app_nil_r. }
  assert (Ht : wellFormedTime t = true) by (apply Hwf; left).
  destruct (trimIsEmpty t) eqn:Hb; [rewrite (blank_not_time t Hb) in Ht; discriminate|].
  destruct (parseHHMM t) as [[h m]|] eqn:Hp; [|by apply wellFormedTime_parses in Ht].
  rewrite (parseHHMM_wellFormed t h m Hp), Ht. simpl.
  apply NoDup_app in Hnd as (Hacc & Hdisj & Hl). apply NoDup_cons in Hl as [Htl Hl].
  destruct (decide (t ∈ seen)) as [Hin|_].
  { subst seen. apply elem_of_list_to_set in Hin. destruct (Hdisj t Hin). left. }
  rewrite (IH ({[t]} ∪ seen) (acc ++ [t])).
  - by rewrite <- app_assoc.
  - subst seen. rewrite list_to_set_snoc_L. apply (comm_L (∪)).
  - rewrite <- app_assoc. simpl. apply NoDup_app. split; [done|]. split; [done|].
    by apply NoDup_cons.
  - intros; apply Hwf; by right.
Qed.

(** X8. Validation is idempotent: the times an accepted body yields
    are accepted as they are when sent again. *)
Theorem validateTimes_idempotent times v :
  validateTimes trimIsEmpty times = inr v ->
  validateTimes trimIsEmpty (JString <$> v) = inr v.
Proof.
  intros Hv. destruct (validated_times_are_clean times v Hv) as (Hs & Hlen & Hwf & _).
  destruct (strictly_sorted_times v Hs Hwf) as [Hsorted Hnd].
  unfold validateTimes. rewrite (validateLoop_clean v ∅ []); [|done..]. simpl.
  unfold MAX_SLOTS. destruct (Nat.ltb_spec 10 (length v)); [lia|].
  by rewrite sort_sorted.
Qed.

End Validation.

(** ** Rebuilding the schedules of a channel *)

Section Rebuild.

Variable trimIsEmpty : string -> bool.
Variable randomUUID : nat -> string.

Lemma rebuildLoop_spec en times :
  forall index calls acc,
    calls = (index - length en)%nat ->
    let r := rebuildLoop randomUUID en times index calls acc in
    length r = (length acc + length times)%nat /\
    take (length acc) r = acc /\
    forall i t, times !! i = Some t ->
      r !! (length acc + i)%nat =
      Some (match en !! (index + i)%nat with
            | Some s => withTime s t
            | None => newSchedule (randomUUID (index + i - length en)) t
            end).
Proof.
  induction times as [|t0 times IH]; intros index calls acc Hcalls; simpl.
  { split; [lia|]. split; [by rewrite take_ge|]. intros i t Hi. done. }
  assert (Hnext : forall calls' x,
    calls' = (S index - length en)%nat ->
    x = match en !! index with
        | Some s => withTime s t0
        | None => newSchedule (randomUUID (index - length en)) t0
        end ->
    let r := rebuildLoop randomUUID en times (S index) calls' (acc ++ [x]) in
    length r = (length acc + S (length times))%nat /\
    take (length acc) r = acc /\
    forall i t, (t0 :: times) !! i = Some t ->
      r !! (length acc + i)%nat =
      Some (match en !! (index + i)%nat with
            | Some s => withTime s t
            | None => newSchedule (randomUUID (index + i - length en)) t
            end)).
  { intros calls' x Hcalls' Hx r.
    destruct (IH (S index) calls' (acc ++ [x]) Hcalls') as (Hlen & Htake & Hlook).
    fold r in Hlen, Htake, Hlook. rewrite length_app in Hlen, Htake, Hlook. simpl in *.
    split; [lia|]. split.
    - replace (length acc) with (min (length acc) (length acc + 1)) at 1 by lia.
      rewrite <- take_take, Htake. by rewrite take_app_length.
    - intros [|i] t Hi; simpl in Hi.
      + inversion Hi; subst t. rewrite !Nat.add_0_r.
        assert (Hr : r !! length acc = take (length acc + 1) r !! length acc)
          by (rewrite lookup_take_lt by lia; done).
        rewrite Hr, Htake, lookup_app_r by lia.
        rewrite Nat.sub_diag. simpl. by rewrite Hx.
      + specialize (Hlook i t Hi).
        replace (length acc + S i)%nat with (length acc + 1 + i)%nat by lia.
        rewrite Hlook. by replace (index + S i)%nat with (S (index + i)) by lia. }
  destruct (en !! index) as [s|] eqn:Hs.
  - apply Hnext; [|done]. apply lookup_lt_Some in Hs. lia.
  - apply Hnext; [|by rewrite Hcalls]. apply lookup_ge_None in Hs. lia.
Qed.


Lemma rebuilt_elem en v x :
  (forall s, s ∈ en -> enabled s = true) ->
  x ∈ rebuildLoop randomUUID en v 0 0 [] ->
  enabled x = true /\ time x ∈ v.
Proof.
  intros Hen Hx. destruct (rebuildLoop_spec en v 0 0 [] eq_refl) as (Hlen & _ & Hlook).
  simpl in Hlen, Hlook.
  apply list_elem_of_lookup in Hx as [i Hi].
  assert (Hlt : (i < length v)%nat) by (apply lookup_lt_Some in Hi; lia).
  destruct (lookup_lt_is_Some_2 v i Hlt) as [t Ht].
  rewrite (Hlook i t Ht) in Hi. inversion Hi; subst x.
  destruct (en !! i) as [s|] eqn:Hs; simpl.
  - split; [apply Hen; eauto using list_elem_of_lookup_2|eauto using list_elem_of_lookup_2].
  - split; [done|eauto using list_elem_of_lookup_2].
Qed.

Lemma rebuilt_times en v :
  time <$> rebuildLoop randomUUID en v 0 0 [] = v.
Proof.
  destruct (rebuildLoop_spec en v 0 0 [] eq_refl) as (Hlen & _ & Hlook).
  simpl in Hlen, Hlook. apply list_eq. intros i. rewrite list_lookup_fmap.
  destruct (v !! i) as [t|] eqn:Ht.
  - rewrite (Hlook i t Ht). simpl. by destruct (en !! i).
  - apply lookup_ge_None in Ht. rewrite lookup_ge_None_2; [done|lia].
Qed.

Lemma filter_all {A} (P : A -> Prop) `{forall x, Decision (P x)} (l : list A) :
  (forall x, x ∈ l -> P x) -> filter P l = l.
Proof.
  induction l as [|x l IH]; intros Hall; [done|].
  rewrite filter_cons_True by (apply Hall; left).
  f_equal. apply IH. intros; apply Hall; by right.
Qed.

Lemma filter_none {A} (P : A -> Prop) `{forall x, Decision (P x)} (l : list A) :
  (forall x, x ∈ l -> ~ P x) -> filter P l = [].
Proof.
  induction l as [|x l IH]; intros Hall; [done|].
  rewrite filter_cons_False by (apply Hall; left).
  apply IH. intros; apply Hall; by right.
Qed.

Lemma filter_enabled_elem (existing : list ChannelAutoSendSchedule) s :
  s ∈ List.filter enabled existing -> enabled s = true.
Proof. rewrite list_elem_of_In, filter_In. tauto. Qed.

Lemma filter_disabled_elem (existing : list ChannelAutoSendSchedule) s :
  s ∈ List.filter (fun s => negb (enabled s)) existing -> enabled s = false.
Proof. rewrite list_elem_of_In, filter_In. intros [_ H]. by apply negb_true_iff. Qed.

(** X10. Reading back what was written: on the schedules the route
    stores for an accepted body, the expression that lists a channel's
    times (the one the classifier and the schedule table use) returns
    the validated times as they are, and every enabled schedule carries
    a well-formed time. *)
Theorem stored_times_read_back times v existing :
  validateTimes trimIsEmpty times = inr v ->
  enabledTimes (updateSchedules randomUUID existing v) = v /\
  wellFormedSchedules (updateSchedules randomUUID existing v) = true.
Proof.
  intros Hv. destruct (validated_times_are_clean trimIsEmpty times v Hv)
    as (Hs & _ & Hwf & _).
  destruct (strictly_sorted_times v Hs Hwf) as [Hsorted _].
  unfold updateSchedules.
  set (en := List.filter enabled existing).
  set (dis := List.filter (fun s => negb (enabled s)) existing).
  set (rebuilt := rebuildLoop randomUUID en v 0 0 []).
  assert (Hreb : forall x, x ∈ rebuilt -> enabled x = true /\ time x ∈ v).
  { intros x Hx. apply (rebuilt_elem en v x); [|done].
    intros s. apply filter_enabled_elem. }
  split.
  - unfold enabledTimes. rewrite filter_app.
    rewrite (filter_all _ rebuilt), (filter_none _ dis).
    + rewrite app_nil_r. unfold rebuilt. rewrite rebuilt_times. by apply sort_sorted.
    + intros x Hx Hp. apply Is_true_true, andb_true_iff in Hp as [He _].
      apply filter_disabled_elem in Hx. congruence.
    + intros x Hx. destruct (Hreb x Hx) as [He Ht].
      apply Is_true_true, andb_true_iff. split; [done|].
      by apply wellFormedTime_truthy, Hwf.
  - unfold wellFormedSchedules. apply forallb_forall. intros x Hx.
    apply list_elem_of_In, elem_of_app in Hx as [Hx|Hx].
    + destruct (Hreb x Hx) as [He Ht]. rewrite He. simpl. by apply Hwf.
    + apply filter_disabled_elem in Hx. by rewrite Hx.
Qed.

End Rebuild.


(** ** The store under the routes *)

Lemma getDoc_updateDoc docs c change c' :
  getDoc (updateDoc docs c change) c' =
  if String.eqb c c' then change <$> getDoc docs c' else getDoc docs c'.
Proof.
  unfold getDoc, updateDoc. induction docs as [|[i d] docs IH]; simpl.
  { by destruct (String.eqb c c'). }
  destruct (String.eqb_spec i c) as [->|Hic]; simpl.
  - destruct (String.eqb_spec c c') as [->|Hcc]; [done|]. exact IH.
  - destruct (String.eqb_spec i c') as [->|Hic'].
    + destruct (String.eqb_spec c c') as [->|_]; [done|]. done.
    + exact IH.
Qed.

Lemma updateDoc_ids docs c change : (updateDoc docs c change).*1 = docs.*1.
Proof.
  unfold updateDoc. induction docs as [|[i d] docs IH]; [done|].
  rewrite !fmap_cons, IH. simpl. by destruct (String.eqb i c).
Qed.

Lemma userDocs_insert (store : Store) u docs u' :
  userDocs (<[u := docs]> store) u' = if decide (u = u') then docs else userDocs store u'.
Proof.
  unfold userDocs, Store in *. rewrite lookup_insert. by destruct (decide (u = u')).
Qed.

Lemma getDoc_Some_elem docs c d : getDoc docs c = Some d -> c ∈ docs.*1.
Proof.
  unfold getDoc. destruct (List.find _ docs) as [[i d']|] eqn:Hf; [|discriminate].
  intros _. apply find_some in Hf as [Hin Heq]. apply String.eqb_eq in Heq. simpl in Heq.
  subst i. apply list_elem_of_fmap. exists (c, d'). split; [done|]. by apply list_elem_of_In.
Qed.

Lemma getDoc_is_Some docs c : c ∈ docs.*1 -> is_Some (getDoc docs c).
Proof.
  unfold getDoc. intros ([i d] & -> & Hin)%list_elem_of_fmap.
  destruct (List.find _ docs) as [x|] eqn:Hf; [by eexists|].
  apply list_elem_of_In in Hin. pose proof (find_none _ _ Hf _ Hin) as Hn.
  simpl in Hn. by rewrite String.eqb_refl in Hn.
Qed.

Section Handlers.

Variable trimIsEmpty : string -> bool.
Variable randomUUID : nat -> string.

(** X11. What PATCH /:id/schedule does to the store. It answers 200
    exactly when Firestore is available, the body's [times] is an
    accepted array, the channel exists and neither store call throws.
    Any other answer leaves the store as it was. On 200 the channel's
    document gets the rebuilt schedules and the time of the update,
    every other document is as before, and the times of the response
    are the ones a later read of the stored schedules lists. *)
Theorem patchSchedule_effect faults now store userId channelId times :
  let out := patchSchedule trimIsEmpty randomUUID faults now store userId channelId times in
  (status out.1 = 200 <->
   firestoreAvailable faults = true /\ readFault faults = None /\
   writeFault faults = None /\
   (exists ts v, times = Some ts /\ validateTimes trimIsEmpty ts = inr v) /\
   is_Some (getDoc (userDocs store userId) channelId)) /\
  (status out.1 <> 200 -> out.2 = store) /\
  (status out.1 = 200 ->
   exists ts v data stored,
     times = Some ts /\ validateTimes trimIsEmpty ts = inr v /\
     getDoc (userDocs store userId) channelId = Some data /\
     stored = withSchedules data
                (updateSchedules randomUUID (scheduleField data) v) now /\
     getDoc (userDocs out.2 userId) channelId = Some stored /\
     body out.1 = ItemBody {| itemId := channelId; itemIndex := None;
                              itemName := displayName data; itemTimes := v;
                              isAutomationEnabled := automationFlag data |} /\
     enabledTimes (scheduleField stored) = v /\
     (forall u c, u <> userId \/ c <> channelId ->
        getDoc (userDocs out.2 u) c = getDoc (userDocs store u) c)).
Proof.
  unfold patchSchedule.
  destruct (firestoreAvailable faults); simpl.
  2:{ split; [split; [discriminate|by intros [? _]]|]. split; [done|discriminate]. }
  destruct times as [ts|]; simpl.
  2:{ split; [split; [discriminate|by intros (_ & _ & _ & (? & ? & ? & _) & _)]|].
      split; [done|discriminate]. }
  destruct (validateTimes trimIsEmpty ts) as [[t|t|]|v] eqn:Hv; simpl;
    try (split; [split; [discriminate|by intros (_ & _ & _ & (? & ? & [= <-] & ?) & _);
                                         congruence]|]; split; [done|discriminate]).
  destruct (readFault faults) as [m|]; simpl.
  { split; [split; [discriminate|by intros (_ & ? & _)]|]. split; [done|discriminate]. }
  destruct (getDoc (userDocs store userId) channelId) as [data|] eqn:Hdoc; simpl.
  2:{ split; [split; [discriminate|by intros (_ & _ & _ & _ & [? ?])]|].
      split; [done|discriminate]. }
  destruct (writeFault faults) as [m|]; simpl.
  { split; [split; [discriminate|by intros (_ & _ & ? & _)]|]. split; [done|discriminate]. }
  split; [split; [intros _; repeat split; eauto|done]|]. split; [done|]. intros _.
  exists ts, v, data, (withSchedules data (updateSchedules randomUUID (scheduleField data) v) now).
  split; [done|]. split; [done|]. split; [done|]. split; [done|]. split.
  { rewrite userDocs_insert, decide_True by done.
    by rewrite getDoc_updateDoc, String.eqb_refl, Hdoc. }
  split; [done|]. split.
  { simpl. by apply (stored_times_read_back trimIsEmpty randomUUID ts). }
  intros u c Hne. rewrite userDocs_insert. destruct (decide (userId = u)) as [<-|]; [|done].
  rewrite getDoc_updateDoc. destruct (String.eqb_spec channelId c) as [<-|]; [|done].
  by destruct Hne.
Qed.

End Handlers.

(** ** [authRequired] *)

Lemma prefix_app p s : String.prefix p s = true <-> exists rest, s = (p ++ rest)%string.
Proof.
  revert s. induction p as [|a p IH]; intros s.
  { destruct s; simpl; split; eauto. }
  destruct s as [|b s]; [simpl; split; [discriminate|by intros [? ?]]|].
  cbn [String.prefix].
  destruct (ascii_dec a b) as [->|Hab].
  - rewrite IH. split; intros [rest Hr]; exists rest; [by rewrite Hr|by inversion Hr].
  - split; [discriminate|]. intros [rest Hr]. inversion Hr. congruence.
Qed.

Lemma slice_app p rest : slice (String.length p) (p ++ rest) = rest.
Proof. induction p as [|a p IH]; simpl; [by destruct rest|done]. Qed.

Lemma firstTruthy_Some a b u :
  firstTruthy a b = Some u -> truthy u = true ->
  a = Some u \/ ((a = None \/ a = Some ""%string) /\ b = Some u).
Proof.
  unfold firstTruthy. destruct a as [s|]; [|by right; split; [left|]].
  destruct (truthy s) eqn:Hs.
  - intros [= ->] _. by left.
  - intros -> _. right. split; [|done]. right. f_equal.
    unfold truthy in Hs. apply negb_false_iff in Hs. by apply String.eqb_eq.
Qed.

(** X12. [authRequired] lets a request through exactly when its
    authorization header is "Bearer " followed by a token that decodes
    to a payload with a non-empty [user_id] or, failing that, a
    non-empty [uid]; the user it attaches carries that id (with
    [user_id] taking precedence) and the payload's email. Every other
    request is answered 401. *)
Theorem authRequired_spec jwtDecode authorization :
  match authRequired jwtDecode authorization with
  | inr user =>
      exists token payload,
        authorization = Some ("Bearer " ++ token)%string /\
        jwtDecode token = Decoded payload /\
        authUid user <> ""%string /\ authEmail user = email payload /\
        (user_id payload = Some (authUid user) \/
         ((user_id payload = None \/ user_id payload = Some ""%string) /\
          uid payload = Some (authUid user)))
  | inl response =>
      status response = 401 /\
      forall token payload u,
        authorization = Some ("Bearer " ++ token)%string ->
        jwtDecode token = Decoded payload ->
        firstTruthy (user_id payload) (uid payload) = Some u -> u = ""%string
  end.
Proof.
  unfold authRequired. destruct authorization as [h|]; [|split; [done|discriminate]].
  destruct (String.prefix "Bearer " h) eqn:Hp; simpl negb; cbv iota.
  2:{ split; [done|]. intros token payload u [= ->]. exfalso.
      assert (String.prefix "Bearer " ("Bearer " ++ token) = true) by (apply prefix_app; eauto).
      congruence. }
  apply prefix_app in Hp as [token ->].
  rewrite (slice_app "Bearer " token).
  assert (Hinj : forall token', Some ("Bearer " ++ token)%string
                                = Some ("Bearer " ++ token')%string -> token = token').
  { intros token' H. simpl in H. by inversion H. }
  destruct (jwtDecode token) as [| |payload] eqn:Hd.
  - split; [done|]. intros token' payload' u Heq Hd'.
    apply Hinj in Heq as <-. congruence.
  - split; [done|]. intros token' payload' u Heq Hd'.
    apply Hinj in Heq as <-. congruence.
  - destruct (firstTruthy (user_id payload) (uid payload)) as [u|] eqn:Hu.
    + destruct (truthy u) eqn:Htr.
      * exists token, payload. split; [done|]. split; [done|]. simpl.
        split; [intros ->; discriminate|]. split; [done|].
        by apply firstTruthy_Some.
      * split; [done|]. intros token' payload' u' Heq Hd' Hu'.
        apply Hinj in Heq as <-. rewrite Hd in Hd'. inversion Hd'; subst payload'.
        rewrite Hu in Hu'. inversion Hu'; subst u'.
        unfold truthy in Htr. apply negb_false_iff in Htr. by apply String.eqb_eq.
    + split; [done|]. intros token' payload' u' Heq Hd' Hu'.
      apply Hinj in Heq as <-. rewrite Hd in Hd'. inversion Hd'; subst payload'.
      congruence.
Qed.

Section Isolation.

Variable jwtDecode : string -> DecodeResult.
Variable trimIsEmpty : string -> bool.
Variable randomUUID : nat -> string.

Lemma patchSchedule_other_users faults now store userId channelId times u :
  u <> userId ->
  (patchSchedule trimIsEmpty randomUUID faults now store userId channelId times).2 !! u
  = store !! u.
Proof.
  intros Hu. unfold patchSchedule.
  destruct (firestoreAvailable faults); [|done].
  destruct times as [ts|]; [|done].
  destruct (validateTimes trimIsEmpty ts) as [[t|t|]|v]; try done.
  destruct (readFault faults); [done|].
  destruct (getDoc _ _); [|done].
  destruct (writeFault faults); [done|]. simpl. unfold Store in *. by rewrite lookup_insert_ne.
Qed.

Lemma patchSchedule_changes faults now store userId channelId times :
  let out := patchSchedule trimIsEmpty randomUUID faults now store userId channelId times in
  out.2 <> store -> status out.1 = 200.
Proof.
  unfold patchSchedule. simpl.
  destruct (firestoreAvailable faults); [|done].
  destruct times as [ts|]; [|done].
  destruct (validateTimes trimIsEmpty ts) as [[t|t|]|v]; try done.
  destruct (readFault faults); [done|].
  destruct (getDoc _ _); [|done].
  destruct (writeFault faults); done.
Qed.

Lemma reorder_other_users faults store userId orderedIds u :
  u <> userId -> (reorder faults store userId orderedIds).2 !! u = store !! u.
Proof.
  intros Hu. unfold reorder.
  destruct (firestoreAvailable faults); [|done].
  destruct orderedIds as [[|v ids]|]; [done| |done].
  destruct (readFault faults); [done|]. simpl.
  destruct (_ <? _)%nat; [done|].
  destruct (writeFault faults); [done|]. simpl. unfold Store in *. by rewrite lookup_insert_ne.
Qed.

Lemma reorder_changes faults store userId orderedIds :
  let out := reorder faults store userId orderedIds in
  out.2 <> store -> status out.1 = 200.
Proof.
  unfold reorder. simpl.
  destruct (firestoreAvailable faults); [|done].
  destruct orderedIds as [[|v ids]|]; [done| |done].
  destruct (readFault faults); [done|]. simpl.
  destruct (_ <? _)%nat; [done|].
  destruct (writeFault faults); done.
Qed.

(** X13. Tenant isolation of the writing routes. A request changes the
    store only when [authRequired] lets it through and the answer is
    200, and then only the collection of the user named by the token
    changes: the collections of all other users are as before. *)
Theorem routes_write_own_collection_only faults now store authorization channelId times
    orderedIds :
  let patched := patchScheduleRoute jwtDecode trimIsEmpty randomUUID faults now store
                   authorization channelId times in
  let reordered := reorderRoute jwtDecode faults store authorization orderedIds in
  (patched.2 <> store ->
   status patched.1 = 200 /\
   exists user, authRequired jwtDecode authorization = inr user /\
     forall u, u <> authUid user -> patched.2 !! u = store !! u) /\
  (reordered.2 <> store ->
   status reordered.1 = 200 /\
   exists user, authRequired jwtDecode authorization = inr user /\
     forall u, u <> authUid user -> reordered.2 !! u = store !! u).
Proof.
  unfold patchScheduleRoute, reorderRoute.
  destruct (authRequired jwtDecode authorization) as [r|user]; simpl; [by split|].
  split.
  - intros Hne. split; [by apply patchSchedule_changes|].
    exists user. split; [done|]. intros u Hu. by apply patchSchedule_other_users.
  - intros Hne. split; [by apply reorder_changes|].
    exists user. split; [done|]. intros u Hu. by apply reorder_other_users.
Qed.

End Isolation.


(** ** The schedule table *)

Lemma insertByKey_perm {A} (key : A -> Z) x l : insertByKey key x l ≡ₚ x :: l.
Proof.
  induction l as [|y l IH]; [done|]. cbn [insertByKey].
  destruct (key x <=? key y); [done|]. rewrite IH. apply Permutation_swap.
Qed.

Lemma sortByKey_perm {A} (key : A -> Z) l : sortByKey key l ≡ₚ l.
Proof.
  unfold sortByKey. induction l as [|x l IH]; [done|].
  cbn [foldr]. by rewrite insertByKey_perm, IH.
Qed.

Lemma insertByKey_sorted {A} (key : A -> Z) x l :
  StronglySorted (fun a b => key a <= key b) l ->
  StronglySorted (fun a b => key a <= key b) (insertByKey key x l).
Proof.
  induction 1 as [|y l Hs IH Hall]; cbn [insertByKey].
  { repeat constructor. }
  rewrite Forall_forall in Hall.
  destruct (Z.leb_spec (key x) (key y)).
  - constructor; [by constructor; [|apply Forall_forall]|].
    apply Forall_forall. intros z [->|Hz]%elem_of_cons; [done|].
    specialize (Hall z Hz). lia.
  - constructor; [done|]. apply Forall_forall. intros z Hz.
    rewrite insertByKey_perm in Hz. apply elem_of_cons in Hz as [->|Hz]; [lia|auto].
Qed.

Lemma sortByKey_sorted {A} (key : A -> Z) l :
  StronglySorted (fun a b => key a <= key b) (sortByKey key l).
Proof.
  unfold sortByKey. induction l as [|x l IH]; [constructor|].
  cbn [foldr]. by apply insertByKey_sorted.
Qed.

Lemma StronglySorted_lookup_le {A} (R : relation A) l i j a b :
  StronglySorted R l -> (i < j)%nat -> l !! i = Some a -> l !! j = Some b -> R a b.
Proof.
  intros Hs. revert i j. induction Hs as [|x l Hs IH Hall]; intros i j Hij Hi Hj.
  { by rewrite lookup_nil in Hi. }
  destruct j as [|j]; [lia|]. destruct i as [|i]; simpl in *.
  - inversion Hi; subst a. rewrite Forall_forall in Hall.
    eauto using list_elem_of_lookup_2.
  - apply (IH i j); [lia|done..].
Qed.

Lemma lookup_fst_unique (docs : list (string * ChannelData)) i j a b :
  NoDup docs.*1 -> docs !! i = Some a -> docs !! j = Some b -> a.1 = b.1 ->
  i = j /\ a = b.
Proof.
  intros Hnd Hi Hj Hab.
  assert (i = j).
  { apply (NoDup_lookup docs.*1 i j a.1 Hnd); rewrite list_lookup_fmap.
    - by rewrite Hi.
    - by rewrite Hj, Hab. }
  subst j. split; [done|]. congruence.
Qed.

Lemma find_by_id (docs : list (string * ChannelData)) pos doc :
  NoDup docs.*1 -> docs !! pos = Some doc ->
  List.find (fun d => String.eqb d.1 doc.1) docs = Some doc /\
  list_find (fun d => d.1 = doc.1) docs = Some (pos, doc).
Proof.
  intros Hnd Hpos. split.
  - destruct (List.find _ docs) as [d|] eqn:Hf.
    + apply find_some in Hf as [Hin Heq]. apply String.eqb_eq in Heq.
      apply list_elem_of_In, list_elem_of_lookup in Hin as [j Hj].
      by destruct (lookup_fst_unique docs j pos d doc Hnd Hj Hpos Heq) as [_ ->].
    + apply list_elem_of_lookup_2, list_elem_of_In in Hpos.
      pose proof (find_none _ _ Hf _ Hpos) as Hn. simpl in Hn.
      by rewrite String.eqb_refl in Hn.
  - apply list_find_Some. split; [done|]. split; [done|].
    intros j y Hj Hlt Heq.
    destruct (lookup_fst_unique docs j pos y doc Hnd Hj Hpos Heq) as [-> _]. lia.
Qed.

Lemma getDoc_lookup (docs : list (string * ChannelData)) pos doc :
  NoDup docs.*1 -> docs !! pos = Some doc -> getDoc docs doc.1 = Some doc.2.
Proof.
  intros Hnd Hpos. unfold getDoc. by rewrite (proj1 (find_by_id docs pos doc Hnd Hpos)).
Qed.

Lemma orderOf_scheduleItem docs pos doc :
  NoDup docs.*1 -> docs !! pos = Some doc ->
  orderOf docs (scheduleItem pos doc) = docKey docs doc.1.
Proof.
  intros Hnd Hpos. unfold orderOf, docKey. cbn [itemId itemIndex scheduleItem].
  destruct (find_by_id docs pos doc Hnd Hpos) as [-> ->]. done.
Qed.

Lemma elem_of_imap_scheduleItem docs p :
  p ∈ imap scheduleItem docs <->
  exists pos doc, docs !! pos = Some doc /\ p = scheduleItem pos doc.
Proof.
  rewrite elem_of_lookup_imap. split; intros (pos & doc & H1 & H2); eauto.
Qed.

Lemma imap_withIndex_ids l : itemId <$> imap withIndex l = itemId <$> l.
Proof.
  apply list_eq. intros i. rewrite !list_lookup_fmap, list_lookup_imap.
  by destruct (l !! i).
Qed.

Lemma imap_scheduleItem_ids docs : itemId <$> imap scheduleItem docs = docs.*1.
Proof.
  apply list_eq. intros i. rewrite !list_lookup_fmap, list_lookup_imap.
  by destruct (docs !! i).
Qed.

(** X14. The schedule table of a snapshot. It has one entry per
    document (the ids are those of the snapshot, rearranged), numbered
    from 1 in the order shown; each entry shows the display name, the
    automation flag and the sorted enabled times of its document; and,
    document ids being unique, the entries come in non-decreasing order
    of their document's order key ([orderIndex], or the position in the
    snapshot when there is none). *)
Theorem scheduleItems_spec docs :
  let items := scheduleItems docs in
  itemId <$> items ≡ₚ docs.*1 /\
  (forall i item, items !! i = Some item -> itemIndex item = Some (Z.of_nat i + 1)) /\
  (forall item, item ∈ items ->
     exists data, (itemId item, data) ∈ docs /\
       itemName item = displayName data /\
       itemTimes item = enabledTimes (scheduleField data) /\
       isAutomationEnabled item = automationFlag data) /\
  (NoDup docs.*1 ->
   forall i j a b, (i < j)%nat -> items !! i = Some a -> items !! j = Some b ->
     docKey docs (itemId a) <= docKey docs (itemId b)).
Proof.
  intros items. subst items. unfold scheduleItems.
  set (pre := sortByKey (orderOf docs) (imap scheduleItem docs)).
  assert (Hperm : pre ≡ₚ imap scheduleItem docs) by apply sortByKey_perm.
  assert (Hpre : forall p, p ∈ pre ->
            exists pos doc, docs !! pos = Some doc /\ p = scheduleItem pos doc).
  { intros p Hp. rewrite Hperm in Hp. by apply elem_of_imap_scheduleItem. }
  split; [|split; [|split]].
  - by rewrite imap_withIndex_ids, Hperm, imap_scheduleItem_ids.
  - intros i item Hi. rewrite list_lookup_imap in Hi.
    destruct (pre !! i); inversion Hi; subst. done.
  - intros item (i & p & -> & Hp)%elem_of_lookup_imap.
    destruct (Hpre p) as (pos & [c data] & Hpos & ->); [eauto using list_elem_of_lookup_2|].
    exists data. split; [by eapply list_elem_of_lookup_2|]. done.
  - intros Hnd i j a b Hij Hi Hj. rewrite list_lookup_imap in Hi, Hj.
    destruct (pre !! i) as [p|] eqn:Hp; inversion Hi; subst a.
    destruct (pre !! j) as [q|] eqn:Hq; inversion Hj; subst b.
    destruct (Hpre p) as (pos1 & doc1 & Hpos1 & ->); [eauto using list_elem_of_lookup_2|].
    destruct (Hpre q) as (pos2 & doc2 & Hpos2 & ->); [eauto using list_elem_of_lookup_2|].
    pose proof (StronglySorted_lookup_le _ pre i j _ _
                  (sortByKey_sorted (orderOf docs) _) Hij Hp Hq) as Hle.
    simpl in Hle. rewrite !orderOf_scheduleItem in Hle by done. exact Hle.
Qed.


(** ** Reordering the channels *)

Lemma batchReorder_ids docs ids index : (batchReorder docs ids index).*1 = docs.*1.
Proof.
  revert docs index. induction ids as [|[c|] ids IH]; intros docs index; cbn [batchReorder].
  - done.
  - by rewrite IH, updateDoc_ids.
  - apply IH.
Qed.

Lemma withOrderIndex_twice d i j :
  withOrderIndex (withOrderIndex d i) j = withOrderIndex d j.
Proof. reflexivity. Qed.

Lemma batchReorder_absent docs ids index c :
  JString c ∉ ids -> getDoc (batchReorder docs ids index) c = getDoc docs c.
Proof.
  revert docs index. induction ids as [|[c'|] ids IH]; intros docs index Hc;
    cbn [batchReorder]; [done| |].
  - rewrite IH by (intros ?; apply Hc; by right).
    rewrite getDoc_updateDoc. destruct (String.eqb_spec c' c) as [->|]; [|done].
    destruct Hc. left.
  - apply IH. intros ?; apply Hc; by right.
Qed.

(** In a batch the last write to a document decides its [orderIndex]. *)
Lemma batchReorder_last docs ids index c i :
  ids !! i = Some (JString c) ->
  (forall j, (i < j)%nat -> ids !! j <> Some (JString c)) ->
  getDoc (batchReorder docs ids index) c =
  (fun d => withOrderIndex d (index + i)) <$> getDoc docs c.
Proof.
  revert docs index i. induction ids as [|v ids IH]; intros docs index i Hi Hlast.
  { by rewrite lookup_nil in Hi. }
  destruct i as [|i].
  - simpl in Hi. inversion Hi; subst v. cbn [batchReorder].
    rewrite batchReorder_absent.
    + rewrite getDoc_updateDoc, String.eqb_refl. by rewrite Nat.add_0_r.
    + intros (j & Hj)%list_elem_of_lookup. apply (Hlast (S j)); [lia|done].
  - simpl in Hi.
    assert (Hlast' : forall j, (i < j)%nat -> ids !! j <> Some (JString c)).
    { intros j Hj. apply (Hlast (S j)). lia. }
    destruct v as [c'|]; cbn [batchReorder].
    + rewrite (IH _ (S index) i Hi Hlast'), getDoc_updateDoc.
      replace (S index + i)%nat with (index + S i)%nat by lia.
      destruct (String.eqb c' c); [|done].
      by destruct (getDoc docs c).
    + rewrite (IH _ (S index) i Hi Hlast').
      by replace (S index + i)%nat with (index + S i)%nat by lia.
Qed.

Lemma batchReorder_sameButOrder docs ids index c d :
  getDoc docs c = Some d ->
  exists d', getDoc (batchReorder docs ids index) c = Some d' /\ sameButOrder d d'.
Proof.
  revert docs index d. induction ids as [|[c'|] ids IH]; intros docs index d Hd;
    cbn [batchReorder].
  - exists d. by repeat split.
  - destruct (String.eqb c' c) eqn:Hc.
    + destruct (IH (updateDoc docs c' (fun d => withOrderIndex d index)) (S index)
                  (withOrderIndex d index)) as (d' & Hd' & Hsame).
      { by rewrite getDoc_updateDoc, Hc, Hd. }
      exists d'. split; [done|]. destruct Hsame as (? & ? & ? & ?). by repeat split.
    + apply IH. by rewrite getDoc_updateDoc, Hc.
  - by apply IH.
Qed.

Lemma filter_length_zero {A} (p : A -> bool) l :
  (0 <? length (List.filter p l))%nat = false <-> forall x, x ∈ l -> p x = false.
Proof.
  induction l as [|x l IH]; simpl.
  { split; [by intros _ x ?%elem_of_nil|done]. }
  destruct (p x) eqn:Hx; simpl.
  - split; [discriminate|]. intros H. specialize (H x). rewrite Hx in H.
    discriminate H. left.
  - rewrite IH. split.
    + intros H y [->|Hy]%elem_of_cons; auto.
    + intros H y Hy. apply H. by right.
Qed.

Lemma ownsChannel_true docs v :
  ownsChannel docs v = true <-> exists c, v = JString c /\ c ∈ docs.*1.
Proof.
  destruct v as [c|]; simpl.
  - rewrite bool_decide_eq_true. split; [eauto|]. by intros (c' & [= <-] & ?).
  - split; [discriminate|]. by intros (c & ? & _).
Qed.

(** X15. What PATCH /reorder does to the store. It answers 200 exactly
    when Firestore is available, [orderedIds] is a non-empty array of
    ids of the user's own channels and neither store call throws; any
    other answer leaves the store as it was. On 200 the user's
    documents keep their ids, their order in the snapshot and every
    field but [orderIndex]; a channel that is not listed keeps its
    [orderIndex], and a listed channel gets the position of its last
    occurrence in [orderedIds]. *)
Theorem reorder_effect faults store userId orderedIds :
  let out := reorder faults store userId orderedIds in
  let docs := userDocs store userId in
  let docs' := userDocs out.2 userId in
  (status out.1 = 200 <->
   firestoreAvailable faults = true /\ readFault faults = None /\
   writeFault faults = None /\
   exists ids, orderedIds = Some ids /\ ids <> [] /\
     forall v, v ∈ ids -> exists c, v = JString c /\ c ∈ docs.*1) /\
  (status out.1 <> 200 -> out.2 = store) /\
  (status out.1 = 200 ->
   exists ids, orderedIds = Some ids /\ docs'.*1 = docs.*1 /\
     forall c d, getDoc docs c = Some d ->
       exists d', getDoc docs' c = Some d' /\ sameButOrder d d' /\
         (JString c ∉ ids -> orderIndex d' = orderIndex d) /\
         (forall i, ids !! i = Some (JString c) ->
            (forall j, (i < j)%nat -> ids !! j <> Some (JString c)) ->
            orderIndex d' = Some (Z.of_nat i))).
Proof.
  unfold reorder.
  destruct (firestoreAvailable faults); simpl.
  2:{ split; [split; [discriminate|by intros [? _]]|]. split; [done|discriminate]. }
  destruct orderedIds as [ids|]; simpl.
  2:{ split; [split; [discriminate|by intros (_ & _ & _ & ? & ? & _)]|].
      split; [done|discriminate]. }
  destruct ids as [|v0 ids]; simpl.
  { split; [split; [discriminate|by intros (_ & _ & _ & ? & [= <-] & ? & _)]|].
    split; [done|discriminate]. }
  destruct (readFault faults) as [m|]; simpl.
  { split; [split; [discriminate|by intros (_ & ? & _)]|]. split; [done|discriminate]. }
  set (docs := userDocs store userId).
  set (ids0 := v0 :: ids).
  change (if negb (ownsChannel docs v0)
          then v0 :: List.filter (fun v => negb (ownsChannel docs v)) ids
          else List.filter (fun v => negb (ownsChannel docs v)) ids)
    with (List.filter (fun v => negb (ownsChannel docs v)) ids0).
  destruct (0 <? length (List.filter (fun v => negb (ownsChannel docs v)) ids0))%nat
    eqn:Hinvalid; simpl.
  { split; [|split; [done|discriminate]]. split; [discriminate|].
    intros (_ & _ & _ & ids1 & [= <-] & _ & Hall). exfalso.
    assert ((0 <? length (List.filter (fun v => negb (ownsChannel docs v)) ids0))%nat = false);
      [|congruence].
    apply filter_length_zero. intros v Hv. apply negb_false_iff, ownsChannel_true.
    by apply Hall. }
  assert (Hall : forall v, v ∈ ids0 -> exists c, v = JString c /\ c ∈ docs.*1).
  { intros v Hv. apply ownsChannel_true, negb_false_iff.
    by apply (proj1 (filter_length_zero _ ids0) Hinvalid). }
  destruct (writeFault faults) as [m|]; simpl.
  { split; [split; [discriminate|by intros (_ & _ & ? & _)]|]. split; [done|discriminate]. }
  split; [split; [intros _; repeat split; eauto|done]|]. split; [done|]. intros _.
  exists ids0. split; [done|].
  rewrite userDocs_insert, decide_True by done.
  assert (Hunfold : match v0 with
            | JString channelId =>
                batchReorder (updateDoc docs channelId (fun d => withOrderIndex d 0)) ids 1
            | JOther => batchReorder docs ids 1
            end = batchReorder docs ids0 0) by done.
  rewrite Hunfold. split; [apply batchReorder_ids|].
  intros c d Hd.
  destruct (batchReorder_sameButOrder docs ids0 0 c d Hd) as (d' & Hd' & Hsame).
  exists d'. split; [done|]. split; [done|]. split.
  - intros Habsent. rewrite batchReorder_absent in Hd' by done. congruence.
  - intros i Hi Hlast. rewrite (batchReorder_last docs ids0 0 c i Hi Hlast), Hd in Hd'.
    inversion Hd'. done.
Qed.


(** ** Reordering, then reading the table *)

Lemma docKey_lookup docs pos doc :
  NoDup docs.*1 -> docs !! pos = Some doc ->
  docKey docs doc.1 = match orderIndex doc.2 with
                      | Some o => o
                      | None => Z.of_nat pos + 1
                      end.
Proof.
  intros Hnd Hpos. unfold docKey.
  by rewrite (proj2 (find_by_id docs pos doc Hnd Hpos)).
Qed.

Lemma getDoc_elem (docs : list (string * ChannelData)) c d :
  NoDup docs.*1 -> getDoc docs c = Some d ->
  exists pos, docs !! pos = Some (c, d).
Proof.
  intros Hnd Hd. unfold getDoc in Hd.
  destruct (List.find _ docs) as [[i d0]|] eqn:Hf; [|discriminate].
  inversion Hd; subst d0. apply find_some in Hf as [Hin Heq].
  apply String.eqb_eq in Heq. simpl in Heq. subst i.
  by apply list_elem_of_In, list_elem_of_lookup in Hin.
Qed.

Lemma StronglySorted_fmap_elem {A B} (f : A -> B) (R1 : relation A) (R2 : relation B) l :
  (forall x y, x ∈ l -> y ∈ l -> R1 x y -> R2 (f x) (f y)) ->
  StronglySorted R1 l -> StronglySorted R2 (f <$> l).
Proof.
  intros Himp Hs. induction Hs as [|x l Hs IH Hall]; [constructor|].
  rewrite fmap_cons. constructor.
  - apply IH. intros a b Ha Hb. apply Himp; by right.
  - rewrite Forall_forall in Hall. apply Forall_forall.
    intros y (a & -> & Ha)%list_elem_of_fmap. apply Himp; [left|by right|auto].
Qed.

Lemma StronglySorted_of_lookup {A} (R : relation A) l :
  (forall i j a b, (i < j)%nat -> l !! i = Some a -> l !! j = Some b -> R a b) ->
  StronglySorted R l.
Proof.
  induction l as [|x l IH]; intros H; [constructor|]. constructor.
  - apply IH. intros i j a b Hij Hi Hj. apply (H (S i) (S j)); [lia|done..].
  - apply Forall_forall. intros y [j Hj]%list_elem_of_lookup.
    apply (H 0%nat (S j)); [lia|done..].
Qed.

(** X16. Reordering, then reading the table. When the user's document
    ids are unique and [orderedIds] lists each of them once, the table
    read after the reorder shows the channels in the order that was
    sent. *)
Theorem reorder_then_schedule faults store userId perm :
  firestoreAvailable faults = true -> readFault faults = None ->
  writeFault faults = None ->
  NoDup (userDocs store userId).*1 ->
  perm ≡ₚ (userDocs store userId).*1 ->
  let out := reorder faults store userId (Some (JString <$> perm)) in
  itemId <$> scheduleItems (userDocs out.2 userId) = perm.
Proof.
  intros Hav Hrf Hwf Hnd Hperm out.
  set (docs := userDocs store userId) in *.
  destruct (decide (perm = [])) as [Hp|Hp].
  { subst perm. apply Permutation_nil in Hperm. subst out. unfold reorder.
    rewrite Hav. simpl. fold docs.
    apply fmap_nil_inv in Hperm. by rewrite Hperm. }
  pose proof (reorder_effect faults store userId (Some (JString <$> perm))) as Heff.
  cbv zeta in Heff. fold out docs in Heff. destruct Heff as (Hok & _ & Hdone).
  assert (Hstatus : status out.1 = 200).
  { apply Hok. repeat split; try done. exists (JString <$> perm).
    split; [done|]. split; [by intros ?%fmap_nil_inv|].
    intros v (c & -> & Hc)%list_elem_of_fmap. exists c. split; [done|]. by rewrite <- Hperm. }
  destruct (Hdone Hstatus) as (ids & [= <-] & Hids & Hdocs).
  set (docs' := userDocs out.2 userId) in *.
  assert (Hnd' : NoDup docs'.*1) by (by rewrite Hids).
  assert (Hndp : NoDup perm) by (by rewrite Hperm).
  assert (Hkey : forall i c, perm !! i = Some c -> docKey docs' c = Z.of_nat i).
  { intros i c Hi.
    assert (Hc : c ∈ docs.*1) by (rewrite <- Hperm; eauto using list_elem_of_lookup_2).
    destruct (getDoc_is_Some docs c Hc) as [d Hd].
    destruct (Hdocs c d Hd) as (d' & Hd' & _ & _ & Hlast).
    destruct (getDoc_elem docs' c d' Hnd' Hd') as [pos Hpos].
    pose proof (docKey_lookup docs' pos (c, d') Hnd' Hpos) as Hk. simpl in Hk.
    rewrite Hk, (Hlast i); [done| |].
    - by rewrite list_lookup_fmap, Hi.
    - intros j Hj Hcj. rewrite list_lookup_fmap in Hcj.
      destruct (perm !! j) as [c'|] eqn:Hj'; [|discriminate].
      inversion Hcj; subst c'. pose proof (NoDup_lookup perm i j c Hndp Hi Hj'). lia. }
  unfold scheduleItems. rewrite imap_withIndex_ids.
  set (pre := sortByKey (orderOf docs') (imap scheduleItem docs')).
  assert (Hpre : itemId <$> pre ≡ₚ perm).
  { unfold pre. by rewrite sortByKey_perm, imap_scheduleItem_ids, Hids, Hperm. }
  apply (StronglySorted_unique_strong (fun a b => docKey docs' a <= docKey docs' b));
    [| | |done].
  - intros a b Ha Hb Hab Hba. rewrite Hpre in Ha.
    apply list_elem_of_lookup in Ha as [i Hi], Hb as [j Hj].
    rewrite (Hkey i a Hi), (Hkey j b Hj) in Hab, Hba.
    assert (i = j) by lia. subst j. congruence.
  - apply (StronglySorted_fmap_elem _ (fun a b => orderOf docs' a <= orderOf docs' b));
      [|apply sortByKey_sorted].
    assert (Hof : forall p, p ∈ pre -> orderOf docs' p = docKey docs' (itemId p)).
    { intros p Hin. unfold pre in Hin. rewrite sortByKey_perm in Hin.
      apply elem_of_imap_scheduleItem in Hin as (pos & doc & Hpos & ->).
      by apply orderOf_scheduleItem. }
    intros a b Ha Hb. by rewrite (Hof a Ha), (Hof b Hb).
  - apply StronglySorted_of_lookup. intros i j a b Hij Hi Hj.
    rewrite (Hkey i a Hi), (Hkey j b Hj). lia.
Qed.


(** ** Concrete instances *)

Lemma asciiBlank_not_time t : asciiBlank t = true -> wellFormedTime t = false.
Proof.
  intros Hb. apply not_true_is_false. intros Hwf.
  destruct (wellFormedTime_inv t Hwf)
    as (a & b & c & d & a' & ? & ? & ? & -> & Ha & _).
  unfold asciiBlank in Hb. simpl in Hb.
  apply andb_true_iff in Hb as [Hb _]. apply bool_decide_eq_true in Hb.
  repeat (apply elem_of_cons in Hb as [->|Hb]; [discriminate Ha|]).
  by apply elem_of_nil in Hb.
Qed.

Lemma validated_times_are_clean_witness :
  StronglySorted (fun a b => timeValue a < timeValue b) ["08:00"; "20:00"]%string /\
  (length ["08:00"; "20:00"]%string <= 10)%nat /\
  (forall t, t ∈ ["08:00"; "20:00"]%string -> wellFormedTime t = true) /\
  (forall t, t ∈ ["08:00"; "20:00"]%string <-> t ∈ keptTimes asciiBlank sampleTimes).
Proof.
  apply (validated_times_are_clean asciiBlank sampleTimes). reflexivity.
Defined.

Lemma validateTimes_idempotent_witness :
  validateTimes asciiBlank (JString <$> ["08:00"; "20:00"]%string)
  = inr ["08:00"; "20:00"]%string.
Proof.
  apply (validateTimes_idempotent asciiBlank asciiBlank_not_time sampleTimes).
  reflexivity.
Defined.

Lemma stored_times_read_back_witness :
  enabledTimes (updateSchedules numberedUUID [slotAt "23:00"] ["08:00"; "20:00"]%string)
  = ["08:00"; "20:00"]%string /\
  wellFormedSchedules
    (updateSchedules numberedUUID [slotAt "23:00"] ["08:00"; "20:00"]%string) = true.
Proof.
  apply (stored_times_read_back asciiBlank numberedUUID sampleTimes). reflexivity.
Defined.

Lemma reorder_then_schedule_witness :
  itemId <$> scheduleItems
    (userDocs (reorder noFaults sampleStore "u1"
                 (Some (JString <$> ["b"; "a"]%string))).2 "u1")
  = ["b"; "a"]%string.
Proof.
  apply (reorder_then_schedule noFaults sampleStore "u1" ["b"; "a"]%string);
    [reflexivity..| |].
  - vm_compute. apply NoDup_cons. split; [|apply NoDup_singleton].
    by intros ?%list_elem_of_singleton.
  - vm_compute. apply Permutation_swap.
Defined.


End RoutesFacts.

(** ** The Firestore converter *)

Module ConverterFacts.
Import Converter.

Lemma copyKeys_lookup (rest : Obj) keys (data : Obj) k :
  foldl (copyKey rest) data keys !! k =
    if decide (k ∈ keys) then
      match rest !! k with Some v => Some v | None => data !! k end
    else data !! k.
Proof.
  revert data. induction keys as [|a keys IH]; intros data.
  - simpl. destruct (decide (k ∈ [])) as [H|_]; [by apply elem_of_nil in H|done].
  - cbn [foldl]. rewrite IH. unfold copyKey.
    destruct (decide (a = k)) as [->|Hne].
    + rewrite (decide_True (P := k ∈ k :: keys)) by (apply elem_of_cons; auto).
      destruct (rest !! k) eqn:Hk.
      * destruct (decide (k ∈ keys)); [done|].
        by rewrite lookup_insert, decide_True.
      * destruct (decide (k ∈ keys)); done.
    + destruct (decide (k ∈ keys)) as [Hin|Hout].
      * rewrite (decide_True (P := k ∈ a :: keys)) by (apply elem_of_cons; auto).
        destruct (rest !! k); [done|].
        destruct (rest !! a); [by rewrite lookup_insert_ne|done].
      * rewrite (decide_False (P := k ∈ a :: keys)).
        2:{ intros [?|?]%elem_of_cons; [by subst|done]. }
        destruct (rest !! a); [by rewrite lookup_insert_ne|done].
Qed.

(** A membership in a list of field names that does not hold, or a
    non-membership that does not, closes the goal. *)
Ltac keys_absurd :=
  exfalso;
  match goal with
  | H : _ ∈ _ |- _ =>
      apply (bool_decide_pack _) in H; vm_compute in H; exact H
  | H : _ ∉ _ |- _ =>
      apply H; apply (bool_decide_unpack _); vm_compute; exact I
  end.

(** Every field of the written document, read off the channel. *)
Lemma toFirestore_lookup (ch : Obj) k :
  toFirestore ch !! k =
    if decide (k ∈ requiredKeys ++ optionalKeys) then ch !! k
    else if decide (k = "generationMode") then
      Some (orValue (ch !! "generationMode") (VString "script"))
    else if decide (k = "autoSendEnabled") then
      Some (nullish (ch !! "autoSendEnabled") (VBool false))
    else if decide (k = "autoSendSchedules") then
      Some (nullish (ch !! "autoSendSchedules") (VSchedules []))
    else if decide (k = "createdAt") then
      Some (nullish (ch !! "createdAt") VServerTimestamp)
    else if decide (k = "updatedAt") then Some VServerTimestamp
    else None.
Proof.
  unfold toFirestore.
  rewrite copyKeys_lookup, !lookup_insert, copyKeys_lookup, lookup_empty.
  rewrite (lookup_delete_ne ch "id" "createdAt"), (lookup_delete_ne ch "id" "autoSendSchedules"),
    (lookup_delete_ne ch "id" "autoSendEnabled"), (lookup_delete_ne ch "id" "generationMode")
    by done.
  assert (Hid : k ∈ requiredKeys ++ optionalKeys -> delete "id" ch !! k = ch !! k).
  { intros Hin. apply lookup_delete_ne. intros <-. keys_absurd. }
  destruct (decide (k ∈ requiredKeys ++ optionalKeys)) as [Hin|Hout].
  - rewrite (Hid Hin).
    assert (Hcase : k ∈ requiredKeys \/ k ∈ optionalKeys) by (by apply elem_of_app).
    destruct (ch !! k) eqn:Hk;
      repeat case_decide; try done; try tauto; subst k; keys_absurd.
  - apply not_elem_of_app in Hout as [Hr Ho].
    repeat case_decide; try done; try congruence.
Qed.

(** Every field of the object read back, read off the document. *)
Lemma fromFirestore_lookup (i : string) (data : Obj) k :
  fromFirestore i data !! k =
    match data !! k with
    | Some v => Some v
    | None =>
        if decide (k = "id") then Some (VString i)
        else if decide (k = "generationMode") then Some (VString "script")
        else None
    end.
Proof.
  unfold fromFirestore.
  rewrite lookup_union, !lookup_insert, lookup_empty.
  destruct (data !! k) eqn:Hk.
  - by rewrite union_Some_l.
  - rewrite (left_id_L None _).
    repeat case_decide; try done; try congruence.
    subst k. by rewrite Hk.
Qed.

Lemma orValue_truthy v d :
  truthyValue (Some d) = true -> truthyValue (Some (orValue v d)) = true.
Proof.
  intros Hd. unfold orValue. destruct v as [x|]; [|done].
  by destruct (truthyValue (Some x)) eqn:Hx.
Qed.

Lemma orValue_keeps x d : truthyValue (Some x) = true -> orValue (Some x) d = x.
Proof. intros Hx. unfold orValue. by rewrite Hx. Qed.

Lemma nullish_not_null v d : d ≠ VNull -> nullish v d ≠ VNull.
Proof. intros Hd. by destruct v as [[]|]. Qed.

Lemma nullish_keeps x d : x ≠ VNull -> nullish (Some x) d = x.
Proof. intros Hx. by destruct x. Qed.

Lemma toFirestore_id (ch : Obj) : toFirestore ch !! "id" = None.
Proof. by rewrite toFirestore_lookup. Qed.

Lemma toFirestore_generationMode (ch : Obj) :
  toFirestore ch !! "generationMode" =
    Some (orValue (ch !! "generationMode") (VString "script")).
Proof. by rewrite toFirestore_lookup. Qed.

Lemma toFirestore_autoSendEnabled (ch : Obj) :
  toFirestore ch !! "autoSendEnabled" =
    Some (nullish (ch !! "autoSendEnabled") (VBool false)).
Proof. by rewrite toFirestore_lookup. Qed.

Lemma toFirestore_autoSendSchedules (ch : Obj) :
  toFirestore ch !! "autoSendSchedules" =
    Some (nullish (ch !! "autoSendSchedules") (VSchedules [])).
Proof. by rewrite toFirestore_lookup. Qed.

Lemma toFirestore_createdAt (ch : Obj) :
  toFirestore ch !! "createdAt" = Some (nullish (ch !! "createdAt") VServerTimestamp).
Proof. by rewrite toFirestore_lookup. Qed.

Lemma toFirestore_updatedAt (ch : Obj) :
  toFirestore ch !! "updatedAt" = Some VServerTimestamp.
Proof. by rewrite toFirestore_lookup. Qed.

(** The object read back from a written document is the document plus
    the snapshot's id. *)
Lemma fromFirestore_toFirestore (i : string) (ch : Obj) :
  fromFirestore i (toFirestore ch) = <["id" := VString i]> (toFirestore ch).
Proof.
  apply map_eq. intros k.
  rewrite fromFirestore_lookup, lookup_insert.
  destruct (decide ("id" = k)) as [<-|Hne].
  - by rewrite toFirestore_id.
  - destruct (toFirestore ch !! k) eqn:Hk; [done|].
    rewrite decide_False by done.
    case_decide; [|done].
    subst k. by rewrite toFirestore_generationMode in Hk.
Qed.

(** X17. The document [toFirestore] writes: it has no [id] and no
    field outside the known ones; the plain and the optional fields are
    those of the channel ([null] kept, [undefined] left out);
    [updatedAt] is always the server timestamp, whatever the channel
    holds; [generationMode] is always truthy, the channel's own when
    that is truthy and "script" otherwise; [autoSendEnabled],
    [autoSendSchedules] and [createdAt] are always present and never
    [null], the channel's own value unless it is missing or [null],
    and then [false], the empty array and the server timestamp. *)
Theorem toFirestore_document (ch : Obj) :
  toFirestore ch !! "id" = None /\
  (forall k, k ∉ documentKeys -> toFirestore ch !! k = None) /\
  (forall k, k ∈ requiredKeys ++ optionalKeys -> toFirestore ch !! k = ch !! k) /\
  toFirestore ch !! "updatedAt" = Some VServerTimestamp /\
  (exists v, toFirestore ch !! "generationMode" = Some v /\
     truthyValue (Some v) = true /\
     (truthyValue (ch !! "generationMode") = true -> ch !! "generationMode" = Some v) /\
     (truthyValue (ch !! "generationMode") = false -> v = VString "script")) /\
  (forall k d,
     (k, d) ∈ [("autoSendEnabled", VBool false); ("autoSendSchedules", VSchedules []);
               ("createdAt", VServerTimestamp)] ->
     exists v, toFirestore ch !! k = Some v /\ v ≠ VNull /\
       (forall x, ch !! k = Some x -> x ≠ VNull -> v = x) /\
       (ch !! k = None \/ ch !! k = Some VNull -> v = d)).
Proof.
  split; [apply toFirestore_id|].
  split.
  { intros k Hk. rewrite toFirestore_lookup.
    unfold documentKeys in Hk.
    apply not_elem_of_app in Hk as [Hr Hk].
    apply not_elem_of_app in Hk as [Hd Ho].
    rewrite decide_False by (intros [?|?]%elem_of_app; done).
    repeat (case_decide; [subst k; keys_absurd|]). done. }
  split.
  { intros k Hk. rewrite toFirestore_lookup. by rewrite decide_True. }
  split; [apply toFirestore_updatedAt|].
  split.
  { eexists. split; [apply toFirestore_generationMode|].
    split; [by apply orValue_truthy|].
    split.
    - intros Ht. destruct (ch !! "generationMode") as [x|] eqn:Hx; [|done].
      by rewrite orValue_keeps.
    - intros Hf. unfold orValue.
      destruct (ch !! "generationMode") as [x|] eqn:Hx; [|done].
      by rewrite Hf. }
  intros k d Hkd.
  assert (Hv : toFirestore ch !! k = Some (nullish (ch !! k) d) /\ d ≠ VNull).
  { repeat (apply elem_of_cons in Hkd as [Hkd|Hkd];
            [injection Hkd as -> ->; split; [by rewrite toFirestore_lookup|done]|]).
    by apply elem_of_nil in Hkd. }
  destruct Hv as [Hv Hd].
  exists (nullish (ch !! k) d).
  split; [done|]. split; [by apply nullish_not_null|]. split.
  - intros x -> Hx. by apply nullish_keeps.
  - by intros [-> | ->].
Qed.

(** *** Through the store *)

Lemma written_lookup t (data : Obj) k : written t data !! k = resolved t <$> data !! k.
Proof. unfold written. apply lookup_fmap. Qed.

Lemma resolved_truthy t v : truthyValue (Some (resolved t v)) = truthyValue (Some v).
Proof. by destruct v. Qed.

Lemma resolved_not_null t v : v ≠ VNull -> resolved t v ≠ VNull.
Proof. by destruct v. Qed.

Lemma resolved_twice t t' v : resolved t' (resolved t v) = resolved t v.
Proof. by destruct v. Qed.

Lemma written_twice t t' (data : Obj) : written t' (written t data) = written t data.
Proof.
  apply map_eq. intros k. rewrite !written_lookup.
  destruct (data !! k) as [v|]; [|done]. simpl. by rewrite resolved_twice.
Qed.

(** X18. Round trip through the store. Let a channel be written with
    [toFirestore] at time [t], the store replacing the server-timestamp
    sentinels by [t], and read back with [fromFirestore]. The object
    read is the stored document plus the snapshot's id. Writing it
    again sends the stored document with a fresh sentinel for
    [updatedAt], so the store holds after the second write, at time
    [t'], what it held before in every field but [updatedAt]: the
    defaults are not applied a second time, and a [createdAt] that the
    channel lacked is set by the first write and kept by the second. *)
Theorem converter_round_trip (i : string) (ch : Obj) (t t' : Z) :
  let doc := written t (toFirestore ch) in
  fromFirestore i doc = <["id" := VString i]> doc /\
  toFirestore (fromFirestore i doc) = <["updatedAt" := VServerTimestamp]> doc /\
  written t' (toFirestore (fromFirestore i doc)) = <["updatedAt" := VTimestamp t']> doc /\
  doc !! "updatedAt" = Some (VTimestamp t) /\
  doc !! "createdAt" =
    Some (match ch !! "createdAt" with
          | None => VTimestamp t
          | Some VNull => VTimestamp t
          | Some VServerTimestamp => VTimestamp t
          | Some v => v
          end).
Proof.
  intros doc.
  assert (Hdoc : forall k, doc !! k = resolved t <$> toFirestore ch !! k)
    by (intros k; apply written_lookup).
  assert (Hread : fromFirestore i doc = <["id" := VString i]> doc).
  { apply map_eq. intros k.
    rewrite fromFirestore_lookup, lookup_insert.
    destruct (decide ("id" = k)) as [<-|Hne].
    - by rewrite Hdoc, toFirestore_id.
    - destruct (doc !! k) eqn:Hk; [done|].
      rewrite decide_False by done.
      case_decide; [|done].
      subst k. by rewrite Hdoc, toFirestore_generationMode in Hk. }
  assert (Hsend : toFirestore (fromFirestore i doc) =
                  <["updatedAt" := VServerTimestamp]> doc).
  { rewrite Hread. apply map_eq. intros k.
    rewrite (toFirestore_lookup (<["id" := VString i]> doc)).
    rewrite (lookup_insert_ne doc "id" "generationMode"),
      (lookup_insert_ne doc "id" "autoSendEnabled"),
      (lookup_insert_ne doc "id" "autoSendSchedules"),
      (lookup_insert_ne doc "id" "createdAt") by done.
    rewrite !Hdoc, toFirestore_generationMode, toFirestore_autoSendEnabled,
      toFirestore_autoSendSchedules, toFirestore_createdAt.
    cbn [fmap option_fmap option_map].
    rewrite orValue_keeps by (rewrite resolved_truthy; by apply orValue_truthy).
    rewrite !nullish_keeps by (by apply resolved_not_null, nullish_not_null).
    case_decide as Hin.
    - rewrite !lookup_insert_ne by (intros <-; keys_absurd). done.
    - rewrite lookup_insert, Hdoc, (toFirestore_lookup ch k).
      rewrite (decide_False (P := k ∈ requiredKeys ++ optionalKeys)) by done.
      repeat case_decide; try done; try congruence. }
  split; [exact Hread|]. split; [exact Hsend|]. split.
  - rewrite Hsend. unfold written at 1. rewrite fmap_insert. cbn [resolved].
    f_equal. apply written_twice.
  - split.
    + by rewrite Hdoc, toFirestore_updatedAt.
    + rewrite Hdoc, toFirestore_createdAt. cbn [fmap option_fmap option_map].
      f_equal. by destruct (ch !! "createdAt") as [[]|].
Qed.

(** X19. What [fromFirestore] returns, field by field: every field of
    the document as it is stored, so a document with an [id] field of
    its own overrides the snapshot's id and a stored [generationMode]
    is returned even when it is falsy ([null] or the empty string); the
    snapshot's id and the "script" default fill in only when the
    document lacks the field; nothing else is added. *)
Theorem fromFirestore_fields (i : string) (data : Obj) :
  (forall k v, data !! k = Some v -> fromFirestore i data !! k = Some v) /\
  (data !! "id" = None -> fromFirestore i data !! "id" = Some (VString i)) /\
  (data !! "generationMode" = None ->
     fromFirestore i data !! "generationMode" = Some (VString "script")) /\
  (forall k, data !! k = None -> k ≠ "id" -> k ≠ "generationMode" ->
     fromFirestore i data !! k = None).
Proof.
  repeat split.
  - intros k v Hk. by rewrite fromFirestore_lookup, Hk.
  - intros Hk. by rewrite fromFirestore_lookup, Hk.
  - intros Hk. by rewrite fromFirestore_lookup, Hk.
  - intros k Hk Hid Hgm. rewrite fromFirestore_lookup, Hk.
    by rewrite !decide_False.
Qed.

(** *** The classifier on stored channels *)

Lemma foldl_fmap_same {A B} (f : B -> A -> B) (g : A -> A) (l : list A) (b : B) :
  (forall b x, f b (g x) = f b x) -> foldl f b (g <$> l) = foldl f b l.
Proof.
  intros Hf. revert b. induction l as [|x l IH]; intros b; [done|].
  rewrite fmap_cons. cbn [foldl]. by rewrite Hf, IH.
Qed.

Lemma truthyFlag_stored ch :
  truthyFlag (autoSendEnabled (stored ch)) = truthyFlag (autoSendEnabled ch).
Proof. by destruct ch as [? [[]|] ?]. Qed.

Lemma channelView_stored (o : Obj) ch :
  channelView o = Some ch ->
  channelView (fromFirestore (id ch) (toFirestore o)) = Some (stored ch).
Proof.
  unfold channelView. intros Hview.
  rewrite !fromFirestore_lookup, toFirestore_id, toFirestore_autoSendEnabled,
    toFirestore_autoSendSchedules.
  rewrite decide_True by done.
  destruct (o !! "id") as [[]|]; try done.
  destruct (o !! "autoSendEnabled") as [[]|]; try done;
    destruct (o !! "autoSendSchedules") as [[]|]; try done;
    by injection Hview as <-.
Qed.

Section Stored.

Variable hhmmToMinutes : string -> number.

Lemma getChannelState_stored ch now w :
  getChannelState hhmmToMinutes (stored ch) now w = getChannelState hhmmToMinutes ch now w.
Proof.
  unfold getChannelState. rewrite truthyFlag_stored.
  destruct ch as [i flag [l|]]; cbn [stored autoSendSchedules autoSendEnabled id].
  - done.
  - by rewrite orb_true_r.
Qed.

Lemma isPicked_stored p ch : isPicked p (stored ch) = isPicked p ch.
Proof. done. Qed.

Lemma previousStep_stored now w cur acc ch :
  previousStep hhmmToMinutes now w cur acc (stored ch) =
  previousStep hhmmToMinutes now w cur acc ch.
Proof.
  unfold previousStep. rewrite isPicked_stored.
  destruct (isPicked cur ch); [done|].
  unfold eligibleSchedules. rewrite truthyFlag_stored.
  destruct (truthyFlag (autoSendEnabled ch)); [|done].
  by destruct ch as [i flag [l|]].
Qed.

Lemma yesterdayStep_stored cur acc ch :
  yesterdayStep hhmmToMinutes cur acc (stored ch) = yesterdayStep hhmmToMinutes cur acc ch.
Proof.
  unfold yesterdayStep. rewrite isPicked_stored.
  destruct (isPicked cur ch); [done|].
  unfold eligibleSchedules. rewrite truthyFlag_stored.
  destruct (truthyFlag (autoSendEnabled ch)); [|done].
  by destruct ch as [i flag [l|]].
Qed.

(** X20. The defaults of the converter do not change what the
    classifier reports. A channel that is written with [toFirestore]
    and read back with [fromFirestore] shows the classifier the same
    id, [autoSendEnabled] or [false] where it was missing, and
    [autoSendSchedules] or the empty array where they were missing; and
    [calculateChannelStates] gives the same map for a fleet and for the
    fleet with these defaults filled in. *)
Theorem classification_survives_storage :
  (forall (o : Obj) ch, channelView o = Some ch ->
     channelView (fromFirestore (id ch) (toFirestore o)) = Some (stored ch)) /\
  (forall now channels w,
     calculateChannelStatesAt hhmmToMinutes now (stored <$> channels) w =
     calculateChannelStatesAt hhmmToMinutes now channels w).
Proof.
  split; [apply channelView_stored|].
  intros now channels w.
  unfold calculateChannelStatesAt, pickCurrent, pickNext, pickPrevious, applyStates.
  rewrite !foldl_fmap_same; [done|..]; intros b x;
    first [ apply yesterdayStep_stored
          | apply previousStep_stored
          | unfold nextStep; by rewrite isPicked_stored, getChannelState_stored
          | unfold currentStep; by rewrite getChannelState_stored
          | reflexivity ].
Qed.

End Stored.

End ConverterFacts.

(** ** The channel wizard *)

Module WizardFacts.
Import Wizard WizardSpec.

Section Invariant.

Variable trim : string -> string.

Lemma invariant_initial : invariant trim initialState.
Proof.
  unfold invariant, good, initialState, STEPS_length; cbn.
  repeat split; try lia; try (by left);
    apply (bool_decide_unpack _); vm_compute; exact I.
Qed.

Ltac close_good :=
  repeat match goal with
         | |- _ /\ _ => split
         end;
  first [ assumption
        | lia
        | intros ?; lia
        | intros ?; assumption
        | intros ?; match goal with H : _ -> ?P |- ?P => apply H; lia end
        | eapply list_elem_of_lookup_2; eassumption
        | right; eapply list_elem_of_lookup_2; eassumption ].

Ltac steps n Hn :=
  let H := fresh in
  assert (H : n = 1 \/ n = 2 \/ n = 3 \/ n = 4 \/ n = 5 \/ n = 6 \/ n = 7 \/
              n = 8 \/ n = 9 \/ n = 10) by (unfold STEPS_length in Hn; lia);
  destruct_or! H; subst n.

Lemma good_back n d : good trim n d -> 1 < n -> good trim (n - 1) d.
Proof.
  unfold good, STEPS_length.
  intros (Hn & Hp & Hl & Hd & Hm & Ht & (Hy & Hk & Hi) & H1 & H5 & H6 & H7) Hlt.
  close_good.
Qed.

Lemma good_next n d :
  good trim n d ->
  canGoNext trim {| currentStep := n; loading := false; error := None; formData := d |}
    = true ->
  n < STEPS_length -> good trim (n + 1) d.
Proof.
  unfold good, canGoNext. cbn [currentStep formData].
  intros (Hn & Hp & Hl & Hd & Hm & Ht & (Hy & Hk & Hi) & H1 & H5 & H6 & H7) Hgo Hlt.
  steps n Hn; unfold STEPS_length in *; cbn -[filled] in Hgo; close_good.
Qed.

Lemma good_onChange s text : invariant trim s -> invariant trim (onChange s text).
Proof.
  destruct s as [n ld er d]. unfold invariant, onChange, good.
  cbn [currentStep formData].
  intros (Hn & Hp & Hl & Hd & Hm & Ht & (Hy & Hk & Hi) & H1 & H5 & H6 & H7).
  steps n Hn; destruct d; cbn in *; unfold STEPS_length in *; close_good.
Qed.

Lemma good_onClick s k : invariant trim s -> invariant trim (onClick s k).
Proof.
  destruct s as [n ld er d]. unfold invariant, onClick, good.
  cbn [currentStep formData].
  intros (Hn & Hp & Hl & Hd & Hm & Ht & (Hy & Hk & Hi) & H1 & H5 & H6 & H7).
  steps n Hn; unfold STEPS_length in *;
    try match goal with
        | |- context [?l !! k] => destruct (l !! k) eqn:Hlk
        end;
    destruct d; cbn [currentStep formData setFormData withPlatform withLanguage
      withDuration withTone withGenerationMode name platform language
      targetDurationSec niche audience tone blockedTopics extraNotes generationMode
      youtubeUrl tiktokUrl instagramUrl] in *;
    close_good.
Qed.

Lemma invariant_act s a : invariant trim s -> invariant trim (act trim s a).
Proof.
  intros Hs. destruct a as [text|k| | |user|message]; cbn [act].
  - by apply good_onChange.
  - by apply good_onClick.
  - unfold handleNext.
    destruct (canGoNext trim s) eqn:Hgo; [|done].
    destruct (currentStep s <? STEPS_length) eqn:Hlt; [|done].
    apply Z.ltb_lt in Hlt. cbn [andb].
    unfold invariant, goToStep; cbn [currentStep formData].
    apply good_next; [done| |done].
    by destruct s.
  - unfold handleBack.
    destruct (currentStep s >? 1) eqn:Hgt; [|done].
    unfold invariant, goToStep; cbn [currentStep formData].
    apply good_back; [done|lia].
  - unfold handleSubmit.
    destruct user as [uid|]; [|done].
    destruct (truthy uid); [|done].
    by destruct (canGoNext trim s).
  - done.
Qed.

(** X21. The wizard keeps its form consistent. After any sequence of
    typing, clicks, "next", "back", submissions and rejected creations
    on a fresh wizard: the step is between 1 and 10; platform,
    language, duration and generation mode are among the options
    offered; the tone is still empty or one of the tones offered; the
    three urls are still [null]; and the required text of every step
    already passed (name, niche, audience, tone) is not blank. *)
Theorem wizard_form_stays_consistent (actions : list Action) :
  1 <= currentStep (run trim actions) <= STEPS_length /\
  platform (formData (run trim actions)) ∈ PLATFORMS /\
  language (formData (run trim actions)) ∈ LANGUAGES /\
  targetDurationSec (formData (run trim actions)) ∈ DURATIONS /\
  generationMode (formData (run trim actions)) ∈ MODES /\
  (tone (formData (run trim actions)) = "" \/
   tone (formData (run trim actions)) ∈ TONES) /\
  (youtubeUrl (formData (run trim actions)) = None /\
   tiktokUrl (formData (run trim actions)) = None /\
   instagramUrl (formData (run trim actions)) = None) /\
  (1 < currentStep (run trim actions) ->
     filled trim (name (formData (run trim actions))) = true) /\
  (5 < currentStep (run trim actions) ->
     filled trim (niche (formData (run trim actions))) = true) /\
  (6 < currentStep (run trim actions) ->
     filled trim (audience (formData (run trim actions))) = true) /\
  (7 < currentStep (run trim actions) ->
     filled trim (tone (formData (run trim actions))) = true).
Proof.
  assert (H : forall s, invariant trim s -> invariant trim (foldl (act trim) s actions)).
  { induction actions as [|a l IH]; intros s Hs; [done|].
    cbn [foldl]. apply IH. by apply invariant_act. }
  exact (H initialState invariant_initial).
Qed.

Lemma invariant_run actions : invariant trim (run trim actions).
Proof.
  unfold run. generalize invariant_initial. generalize initialState.
  induction actions as [|a l IH]; intros s Hs; [done|].
  cbn [foldl]. apply IH. by apply invariant_act.
Qed.

(** X22. Submitting on the last step. When the wizard has reached step
    10, [handleSubmit] for a signed-in user calls [createChannel] with
    that user's uid and the form, sets [loading] and clears the error,
    and the form it sends has a name, a niche, an audience and a tone
    that are not blank (the tone being one of those offered, as long as
    the empty string counts as blank); without a user, or with an empty
    uid, nothing is created. *)
Theorem last_step_submission_is_complete (actions : list Action) :
  currentStep (run trim actions) = STEPS_length ->
  (forall uid, truthy uid = true ->
     exists s',
       handleSubmit trim (Some uid) (run trim actions) =
         (s', Some (uid, formData (run trim actions))) /\
       loading s' = true /\ error s' = None /\
       filled trim (name (formData (run trim actions))) = true /\
       filled trim (niche (formData (run trim actions))) = true /\
       filled trim (audience (formData (run trim actions))) = true /\
       filled trim (tone (formData (run trim actions))) = true /\
       (filled trim "" = false -> tone (formData (run trim actions)) ∈ TONES)) /\
  (handleSubmit trim None (run trim actions)).2 = None /\
  (handleSubmit trim (Some "") (run trim actions)).2 = None.
Proof.
  intros Hstep.
  pose proof (invariant_run actions) as Hinv.
  unfold invariant, good in Hinv. rewrite Hstep in Hinv. unfold STEPS_length in Hinv.
  destruct Hinv as (_ & _ & _ & _ & _ & Ht & _ & H1 & H5 & H6 & H7).
  split; [|done].
  intros uid Huid. unfold handleSubmit, canGoNext.
  rewrite Huid, Hstep. cbn -[filled].
  eexists. split; [reflexivity|]. cbn -[filled].
  repeat split; try (by auto with lia).
  intros Hblank. destruct Ht as [Ht|Ht]; [|done].
  rewrite Ht, Hblank in H7. by specialize (H7 ltac:(lia)).
Qed.

(** X23. [handleSubmit] does not look at the step. Run on step 1 of a
    fresh wizard, once a name that is not blank has been typed, it
    calls [createChannel] for a signed-in user with a form whose niche,
    audience and tone are still empty: only the field of the current
    step is checked. *)
Theorem submission_checks_current_step_only (text uid : string) :
  filled trim text = true -> truthy uid = true ->
  currentStep (run trim [Input text]) = 1 /\
  (handleSubmit trim (Some uid) (run trim [Input text])).2 =
    Some (uid, withName emptyForm text) /\
  niche (withName emptyForm text) = "" /\
  audience (withName emptyForm text) = "" /\
  tone (withName emptyForm text) = "".
Proof.
  intros Htext Huid.
  split; [reflexivity|]. split; [|done].
  unfold run, handleSubmit, canGoNext. cbn [foldl act onChange initialState currentStep].
  rewrite Huid. cbn [setFormData formData currentStep withName name].
  by rewrite Htext.
Qed.

End Invariant.

(** *** Concrete instances *)

Lemma last_step_submission_is_complete_witness :
  currentStep (run trimSpaces samplePass) = STEPS_length /\
  (handleSubmit trimSpaces (Some "u1") (run trimSpaces samplePass)).2 =
    Some ("u1", formData (run trimSpaces samplePass)) /\
  name (formData (run trimSpaces samplePass)) = "News" /\
  tone (formData (run trimSpaces samplePass)) ∈ TONES.
Proof.
  assert (Hstep : currentStep (run trimSpaces samplePass) = STEPS_length)
    by (vm_compute; reflexivity).
  destruct (last_step_submission_is_complete trimSpaces samplePass Hstep)
    as [Hsub _].
  destruct (Hsub "u1" eq_refl) as (s' & Hs & _ & _ & _ & _ & _ & _ & Htone).
  split; [exact Hstep|].
  split; [by rewrite Hs|].
  split; [vm_compute; reflexivity|].
  apply Htone. vm_compute; reflexivity.
Defined.

Lemma submission_checks_current_step_only_witness :
  (handleSubmit trimSpaces (Some "u1") (run trimSpaces [Input "News"])).2 =
    Some ("u1", withName emptyForm "News") /\
  niche (withName emptyForm "News") = "".
Proof.
  destruct (submission_checks_current_step_only trimSpaces "News" "u1" eq_refl eq_refl)
    as (_ & Hcall & Hniche & _).
  exact (conj Hcall Hniche).
Defined.

End WizardFacts.
